(** * pip-compile-multi: environment graph and lockfile rewriting

    A shallow embedding of [pipcompilemulti.py] (the single-file release
    1.1.8) and of [pipcompilemulti/environment.py] (the package layout),
    with the properties of the accompanying specification stated and
    settled against the code.

    Conventions.
    - A Python [str] is a [list ascii]; a character is a code point below
      256.  Whitespace is Python 3's [str.isspace] on that range.
    - A text file is the sequence of characters Python 3 hands to the
      program; reading in text mode applies universal-newline translation.
    - A function that may raise returns a sum; the logger is an explicit
      list of records.
    - Library functions that are not part of the repository ([fnmatch],
      [hashlib.sha1]) are Section variables. *)

From Stdlib Require Import Ascii String List Arith Lia Bool.
From stdpp Require Import gmap strings list sorting.
Import ListNotations.

#[local] Set Warnings "-clear-no-such-hyp".

Local Open Scope list_scope.
Local Open Scope stdpp_scope.
Local Open Scope char_scope.

(** ** Python strings *)

Module Str.

Abbreviation str := (list ascii).

(** A literal: [lit "=="] is the two-character string. *)
Definition lit (s : string) : str := list_ascii_of_string s.

Definition eqb (a b : ascii) : bool := Ascii.eqb a b.
Global Arguments eqb : simpl never.

(** [str.isspace] for one character (code points 9-13, 28-32, 133, 160). *)
Definition isspace (c : ascii) : bool :=
  match nat_of_ascii c with
  | 9 | 10 | 11 | 12 | 13 | 28 | 29 | 30 | 31 | 32 | 133 | 160 => true
  | _ => false
  end.

Fixpoint lstrip (s : str) : str :=
  match s with
  | c :: s' => if isspace c then lstrip s' else s
  | [] => []
  end.

Definition rstrip (s : str) : str := rev (lstrip (rev s)).

Definition strip (s : str) : str := rstrip (lstrip s).

Fixpoint startswith (s p : str) {struct p} : bool :=
  match p, s with
  | [], _ => true
  | a :: p', b :: s' => eqb a b && startswith s' p'
  | _ :: _, [] => false
  end.

Definition endswith (s p : str) : bool := startswith (rev s) (rev p).

(** [s.ljust(n)]: pad with spaces on the right up to width [n]. *)
Definition ljust (s : str) (n : nat) : str := s ++ repeat " " (n - length s).

(** [s.find(sub)]: the lowest index where [sub] occurs, [None] for -1. *)
Fixpoint find (s sub : str) : option nat :=
  if startswith s sub then Some 0
  else match s with
       | [] => None
       | _ :: s' => option_map S (find s' sub)
       end.

(** [sep.join(parts)]. *)
Fixpoint join (sep : str) (parts : list str) : str :=
  match parts with
  | [] => []
  | [p] => p
  | p :: ps => p ++ sep ++ join sep ps
  end.

(** [c.lower()] for one character: A-Z and the Latin-1 capitals. *)
Definition lower_char (c : ascii) : ascii :=
  let n := nat_of_ascii c in
  if ((65 <=? n) && (n <=? 90))%nat then ascii_of_nat (n + 32)
  else if ((192 <=? n) && (n <=? 222) && negb (n =? 215))%nat
       then ascii_of_nat (n + 32)
  else c.

Definition lower (s : str) : str := map lower_char s.

(** Lexicographic comparison by code point, the order of [sorted]. *)
Fixpoint leb (a b : str) : bool :=
  match a, b with
  | [], _ => true
  | _ :: _, [] => false
  | x :: a', y :: b' =>
      if (nat_of_ascii x <? nat_of_ascii y)%nat then true
      else if (nat_of_ascii y <? nat_of_ascii x)%nat then false
      else leb a' b'
  end.

Definition newline : ascii := "010".
Definition cr : ascii := "013".
Definition tab : ascii := "009".

(** Iterating a text file: the lines, each keeping its terminator. *)
Fixpoint lines_from (cur : str) (s : str) : list str :=
  match s with
  | [] => match cur with [] => [] | _ => [rev cur] end
  | c :: s' =>
      if eqb c newline then rev (c :: cur) :: lines_from [] s'
      else lines_from (c :: cur) s'
  end.

Definition readlines (s : str) : list str := lines_from [] s.

(** Universal newlines: on reading, "\r\n" and "\r" become "\n". *)
Fixpoint universal_newlines (s : str) : str :=
  match s with
  | [] => []
  | c :: s' =>
      if eqb c cr then
        match s' with
        | d :: s'' => if eqb d newline then newline :: universal_newlines s''
                      else newline :: universal_newlines s'
        | [] => [newline]
        end
      else c :: universal_newlines s'
  end.

(** A text of comment lines, each ended by a newline: what a header is
    made of. *)
Definition is_comment_block (text : str) : bool :=
  forallb (fun line => startswith line ["#"] && endswith line [newline])
          (readlines text).

(** A line with its terminator, and a list of lines as [readlines]
    produces them: only the last one may lack the terminator. *)
Definition terminated (line : str) : Prop :=
  exists body, line = body ++ [newline] /\ newline ∉ body.

Fixpoint lines_ok (ls : list str) : Prop :=
  match ls with
  | [] => True
  | l :: ls' =>
      match ls' with
      | [] => terminated l \/ (l <> [] /\ newline ∉ l)
      | _ => terminated l /\ lines_ok ls'
      end
  end.

End Str.

Import Str.

(** ** Regular expressions

    The fragment of Python's [re] the program uses: literals, greedy
    repetition of a character class, a greedy optional group, named
    groups and [$].  The matcher backtracks in Python's order: a greedy
    repetition first tries to take one more character, an optional group
    is first tried present. *)

Module Re.

Inductive regex : Type :=
| Lit (l : str)
| Star (p : ascii -> bool)
| Plus (p : ascii -> bool)
| Seq (r1 r2 : regex)
| Opt (r : regex)
| Group (name : string) (r : regex)
| Dollar.

Definition captures := list (string * str).

Fixpoint group (g : captures) (name : string) : option str :=
  match g with
  | [] => None
  | (n, v) :: g' => if String.eqb n name then Some v else group g' name
  end.

(** Greedy [p*] against [s]; [k consumed rest] is what follows. *)
Fixpoint star {A} (p : ascii -> bool) (s : str) (k : str -> str -> option A)
  : option A :=
  match s with
  | c :: s' =>
      if p c then
        match star p s' (fun m r => k (c :: m) r) with
        | Some x => Some x
        | None => k [] s
        end
      else k [] s
  | [] => k [] []
  end.

Fixpoint run (r : regex) (s : str) (g : captures)
    (k : str -> str -> captures -> option captures) : option captures :=
  match r with
  | Lit l => if startswith s l then k l (drop (length l) s) g else None
  | Star p => star p s (fun m rest => k m rest g)
  | Plus p =>
      match s with
      | c :: s' => if p c then star p s' (fun m rest => k (c :: m) rest g)
                   else None
      | [] => None
      end
  | Seq r1 r2 =>
      run r1 s g (fun m1 s1 g1 =>
        run r2 s1 g1 (fun m2 s2 g2 => k (m1 ++ m2) s2 g2))
  | Opt r' =>
      match run r' s g k with
      | Some x => Some x
      | None => k [] s g
      end
  | Group n r' => run r' s g (fun m s' g' => k m s' ((n, m) :: g'))
  | Dollar =>
      match s with
      | [] => k [] [] g
      | [c] => if eqb c newline then k [] s g else None
      | _ => None
      end
  end.

(** [pattern.match(s)]: anchored at the start of [s]. *)
Definition match_ (r : regex) (s : str) : option captures :=
  run r s [] (fun _ _ g => Some g).

(** [.] without DOTALL, and [[^ ]]. *)
Definition dot (c : ascii) : bool := negb (eqb c newline).
Definition not_space (c : ascii) : bool := negb (eqb c " ").
Definition space (c : ascii) : bool := eqb c " ".

End Re.

Import Re.

(** ** Exceptions, results and the logger *)

Inductive exn : Type :=
| KeyError (key : str)
| RuntimeError (msg : string)
| RecursionError
| AttributeError (msg : string)
| IOError (path : str)
| CircularDependencyError.

Inductive result (A : Type) : Type :=
| Ok (a : A)
| Raise (e : exn).
Arguments Ok {A} a.
Arguments Raise {A} e.

(** Sequencing: [x ← m; k] stops at the first exception.  A list
    comprehension whose element expression may raise is [mapM]: the
    elements are evaluated left to right. *)
Global Instance result_ret : MRet result := fun A a => Ok a.
Global Instance result_bind : MBind result := fun A B f m =>
  match m with
  | Ok a => f a
  | Raise e => Raise e
  end.

Inductive level : Type := INFO | ERROR | CRITICAL.

(** One call of [logger.<level>(format, *args)]. *)
Record log_record : Type := Log {
  log_level : level;
  log_format : string;
  log_args : list str
}.

(** One call of the logger with its arguments as they are passed,
    before they are formatted: a string, a list of strings or an
    integer. *)
Inductive log_arg : Type :=
| AStr (s : str)
| AList (l : list str)
| AInt (z : Z).

Record log_call : Type := LogCall {
  call_level : level;
  call_format : string;
  call_args : list log_arg
}.

(** The file system: path to content.  Opening a missing file raises. *)
Abbreviation filesystem := (gmap str str).

Definition open_rb (fs : filesystem) (path : str) : result str :=
  match fs !! path with
  | Some content => Ok content
  | None => Raise (IOError path)
  end.

(** [for line in open(path, 'rt')]: the lines of the translated text. *)
Definition open_rt (fs : filesystem) (path : str) : result (list str) :=
  content ← open_rb fs path; Ok (readlines (universal_newlines content)).

(** [fp.writelines(lines)] on a file opened with ['wt'] (on POSIX a
    newline is written as it is). *)
Definition writelines (lines : list str) : str := concat lines.

(** [[line + '\n' for line in lines if line is not None]]. *)
Definition lockfile_lines (lines : list (option str)) : list str :=
  omap (fun l => (fun line => line ++ [newline]) <$> l) lines.

(** [os.path.join(a, b)] of posixpath. *)
Definition os_path_join (a b : str) : str :=
  if startswith b (lit "/") then b
  else if (length a =? 0)%nat || endswith a (lit "/") then a ++ b
  else a ++ lit "/" ++ b.

(** [s.rfind(c)] for one character: the highest index, [None] for -1. *)
Fixpoint rfind (s : str) (c : ascii) : option nat :=
  match s with
  | [] => None
  | x :: s' =>
      match rfind s' c with
      | Some i => Some (S i)
      | None => if eqb x c then Some 0 else None
      end
  end.

(** [os.path.basename(p)] of posixpath: what follows the last slash. *)
Definition os_path_basename (p : str) : str :=
  drop (match rfind p "/" with None => 0 | Some sepIndex => S sepIndex end) p.

(** [os.path.splitext(p)] of posixpath: split at the last dot, unless it
    comes before the last slash or only dots precede it in the file
    name. *)
Definition os_path_splitext (p : str) : str * str :=
  match rfind p "." with
  | None => (p, [])
  | Some dotIndex =>
      let filenameIndex :=
        match rfind p "/" with None => 0 | Some sepIndex => S sepIndex end in
      if (filenameIndex <=? dotIndex)%nat &&
         existsb (fun c => negb (eqb c "."))
                 (take (dotIndex - filenameIndex) (drop filenameIndex p))
      then (take dotIndex p, drop dotIndex p)
      else (p, [])
  end.

(** An environment configuration as [discover] builds it:
    [{'name': ..., 'refs': ...}] with [refs] a set of names. *)
Record conf : Type := Conf {
  conf_name : str;
  conf_refs : gset str
}.

(** ** Reference graphs

    A graph is the dictionary from a name to the set of names it refers
    to. *)

Module graph.

Definition edge (G : gmap str (gset str)) (a b : str) : Prop :=
  b ∈ default ∅ (G !! a).

(** [b] is in the direct and transitive reference set of [a]. *)
Definition reachable (G : gmap str (gset str)) (a b : str) : Prop :=
  tc (edge G) a b.

Definition acyclic (G : gmap str (gset str)) : Prop :=
  forall a, ~ reachable G a a.

(** Every name referred to has an entry of its own. *)
Definition closed (G : gmap str (gset str)) : Prop :=
  map_Forall (fun _ refs => refs ⊆ dom G) G.

(** A certificate of acyclicity: every reference goes to a name of
    lower rank. *)
Definition ranked (G : gmap str (gset str)) (rank : str -> nat) : Prop :=
  map_Forall (fun a refs => set_Forall (fun b => (rank b < rank a)%nat) refs) G.

End graph.

(** ** pipcompilemulti.py *)

Module pipcompilemulti.

Definition DEFAULT_HEADER : str :=
  lstrip (lit "
#
# This file is autogenerated by pip-compile-multi
# To update, run:
#
#    pip-compile-multi
#
").

(** The [OPTIONS] dictionary. *)
Record Options : Type := {
  compatible_patterns : list str;
  base_dir : str;
  allow_post_envs : list str;
  in_ext : str;
  out_ext : str;
  header_file : option str
}.

Definition OPTIONS_initial : Options := {|
  compatible_patterns := [];
  base_dir := lit "requirements";
  allow_post_envs := [lit "test"; lit "local"];
  in_ext := lit "in";
  out_ext := lit "txt";
  header_file := None
|}.

(** *** merged_packages, recursive_refs *)

(** [{env['name']: set(env['refs']) for env in envs}]: a later entry
    with the same name replaces an earlier one. *)
Definition refs_by_name (envs : list conf) : gmap str (gset str) :=
  foldl (fun m env => <[conf_name env := conf_refs env]> m) ∅ envs.

Definition merged_packages (env_packages : gmap str (gset str))
    (names : list str) : result (gset str) :=
  ignored_sets ← mapM (fun name =>
      match env_packages !! name with
      | Some s => Ok s
      | None => Raise (KeyError name)
      end) names;
  Ok (⋃ ignored_sets).

(** [limit] is the number of nested calls the interpreter still allows
    ([sys.getrecursionlimit]); exceeding it raises [RecursionError]. *)
Fixpoint recursive_refs (limit : nat) (envs : list conf) (name : str)
  : result (gset str) :=
  match limit with
  | O => Raise RecursionError
  | S limit' =>
      match refs_by_name envs !! name with
      | None => Raise (KeyError name)
      | Some refs =>
          (indirect_refs ←
             (if decide (refs = ∅) then Ok ∅
              else (sets ← mapM (recursive_refs limit' envs) (elements refs);
                    Ok (⋃ sets)));
           Ok (refs ∪ indirect_refs))
      end
  end.

(** The order [recompile] relies on: no name is listed twice and every
    environment comes after the environments it refers to; [seen] holds
    the names met so far. *)
Fixpoint refs_first (seen : gset str) (env_confs : list conf) : bool :=
  match env_confs with
  | [] => true
  | c :: rest =>
      bool_decide (conf_name c ∉ seen) &&
      bool_decide (conf_refs c ⊆ seen) &&
      refs_first ({[ conf_name c ]} ∪ seen) rest
  end.

(** *** order_by_refs *)

Definition str_le (a b : str) : Prop := leb a b.

(** [sorted(d)] for a set of names. *)
Definition sorted (d : gset str) : list str := merge_sort str_le (elements d).

(** Modelled from the spec: [toposort_flatten] belongs to the third-party
    package toposort, which is not among the sources; the specification
    asks for a Kahn sort over the name-to-refs map.  This is that
    package's algorithm: self references are dropped, a name that is
    only referred to gets an empty entry, then the names without pending
    dependencies are emitted layer after layer, each layer sorted; a
    non-empty remainder without such names is a cycle. *)
Definition toposort_prepare (data : gmap str (gset str))
  : gmap str (gset str) :=
  let data := map_imap (fun k v => Some (v ∖ {[ k ]})) data in
  let extra_items_in_deps := ⋃ (snd <$> map_to_list data) ∖ dom data in
  data ∪ gset_to_gmap ∅ extra_items_in_deps.

(** Modelled from the spec: the names of toposort's current round,
    those whose set of dependencies is empty. *)
Definition toposort_ordered (data : gmap str (gset str)) : gset str :=
  dom (filter (fun kv => kv.2 = ∅) data).

(** Modelled from the spec: toposort's data for the next round, without
    the names just emitted. *)
Definition toposort_next (data : gmap str (gset str)) (ordered : gset str)
  : gmap str (gset str) :=
  (fun dep => dep ∖ ordered) <$> filter (fun kv => kv.1 ∉ ordered) data.

(** Modelled from the spec: the [while True] loop of toposort.  Every
    round removes a name, so [size data] rounds are enough; [fuel] is
    only there for the recursion. *)
Fixpoint toposort_loop (fuel : nat) (data : gmap str (gset str))
  : result (list (gset str)) :=
  let ordered := toposort_ordered data in
  if decide (ordered = ∅) then
    if decide (data = ∅) then Ok [] else Raise CircularDependencyError
  else
    match fuel with
    | O => Ok []
    | S fuel' =>
        rest ← toposort_loop fuel' (toposort_next data ordered);
        Ok (ordered :: rest)
    end.

(** [k] is in layer number [i]. *)
Definition in_layer (layers : list (gset str)) (i : nat) (k : str) : Prop :=
  exists L, layers !! i = Some L /\ k ∈ L.

(** Modelled from the spec: [toposort(data)] of the package toposort,
    the list of the layers it yields. *)
Definition toposort (data : gmap str (gset str)) : result (list (gset str)) :=
  if decide (data = ∅) then Ok []
  else let data := toposort_prepare data in toposort_loop (size data) data.

(** Modelled from the spec: [toposort_flatten(data)] of the package
    toposort, the layers sorted and joined. *)
Definition toposort_flatten (data : gmap str (gset str)) : result (list str) :=
  layers ← toposort data; Ok (concat (sorted <$> layers)).

Definition order_by_refs (envs : list conf) : result (list conf) :=
  let topology := refs_by_name envs in
  let by_name : gmap str conf :=
    foldl (fun m env => <[conf_name env := env]> m) ∅ envs in
  names ← toposort_flatten topology;
  mapM (fun name =>
          match by_name !! name with
          | Some env => Ok env
          | None => Raise (KeyError name)
          end) names.

(** *** Dependency *)

Definition COMMENT_JUSTIFICATION : nat := 26.

Definition RE_DEPENDENCY : regex :=
  Seq (Group "package" (Plus dot))
 (Seq (Lit (lit "=="))
 (Seq (Group "version" (Plus not_space))
 (Seq (Star space)
 (Seq (Opt (Group "comment" (Seq (Lit (lit "#")) (Star dot))))
      Dollar)))).

(** A [Dependency] with [valid = True]; [Dependency_init] returns [None]
    for [valid = False], where the other attributes do not exist. *)
Record Dependency : Type := {
  package : str;
  version : str;
  comment : str
}.

Definition Dependency_init (line : str) : option Dependency :=
  match match_ RE_DEPENDENCY line with
  | Some m =>
      Some {| package := default [] (group m "package");
              version := strip (default [] (group m "version"));
              comment := strip (default [] (group m "comment")) |}
  | None => None
  end.

(** [RE_EDITABLE_FLAG.sub('', line)]: [^-e ] matches at the start only. *)
Definition without_editable (line : str) : str :=
  if startswith line (lit "-e ") then drop 3 line else line.

Definition drop_post (self : Dependency) : Dependency :=
  match find (version self) (lit ".post") with
  | Some post_index =>
      {| package := package self;
         version := take post_index (version self);
         comment := comment self |}
  | None => self
  end.

(** [RE_REF]: the alternation stands first in the pattern, so trying the
    whole pattern with [-r] and, when that fails, with [--requirement]
    is the order in which Python backtracks.  [\s] and [\S] are
    [isspace] and its negation. *)
Definition non_whitespace (c : ascii) : bool := negb (isspace c).

Definition RE_REF_tail : regex :=
  Seq (Star isspace)
 (Seq (Group "path" (Plus non_whitespace))
 (Seq (Star dot)
      Dollar)).

Definition RE_REF_match (line : str) : option captures :=
  match match_ (Seq (Lit (lit "-r")) RE_REF_tail) line with
  | Some m => Some m
  | None => match_ (Seq (Lit (lit "--requirement")) RE_REF_tail) line
  end.

(** One round of the loop of [parse_references]: the reference a line
    adds, if any. *)
Definition parse_reference (line : str) : option str :=
  match RE_REF_match line with
  | Some matched =>
      let reference := default [] (group matched "path") in
      Some (os_path_splitext reference).1
  | None => None
  end.

Definition parse_references (fs : filesystem) (filename : str)
  : result (gset str) :=
  fp ← open_rt fs filename;
  Ok (foldl (fun references line =>
               match parse_reference line with
               | Some reference_base => {[ reference_base ]} ∪ references
               | None => references
               end) ∅ fp).

Definition extract_env_name (file_path : str) : str :=
  (os_path_splitext (os_path_basename file_path)).1.

(** A pin as the resolver writes it: a name on one line, a version
    without whitespace or equals sign, and a trimmed comment, if any,
    that starts with the comment marker and holds no [==]. *)
Definition plain (dep : Dependency) : bool :=
  negb (bool_decide (package dep = [])) &&
  forallb dot (package dep) &&
  negb (bool_decide (version dep = [])) &&
  forallb (fun c => negb (isspace c) && negb (eqb c "=")) (version dep) &&
  (bool_decide (comment dep = []) ||
   startswith (comment dep) ["#"] &&
   forallb dot (comment dep) &&
   bool_decide (find (comment dep) (lit "==") = None) &&
   bool_decide (strip (comment dep) = comment dep)).

Section Program.

(** [fnmatch.fnmatch(name, pattern)] and
    [hashlib.sha1(data).hexdigest()]. *)
Variable fnmatch : str -> str -> bool.
Variable sha1_hexdigest : str -> str.

(** [sys.version_info[0]]. *)
Variable sys_version_major : nat.

Variable OPTIONS : Options.

Definition is_compatible (self : Dependency) : bool :=
  existsb (fun pattern => fnmatch (lower (package self)) pattern)
          (compatible_patterns OPTIONS).

Definition serialize (self : Dependency) : str :=
  let equal := if is_compatible self then lit "~=" else lit "==" in
  let package_version :=
    without_editable (package self) ++ equal ++ version self ++ lit "  " in
  rstrip (ljust package_version COMMENT_JUSTIFICATION ++ comment self).

(** *** Environment *)

Record Environment : Type := {
  name : str;
  ignore : gset str;
  allow_post : bool;
  packages : gset str
}.

Definition IN_EXT : str := lit ".in".
Definition OUT_EXT : str := lit ".txt".
Definition PY3_IGNORE : gset str := {[ lit "future"; lit "futures" ]}.

Definition Environment_init (name : str) (ignore : option (gset str))
    (allow_post : bool) : Environment :=
  let ignore := default ∅ ignore in
  {| name := name;
     ignore := if (3 <=? sys_version_major)%nat then ignore ∪ PY3_IGNORE
               else ignore;
     allow_post := allow_post;
     packages := ∅ |}.

Definition infile (self : Environment) : str :=
  os_path_join (base_dir OPTIONS) (name self ++ IN_EXT).

Definition outfile (self : Environment) : str :=
  os_path_join (base_dir OPTIONS) (name self ++ OUT_EXT).

Definition set_packages (self : Environment) (p : gset str) : Environment :=
  {| name := name self; ignore := ignore self;
     allow_post := allow_post self; packages := p |}.

(** Returns the fixed line ([None] for Python's [None]) and the
    environment with its [packages] updated. *)
Definition fix_pin (self : Environment) (line : str)
  : option str * Environment :=
  match Dependency_init line with
  | Some dep =>
      if decide (package dep ∈ ignore self) then (None, self)
      else
        let self' := set_packages self ({[ package dep ]} ∪ packages self) in
        let dep' := if negb (allow_post self) || is_compatible dep
                    then drop_post dep else dep in
        (Some (serialize dep'), self')
  | None => (Some (strip line), self)
  end.

(** [[self.fix_pin(line) for line in fp]]. *)
Fixpoint fix_pins (self : Environment) (lines : list str)
  : list (option str) * Environment :=
  match lines with
  | [] => ([], self)
  | line :: rest =>
      let '(fixed, self1) := fix_pin self line in
      let '(fixeds, self2) := fix_pins self1 rest in
      (fixed :: fixeds, self2)
  end.

(** What a run of [fix_pins] leaves behind: the lines to write and the
    environment. *)
Definition observable (r : list (option str) * Environment)
  : list str * Environment :=
  (lockfile_lines r.1, r.2).

Definition fix_lockfile (self : Environment) (fs : filesystem)
  : result (filesystem * Environment) :=
  fp ← open_rt fs (outfile self);
  let '(lines, self') := fix_pins self fp in
  Ok (<[outfile self := writelines (lockfile_lines lines)]> fs, self').

(** [split_header(fp)]: [fp] is given by the lines it iterates over. *)
Fixpoint split_header_loop (fp : list str) (body_start : nat)
    (header_ended : bool) : nat :=
  match fp with
  | [] => body_start
  | line :: fp' =>
      if startswith line (lit "#") && negb header_ended
      then split_header_loop fp' (S body_start) header_ended
      else split_header_loop fp' body_start true
  end.

Definition split_header (fp : list str) : list str * list str :=
  let body_start := split_header_loop fp 0 false in
  (take body_start fp, drop body_start fp).

Definition replace_header (self : Environment) (header_text : str)
    (fs : filesystem) : result filesystem :=
  fp ← open_rt fs (outfile self);
  let '(_, body) := split_header fp in
  Ok (<[outfile self := header_text ++ writelines body]> fs).

(** The lines [add_references] writes between header and body. *)
Definition reference_lines (other_names : gset str) : list str :=
  (fun other_name => lit "-r " ++ (other_name ++ OUT_EXT) ++ [newline])
    <$> sorted other_names.

Definition add_references (self : Environment) (other_names : gset str)
    (fs : filesystem) : result filesystem :=
  if decide (other_names = ∅) then Ok fs
  else
    fp ← open_rt fs (outfile self);
    let '(header, body) := split_header fp in
    Ok (<[outfile self :=
            writelines header ++ writelines (reference_lines other_names) ++
            writelines body]> fs).

Definition is_header_line (line : str) : bool := startswith line ["#"].

(** A body starts at a line that is not a comment, or is empty. *)
Definition body_starts (body : list str) : Prop :=
  match body with
  | [] => True
  | line :: _ => is_header_line line = false
  end.

(** *** verify *)

(** [bytes.strip()]: ASCII whitespace only. *)
Definition isspace_bytes (c : ascii) : bool :=
  match nat_of_ascii c with
  | 9 | 10 | 11 | 12 | 13 | 32 => true
  | _ => false
  end.

Fixpoint lstrip_bytes (s : str) : str :=
  match s with
  | c :: s' => if isspace_bytes c then lstrip_bytes s' else s
  | [] => []
  end.

Definition strip_bytes (s : str) : str :=
  rev (lstrip_bytes (rev (lstrip_bytes s))).

Definition generate_hash_comment (fs : filesystem) (file_path : str)
  : result str :=
  content ← open_rb fs file_path;
  Ok (lit "# SHA1:" ++ sha1_hexdigest (strip_bytes content) ++ [newline]).

(** The first line that starts with ["# SHA1:"], Python's [None] if
    there is none. *)
Definition parse_hash_comment (fs : filesystem) (file_path : str)
  : result (option str) :=
  fp ← open_rt fs file_path;
  Ok (List.find (fun line => startswith line (lit "# SHA1:")) fp).

(** How the command ends: it returns, [ctx.exit(code)] is called, or an
    exception escapes. *)
Inductive outcome : Type :=
| Returned
| Exit (code : nat)
| Raised (e : exn).

(** One round of the [for conf in env_confs] loop: the records logged,
    and the new value of [success] unless the round raises. *)
Definition verify_step (fs : filesystem) (c : conf) (success : bool)
  : list log_record * result bool :=
  let env := Environment_init (conf_name c) None false in
  let log0 := [Log INFO "Verifying that %s was generated from %s."
                   [outfile env; infile env]] in
  match generate_hash_comment fs (infile env) with
  | Raise e => (log0, Raise e)
  | Ok current_comment =>
      match parse_hash_comment fs (outfile env) with
      | Raise e => (log0, Raise e)
      | Ok existing_comment =>
          if decide (Some current_comment = existing_comment) then
            (log0 ++ [Log INFO "Success - comments match." []], Ok success)
          else
            let log1 := log0 ++ [Log ERROR "FAILURE!" [];
                                 Log ERROR "Expecting: %s"
                                     [strip current_comment]] in
            match existing_comment with
            | None =>
                (log1, Raise (AttributeError
                   "'NoneType' object has no attribute 'strip'"))
            | Some existing =>
                (log1 ++ [Log ERROR "Found:     %s" [strip existing]],
                 Ok false)
            end
      end
  end.

Fixpoint verify_loop (fs : filesystem) (env_confs : list conf)
    (success : bool) : list log_record * result bool :=
  match env_confs with
  | [] => ([], Ok success)
  | c :: rest =>
      match verify_step fs c success with
      | (log, Raise e) => (log, Raise e)
      | (log, Ok success') =>
          let '(log', r) := verify_loop fs rest success' in
          (log ++ log', r)
      end
  end.

(** The fingerprint recorded in the output file of [c] is that of its
    input file. *)
Definition up_to_date (fs : filesystem) (c : conf) : bool :=
  let env := Environment_init (conf_name c) None false in
  match generate_hash_comment fs (infile env),
        parse_hash_comment fs (outfile env) with
  | Ok current_comment, Ok (Some existing_comment) =>
      bool_decide (current_comment = existing_comment)
  | _, _ => false
  end.

(** The files of [c] can be read and the output file has a fingerprint
    line. *)
Definition checkable (fs : filesystem) (c : conf) : Prop :=
  let env := Environment_init (conf_name c) None false in
  exists current existing,
    generate_hash_comment fs (infile env) = Ok current /\
    parse_hash_comment fs (outfile env) = Ok (Some existing).

(** The record that opens the check of [c]. *)
Definition verifying (c : conf) : log_record :=
  let env := Environment_init (conf_name c) None false in
  Log INFO "Verifying that %s was generated from %s."
      [outfile env; infile env].

(** [env_confs] is what [discover] returned. *)
Definition verify (fs : filesystem) (env_confs : list conf)
  : list log_record * outcome :=
  match verify_loop fs env_confs true with
  | (log, Raise e) => (log, Raised e)
  | (log, Ok success) => (log, if success then Returned else Exit 1)
  end.

(** *** recompile *)

(** [subprocess.Popen(command).communicate()] for the [pip-compile]
    command: the return code, the decoded output and error streams, and
    the file system the process leaves behind. *)
Variable pip_compile : list str -> filesystem -> Z * str * str * filesystem.

Definition pin_command (self : Environment) : list str :=
  [ lit "pip-compile"; lit "--verbose"; lit "--rebuild"; lit "--upgrade";
    lit "--no-index"; lit "--output-file"; outfile self; infile self ].

Definition create_lockfile (self : Environment) (fs : filesystem)
  : list log_call * result (filesystem * Environment) :=
  let '(returncode, stdout, stderr, fs1) :=
    pip_compile (pin_command self) fs in
  if (returncode =? 0)%Z then ([], fix_lockfile self fs1)
  else
    ([ LogCall CRITICAL "ERROR executing %s"
               [AStr (join (lit " ") (pin_command self))];
       LogCall CRITICAL "Exit code: %s" [AInt returncode];
       LogCall CRITICAL (string_of_list_ascii stdout) [];
       LogCall CRITICAL (string_of_list_ascii stderr) [] ],
     Raise (RuntimeError ("Failed to pip-compile " ++
                          string_of_list_ascii (infile self)))).

(** One round of the [for conf in env_confs] loop of [recompile]; the
    state is the dictionary [pinned_packages] and the file system. *)
Definition recompile_step (limit : nat) (env_confs : list conf)
    (base_header_text : str) (c : conf)
    (pinned_packages : gmap str (gset str)) (fs : filesystem)
  : list log_call * result (gmap str (gset str) * filesystem) :=
  match recursive_refs limit env_confs (conf_name c) with
  | Raise e => ([], Raise e)
  | Ok rrefs =>
      match merged_packages pinned_packages (elements rrefs) with
      | Raise e => ([], Raise e)
      | Ok ignored =>
          let env := Environment_init (conf_name c) (Some ignored)
                       (bool_decide (conf_name c ∈ allow_post_envs OPTIONS)) in
          let log0 := [ LogCall INFO "Locking %s to %s. References: %r"
                          [AStr (infile env); AStr (outfile env);
                           AList (sorted rrefs)] ] in
          match create_lockfile env fs with
          | (log1, Raise e) => (log0 ++ log1, Raise e)
          | (log1, Ok (fs1, env1)) =>
              (log0 ++ log1,
               hash_comment ← generate_hash_comment fs1 (infile env1);
               fs2 ← replace_header env1 (hash_comment ++ base_header_text)
                                    fs1;
               fs3 ← add_references env1 (conf_refs c) fs2;
               Ok (<[conf_name c := packages env1]> pinned_packages, fs3))
          end
      end
  end.

(** The loop over [todo], a suffix of [env_confs]. *)
Fixpoint recompile_loop (limit : nat) (env_confs : list conf)
    (base_header_text : str) (todo : list conf)
    (pinned_packages : gmap str (gset str)) (fs : filesystem)
  : list log_call * result (gmap str (gset str) * filesystem) :=
  match todo with
  | [] => ([], Ok (pinned_packages, fs))
  | c :: rest =>
      match recompile_step limit env_confs base_header_text c
                           pinned_packages fs with
      | (log, Raise e) => (log, Raise e)
      | (log, Ok (pinned_packages', fs')) =>
          let '(log', r) := recompile_loop limit env_confs base_header_text
                              rest pinned_packages' fs' in
          (log ++ log', r)
      end
  end.

(** [env_confs] is what [discover] returned; [limit] is the recursion
    limit left to [recursive_refs].  The result is the file system
    [recompile] leaves behind. *)
Definition recompile (limit : nat) (fs : filesystem) (env_confs : list conf)
  : list log_call * result filesystem :=
  match (match header_file OPTIONS with
         | Some (c :: path) =>
             content ← open_rb fs (c :: path);
             Ok (universal_newlines content)
         | _ => Ok DEFAULT_HEADER
         end) with
  | Raise e => ([], Raise e)
  | Ok base_header_text =>
      match recompile_loop limit env_confs base_header_text env_confs ∅ fs with
      | (log, Raise e) => (log, Raise e)
      | (log, Ok (_, fs')) => (log, Ok fs')
      end
  end.

End Program.

End pipcompilemulti.

(** ** pipcompilemulti/environment.py *)

Module environment.

Section Environment.

(** [.dependency.Dependency] is not among the sources: the class is a
    parameter, through its constructor and the attributes and methods
    the environment uses.  [drop_post] and [serialize] return the object
    after the call and the rendered line. *)
Variable Dep : Type.
Variable Dependency : str -> Dep.
Variable valid : Dep -> bool.
Variable package : Dep -> str.
Variable version : Dep -> str.
Variable drop_post : Dep -> str -> Dep.
Variable serialize : Dep -> str.

(** [.deduplicate.PackageDeduplicator], likewise. *)
Variable PackageDeduplicator : Type.
Variable PackageDeduplicator_init : PackageDeduplicator.
Variable ignored_packages :
  PackageDeduplicator -> str -> gmap str (option str).
Variable register_packages_for_env :
  PackageDeduplicator -> str -> gmap str str -> PackageDeduplicator.

(** [FEATURES.compose_output_file_path]. *)
Variable compose_output_file_path : str -> str.

(** [ignore] maps a package to the version an ancestor recorded, or to
    Python's [None]. *)
Record Environment : Type := {
  in_path : str;
  _dedup : PackageDeduplicator;
  ignore : gmap str (option str);
  packages : gmap str str;
  _outfile_pkg_names : option (gset str)
}.

Definition Environment_init (in_path : str)
    (deduplicator : option PackageDeduplicator) : Environment :=
  let dedup := default PackageDeduplicator_init deduplicator in
  {| in_path := in_path;
     _dedup := dedup;
     ignore := ignored_packages dedup in_path;
     packages := ∅;
     _outfile_pkg_names := None |}.

Definition infile (self : Environment) : str := in_path self.

Definition outfile (self : Environment) : str :=
  compose_output_file_path (in_path self).

Definition set_packages (self : Environment) (p : gmap str str)
  : Environment :=
  {| in_path := in_path self; _dedup := _dedup self; ignore := ignore self;
     packages := p; _outfile_pkg_names := _outfile_pkg_names self |}.

Definition set_dedup (self : Environment) (d : PackageDeduplicator)
  : Environment :=
  {| in_path := in_path self; _dedup := d; ignore := ignore self;
     packages := packages self;
     _outfile_pkg_names := _outfile_pkg_names self |}.

(** The generator [concatenated(fp)]: the lines it yields, and the
    exception it raises after the last of them, if any. *)
Fixpoint concatenated_loop (fp : list str) (line_parts : list str)
  : list str * option exn :=
  match fp with
  | [] =>
      ([], match line_parts with
           | [] => None
           | _ => Some (RuntimeError "Compiled file ends with backslash \")
           end)
  | line :: fp' =>
      let line := strip line in
      if endswith line (lit "\") then
        concatenated_loop fp' (line_parts ++ [rstrip (removelast line)])
      else
        let '(yielded, e) := concatenated_loop fp' [] in
        (join (lit " ") (line_parts ++ [line]) :: yielded, e)
  end.

Definition concatenated (fp : list str) : list str * option exn :=
  concatenated_loop fp [].

(** The records logged, then the fixed line ([None] for Python's [None])
    with the updated environment, or the exception raised. *)
Definition fix_pin (self : Environment) (line : str)
  : list log_record * result (option str * Environment) :=
  let dep := Dependency line in
  if valid dep then
    match ignore self !! package dep with
    | Some ignored_version =>
        match ignored_version with
        | Some ignored =>
            if bool_decide (version dep ≠ []) &&
               bool_decide (version dep ≠ ignored)
            then
              ([Log ERROR ("Package %s was resolved to different " +:+
                           "versions in different environments: %s and %s")
                    [package dep; version dep; ignored]],
               Raise (RuntimeError ("Please add constraints for the package " +:+
                                    "version listed above")))
            else ([], Ok (None, self))
        | None => ([], Ok (None, self))
        end
    | None =>
        let self' :=
          set_packages self (<[package dep := version dep]> (packages self)) in
        let dep' := drop_post dep (in_path self) in
        ([], Ok (Some (serialize dep'), self'))
    end
  else ([], Ok (Some (strip line), self)).

(** [[self.fix_pin(line) for line in ...]]. *)
Fixpoint fix_pins (self : Environment) (lines : list str)
  : list log_record * result (list (option str) * Environment) :=
  match lines with
  | [] => ([], Ok ([], self))
  | line :: rest =>
      match fix_pin self line with
      | (log, Raise e) => (log, Raise e)
      | (log, Ok (fixed, self1)) =>
          match fix_pins self1 rest with
          | (log', Raise e) => (log ++ log', Raise e)
          | (log', Ok (fixeds, self2)) =>
              (log ++ log', Ok (fixed :: fixeds, self2))
          end
      end
  end.

Definition fix_lockfile (self : Environment) (fs : filesystem)
  : list log_record * result (filesystem * Environment) :=
  match open_rt fs (outfile self) with
  | Raise e => ([], Raise e)
  | Ok fp =>
      let '(yielded, at_end) := concatenated fp in
      match fix_pins self yielded with
      | (log, Raise e) => (log, Raise e)
      | (log, Ok (lines, self')) =>
          match at_end with
          | Some e => (log, Raise e)
          | None =>
              let written := writelines (lockfile_lines lines) in
              let dedup :=
                register_packages_for_env (_dedup self') (in_path self')
                                          (packages self') in
              (log, Ok (<[outfile self := written]> fs, set_dedup self' dedup))
          end
      end
  end.

(** What a run of [fix_pins] leaves behind: the log, and either the
    exception or the lines to write with the environment. *)
Definition observable
    (r : list log_record * result (list (option str) * Environment))
  : list log_record * result (list str * Environment) :=
  (r.1, match r.2 with
        | Ok (lines, self) => Ok (lockfile_lines lines, self)
        | Raise e => Raise e
        end).

(** [split_header] and [replace_header] are those of the single-file
    release, line for line. *)
Definition split_header (fp : list str) : list str * list str :=
  pipcompilemulti.split_header fp.

Definition replace_header (self : Environment) (header_text : str)
    (fs : filesystem) : result filesystem :=
  fp ← open_rt fs (outfile self);
  let '(_, body) := split_header fp in
  Ok (<[outfile self := header_text ++ writelines body]> fs).

(** [parse_references] keeps the matched path as it is; [RE_REF] is
    that of the single-file release. *)
Definition parse_references (fs : filesystem) (filename : str)
  : result (gset str) :=
  fp ← open_rt fs filename;
  Ok (foldl (fun references line =>
               match pipcompilemulti.RE_REF_match line with
               | Some matched =>
                   {[ default [] (group matched "path") ]} ∪ references
               | None => references
               end) ∅ fp).

Definition add_references (self : Environment) (other_in_paths : gset str)
    (fs : filesystem) : result filesystem :=
  if decide (other_in_paths = ∅) then Ok fs
  else
    fp ← open_rt fs (outfile self);
    let '(header, body) := split_header fp in
    Ok (<[outfile self :=
            writelines header ++
            writelines ((fun other_in_path =>
                           lit "-r " ++ compose_output_file_path other_in_path
                                     ++ [newline])
                          <$> pipcompilemulti.sorted other_in_paths) ++
            writelines body]> fs).

End Environment.

End environment.

(** ** An instance of the parameters

    For closed examples: a glob matcher that agrees with [fnmatch] on
    patterns without brackets, and the [Dependency] class of the
    single-file release standing for the one the package layout
    imports. *)

Module instance.

Fixpoint fnmatch (name pat : str) {struct pat} : bool :=
  match pat with
  | [] => match name with [] => true | _ => false end
  | c :: pat' =>
      if eqb c "*" then
        (fix any (n : str) : bool :=
           fnmatch n pat' ||
           match n with [] => false | _ :: n' => any n' end) name
      else
        match name with
        | [] => false
        | d :: name' => (eqb c "?" || eqb c d) && fnmatch name' pat'
        end
  end.

Definition Dep : Type := option pipcompilemulti.Dependency.

Definition Dependency (line : str) : Dep :=
  pipcompilemulti.Dependency_init line.

Definition valid (d : Dep) : bool := bool_decide (is_Some d).

Definition package (d : Dep) : str :=
  default [] (pipcompilemulti.package <$> d).

Definition version (d : Dep) : str :=
  default [] (pipcompilemulti.version <$> d).

Definition drop_post (d : Dep) (in_path : str) : Dep :=
  pipcompilemulti.drop_post <$> d.

Definition serialize (d : Dep) : str :=
  default [] (pipcompilemulti.serialize fnmatch
                pipcompilemulti.OPTIONS_initial <$> d).

Definition compose_output_file_path (in_path : str) : str :=
  match find in_path (lit ".in") with
  | Some i => take i in_path ++ lit ".txt"
  | None => in_path ++ lit ".txt"
  end.

(** A descendant of an environment that recorded [pkgA] at 1.0.0. *)
Definition descendant : environment.Environment unit := {|
  environment.in_path := lit "requirements/test.in";
  environment._dedup := tt;
  environment.ignore := {[ lit "pkgA" := Some (lit "1.0.0") ]};
  environment.packages := ∅;
  environment._outfile_pkg_names := None
|}.

Definition fix_pin :=
  environment.fix_pin Dep Dependency valid package version drop_post
                      serialize unit.

(** Options that declare the packages [myapp*] internal. *)
Definition OPTIONS_internal : pipcompilemulti.Options := {|
  pipcompilemulti.compatible_patterns := [lit "myapp*"];
  pipcompilemulti.base_dir := lit "requirements";
  pipcompilemulti.allow_post_envs := [lit "test"; lit "local"];
  pipcompilemulti.in_ext := lit "in";
  pipcompilemulti.out_ext := lit "txt";
  pipcompilemulti.header_file := None
|}.

(** The environment [base] of the single-file release, under Python 3
    and with the initial options. *)
Definition base : pipcompilemulti.Environment :=
  pipcompilemulti.Environment_init 3 (lit "base") None false.

(** The environments of the doctest of [recursive_refs], with a rank
    that shows them acyclic, and two environments that refer to each
    other. *)
Definition chain : list conf :=
  [ Conf (lit "base") ∅;
    Conf (lit "test") {[ lit "base" ]};
    Conf (lit "local") {[ lit "test" ]} ].

Definition chain_rank (name : str) : nat :=
  if decide (name = lit "base") then 0
  else if decide (name = lit "test") then 1
  else 2.

(** A directory in which [base.txt] was written without a fingerprint
    line. *)
Definition unmarked : filesystem :=
  {[ lit "requirements/base.in" := lit "flask" ++ [newline];
     lit "requirements/base.txt" := lit "flask==1.0" ++ [newline];
     lit "requirements/test.in" :=
       lit "-r base.in" ++ [newline] ++ lit "pytest" ++ [newline];
     lit "requirements/test.txt" :=
       lit "# SHA1:0000" ++ [newline] ++ lit "-r base.txt" ++ [newline] ++
       lit "pytest==3.0" ++ [newline] ]}.

Definition base_and_test : list conf :=
  [ Conf (lit "base") ∅; Conf (lit "test") {[ lit "base" ]} ].

Definition loop : list conf :=
  [ Conf (lit "dev") {[ lit "test" ]};
    Conf (lit "test") {[ lit "dev" ]} ].

(** A stand-in for SHA-1: one hexadecimal digit for each byte. *)
Definition sha1_hexdigest (data : str) : str :=
  (fun c => nth (nat_of_ascii c mod 16) (lit "0123456789abcdef") "0")
    <$> data.

(** A stand-in for [pip-compile] that knows the two input files of
    [base_and_test]: it writes the pins of the input file and of the
    files it refers to, under a header of its own, and fails on any
    other input. *)
Definition pip_compile (command : list str) (fs : filesystem)
  : Z * str * str * filesystem :=
  let header := lit "#" ++ [newline] ++
                lit "# This file is autogenerated by pip-compile" ++
                [newline] ++ lit "#" ++ [newline] in
  match command !! 6%nat, command !! 7%nat with
  | Some output_file, Some input_file =>
      if bool_decide (input_file = lit "requirements/base.in") then
        (0%Z, [], [],
         <[output_file := header ++ lit "flask==1.0" ++ [newline] ++
                          lit "jinja2==2.10.post1    # via flask" ++
                          [newline]]> fs)
      else if bool_decide (input_file = lit "requirements/test.in") then
        (0%Z, [], [],
         <[output_file := header ++ lit "flask==1.0" ++ [newline] ++
                          lit "jinja2==2.10.post1    # via flask" ++
                          [newline] ++ lit "pytest==3.0" ++ [newline]]> fs)
      else (2%Z, [], lit "no such file", fs)
  | _, _ => (2%Z, [], lit "usage", fs)
  end.

(** A directory with the two input files and nothing else. *)
Definition inputs : filesystem :=
  {[ lit "requirements/base.in" := lit "flask" ++ [newline];
     lit "requirements/test.in" :=
       lit "-r base.in" ++ [newline] ++ lit "pytest" ++ [newline] ]}.

End instance.

(** * Properties *)

(** ** Strings and lines *)

Module Str_facts.

Lemma eqb_eq (a b : ascii) : eqb a b = true <-> a = b.
Proof. apply Ascii.eqb_eq. Qed.

Lemma eqb_neq (a b : ascii) : eqb a b = false <-> a <> b.
Proof. apply Ascii.eqb_neq. Qed.

Lemma eqb_refl (a : ascii) : eqb a a = true.
Proof. by apply eqb_eq. Qed.

Lemma startswith_app (p s : str) : startswith (p ++ s) p = true.
Proof. induction p as [|a p IH]; simpl; [done|]. by rewrite eqb_refl, IH. Qed.

Lemma startswith_prefix (s p : str) :
  startswith s p = true <-> exists t, s = p ++ t.
Proof.
  revert s. induction p as [|a p IH]; intros s; simpl.
  - split; eauto.
  - destruct s as [|b s]; simpl.
    + split; [done|]. by intros [t ?].
    + rewrite andb_true_iff, eqb_eq, IH. split.
      * intros [-> [t ->]]. eauto.
      * intros [t [= -> ->]]. eauto.
Qed.

Lemma endswith_suffix (s p : str) :
  endswith s p = true <-> exists t, s = t ++ p.
Proof.
  unfold endswith. rewrite startswith_prefix. split.
  - intros [t H]. exists (rev t).
    rewrite <- (rev_involutive s), H, rev_app_distr.
    by rewrite rev_involutive.
  - intros [t ->]. exists (rev t). by rewrite rev_app_distr.
Qed.

(** *** Trimming *)

Lemma lstrip_clean c s : isspace c = false -> lstrip (c :: s) = c :: s.
Proof. intros H. simpl. by rewrite H. Qed.

Lemma lstrip_spaces n s : lstrip (repeat " " n ++ s) = lstrip s.
Proof. induction n as [|n IH]; [done|]. simpl. apply IH. Qed.

Lemma rstrip_spaces n s : rstrip (s ++ repeat " " n) = rstrip s.
Proof.
  unfold rstrip. rewrite rev_app_distr, rev_repeat. by rewrite lstrip_spaces.
Qed.

Lemma rstrip_clean s c : isspace c = false -> rstrip (s ++ [c]) = s ++ [c].
Proof.
  intros H. unfold rstrip. rewrite rev_app_distr. simpl. rewrite H.
  simpl. by rewrite rev_involutive.
Qed.

(** A trimmed text that is not empty ends with a character that is not
    whitespace. *)
Lemma rstrip_fixed s :
  rstrip s = s -> s <> [] -> exists s' c, s = s' ++ [c] /\ isspace c = false.
Proof.
  intros Hs Hne. destruct (rev s) as [|c r] eqn:E.
  { apply (f_equal (@rev _)) in E. rewrite rev_involutive in E. done. }
  exists (rev r), c. split.
  { apply (f_equal (@rev _)) in E. by rewrite rev_involutive in E. }
  destruct (isspace c) eqn:Hc; [|done]. exfalso.
  unfold rstrip in Hs. rewrite E in Hs. simpl in Hs. rewrite Hc in Hs.
  apply (f_equal (@length _)) in Hs.
  assert (forall t, length (lstrip t) <= length t) as Hlen.
  { induction t as [|x t IH]; simpl; [done|]. destruct (isspace x); simpl; lia. }
  rewrite length_rev in Hs. specialize (Hlen r).
  apply (f_equal (@length _)) in E. rewrite length_rev in E. simpl in E. lia.
Qed.

(** *** Searching for a substring *)

Lemma find_None_suffix s sub t1 t2 :
  find s sub = None -> s = t1 ++ t2 -> startswith t2 sub = false.
Proof.
  revert s. induction t1 as [|c t1 IH]; intros s Hfind ->; simpl in *.
  - destruct t2; simpl in *; destruct (startswith _ sub); done.
  - destruct (startswith (c :: t1 ++ t2) sub); [done|].
    destruct (find (t1 ++ t2) sub) eqn:E; [done|]. by eapply IH.
Qed.

Lemma find_None_cons c s sub :
  startswith (c :: s) sub = false -> find s sub = None ->
  find (c :: s) sub = None.
Proof. intros H1 H2. simpl. by rewrite H1, H2. Qed.

(** *** Lines *)

Lemma lines_from_terminated cur l t :
  newline ∉ l ->
  lines_from cur (l ++ newline :: t) =
  (rev cur ++ l ++ [newline]) :: lines_from [] t.
Proof.
  revert cur. induction l as [|c l IH]; intros cur Hnl; simpl.
  - by rewrite ?eqb_refl.
  - apply not_elem_of_cons in Hnl as [Hc Hl].
    rewrite (proj2 (eqb_neq c newline)) by done.
    rewrite IH by done. simpl. by rewrite <- app_assoc.
Qed.

Lemma lines_from_unterminated cur l :
  newline ∉ l -> cur ++ l <> [] ->
  lines_from cur l = [rev cur ++ l].
Proof.
  revert cur. induction l as [|c l IH]; intros cur Hnl Hne; simpl.
  - rewrite app_nil_r in *. by destruct cur.
  - apply not_elem_of_cons in Hnl as [Hc Hl].
    rewrite (proj2 (eqb_neq c newline)) by done.
    rewrite IH; [|done|by destruct cur]. simpl. by rewrite <- app_assoc.
Qed.

Lemma readlines_terminated l t :
  newline ∉ l -> readlines (l ++ newline :: t) = (l ++ [newline]) :: readlines t.
Proof. apply lines_from_terminated. Qed.

(** Every text is a run of terminated lines, then a rest without
    newline. *)
Lemma text_lines (s : str) :
  exists ls rest, s = concat ls ++ rest /\ Forall terminated ls /\
                  newline ∉ rest.
Proof.
  induction s as [|c s (ls & rest & -> & Hls & Hrest)].
  - exists [], []. split; [done|]. split; [constructor|]. by apply not_elem_of_nil.
  - destruct (decide (c = newline)) as [->|Hc].
    + exists ([newline] :: ls), rest. split; [done|]. split; [|done].
      constructor; [|done]. exists []. split; [done|]. by apply not_elem_of_nil.
    + destruct Hls as [|l ls (body & -> & Hbody) Hls].
      * exists [], (c :: rest). split; [done|]. split; [constructor|].
        by apply not_elem_of_cons.
      * exists ((c :: body ++ [newline]) :: ls), rest. split; [done|].
        split; [|done]. constructor; [|done].
        exists (c :: body). split; [done|]. by apply not_elem_of_cons.
Qed.

Lemma readlines_concat_app ls t :
  Forall terminated ls -> readlines (concat ls ++ t) = ls ++ readlines t.
Proof.
  induction 1 as [|l ls (body & -> & Hbody) Hls IH]; [done|].
  simpl. rewrite <- !app_assoc. simpl.
  rewrite readlines_terminated by done. by rewrite IH.
Qed.

Lemma readlines_rest rest :
  newline ∉ rest ->
  readlines rest = match rest with [] => [] | _ => [rest] end.
Proof.
  intros H. destruct rest as [|c rest]; [done|].
  unfold readlines. by rewrite lines_from_unterminated.
Qed.

Lemma concat_readlines s : concat (readlines s) = s.
Proof.
  destruct (text_lines s) as (ls & rest & -> & Hls & Hrest).
  rewrite readlines_concat_app, readlines_rest, concat_app by done.
  f_equal. destruct rest; simpl; by rewrite ?app_nil_r.
Qed.

Lemma lines_ok_app ls rest :
  Forall terminated ls -> newline ∉ rest ->
  lines_ok (ls ++ match rest with [] => [] | _ => [rest] end).
Proof.
  intros Hls Hrest. induction Hls as [|l ls Hl Hls IH]; simpl.
  - destruct rest; simpl; [done|]. by right.
  - destruct (ls ++ _) eqn:E; [by left|by split].
Qed.

Lemma readlines_ok s : lines_ok (readlines s).
Proof.
  destruct (text_lines s) as (ls & rest & -> & Hls & Hrest).
  rewrite readlines_concat_app, readlines_rest by done.
  by apply lines_ok_app.
Qed.

Lemma lines_ok_tail l ls : lines_ok (l :: ls) -> lines_ok ls.
Proof. destruct ls; [done|]. by intros [_ ?]. Qed.

Lemma lines_ok_drop n ls : lines_ok ls -> lines_ok (drop n ls).
Proof.
  revert ls. induction n as [|n IH]; intros ls H; [done|].
  destruct ls as [|l ls]; [done|]. simpl. eauto using lines_ok_tail.
Qed.

Lemma readlines_concat ls : lines_ok ls -> readlines (concat ls) = ls.
Proof.
  induction ls as [|l ls IH]; [done|]. intros H.
  destruct ls as [|l' ls].
  - simpl. rewrite app_nil_r. destruct H as [(body & -> & Hbody)|[Hne Hnl]].
    + by rewrite readlines_terminated.
    + rewrite readlines_rest by done. by destruct l.
  - destruct H as [(body & -> & Hbody) Hls].
    rewrite concat_cons, <- app_assoc. cbn [app].
    rewrite readlines_terminated by done. by rewrite IH.
Qed.

Lemma terminated_endswith l :
  lines_ok [l] -> endswith l [newline] = true -> terminated l.
Proof.
  intros [H|[Hne Hnl]] He; [done|].
  apply endswith_suffix in He as [t ->].
  exfalso. apply Hnl. set_solver.
Qed.

Lemma Forall_terminated ls :
  lines_ok ls -> forallb (fun l => endswith l [newline]) ls = true ->
  Forall terminated ls.
Proof.
  induction ls as [|l ls IH]; [constructor|]. intros Hok H.
  simpl in H. apply andb_true_iff in H as [Hl H].
  destruct ls as [|l' ls].
  - constructor; [|constructor]. by apply terminated_endswith.
  - destruct Hok as [Ht Hok]. constructor; [done|]. by apply IH.
Qed.

(** *** Universal newlines *)

Lemma universal_newlines_id s : cr ∉ s -> universal_newlines s = s.
Proof.
  induction s as [|c s IH]; [done|]. intros H.
  apply not_elem_of_cons in H as [Hc Hs]. simpl.
  rewrite (proj2 (eqb_neq c cr)) by done. by rewrite IH.
Qed.

Lemma universal_newlines_no_cr s : cr ∉ universal_newlines s.
Proof.
  assert (forall n s, (length s <= n)%nat -> cr ∉ universal_newlines s) as H;
    [|by apply (H (length s))].
  clear s. induction n as [|n IH]; intros s Hlen.
  - destruct s; [|simpl in Hlen; lia]. by apply not_elem_of_nil.
  - destruct s as [|c s]; [by apply not_elem_of_nil|].
    cbn [universal_newlines length] in *. destruct (eqb c cr) eqn:Ec.
    + destruct s as [|d s]; cbn [length] in *.
      * apply not_elem_of_cons. split; [done|]. by apply not_elem_of_nil.
      * destruct (eqb d newline);
          (apply not_elem_of_cons; split; [done|]);
          apply IH; cbn [length]; lia.
    + apply eqb_neq in Ec. apply not_elem_of_cons. split; [done|].
      apply IH. lia.
Qed.

End Str_facts.

(** ** Greedy repetition *)

Module Re_facts.

Import Str_facts.

(** A repetition fails when what follows fails at every split. *)
Lemma star_none {A} p t (k : str -> str -> option A) :
  (forall t1 t2, t = t1 ++ t2 -> forallb p t1 = true -> k t1 t2 = None) ->
  star p t k = None.
Proof.
  revert k. induction t as [|c t IH]; intros k H; simpl.
  - by apply (H [] []).
  - destruct (p c) eqn:Hc; [|by apply (H [] (c :: t))].
    rewrite IH; [by apply (H [] (c :: t))|].
    intros t1 t2 -> Hp. apply (H (c :: t1) t2); [done|].
    simpl. by rewrite Hc.
Qed.

(** A repetition stops after [m] when what follows succeeds there and
    fails at every longer split. *)
Lemma star_split {A} p m t (k : str -> str -> option A) r :
  forallb p m = true ->
  k m t = Some r ->
  (forall t1 t2, t = t1 ++ t2 -> t1 <> [] -> forallb p t1 = true ->
                 k (m ++ t1) t2 = None) ->
  star p (m ++ t) k = Some r.
Proof.
  revert k. induction m as [|c m IH]; intros k Hm Hk Hlonger; simpl in *.
  - destruct t as [|c t]; [done|]. simpl.
    destruct (p c) eqn:Hc; [|done].
    rewrite star_none; [done|].
    intros t1 t2 -> Hp. apply (Hlonger (c :: t1) t2); [done|done|].
    simpl. by rewrite Hc.
  - apply andb_true_iff in Hm as [Hc Hm]. rewrite Hc.
    by rewrite (IH (fun m r => k (c :: m) r)).
Qed.

(** A repetition takes all of [m] when the next character is not in
    the class and what follows succeeds. *)
Lemma star_stop {A} p m t (k : str -> str -> option A) r :
  forallb p m = true ->
  match t with [] => True | c :: _ => p c = false end ->
  k m t = Some r ->
  star p (m ++ t) k = Some r.
Proof.
  intros Hm Ht Hk. apply star_split; [done..|].
  intros [|c t1] t2 -> Hne Hp; [done|].
  simpl in *. by rewrite Ht in Hp.
Qed.

End Re_facts.

(** * Properties *)

(** ** Rewriting the lockfile, package layout *)

Module environment_facts.

Import environment.

Section Environment.

Variable Dep : Type.
Variable Dependency : str -> Dep.
Variable valid : Dep -> bool.
Variable package : Dep -> str.
Variable version : Dep -> str.
Variable drop_post : Dep -> str -> Dep.
Variable serialize : Dep -> str.
Variable PackageDeduplicator : Type.
Variable register_packages_for_env :
  PackageDeduplicator -> str -> gmap str str -> PackageDeduplicator.
Variable compose_output_file_path : str -> str.

Abbreviation Environment := (Environment PackageDeduplicator).
Abbreviation fix_pin :=
  (fix_pin Dep Dependency valid package version drop_post serialize
           PackageDeduplicator).
Abbreviation fix_pins :=
  (fix_pins Dep Dependency valid package version drop_post serialize
            PackageDeduplicator).
Abbreviation fix_lockfile :=
  (fix_lockfile Dep Dependency valid package version drop_post serialize
                PackageDeduplicator register_packages_for_env
                compose_output_file_path).

Lemma fix_pin_ignore (self self' : Environment) line log fixed :
  fix_pin self line = (log, Ok (fixed, self')) -> ignore _ self' = ignore _ self.
Proof.
  unfold fix_pin. intros H.
  destruct (valid (Dependency line)); [|by inversion H].
  destruct (ignore _ self !! package (Dependency line)) as [[iv|]|].
  - destruct (_ && _); by inversion H.
  - by inversion H.
  - by inversion H.
Qed.

Lemma fix_pins_app (self : Environment) l1 l2 :
  fix_pins self (l1 ++ l2) =
  match fix_pins self l1 with
  | (log, Raise e) => (log, Raise e)
  | (log, Ok (f1, self1)) =>
      match fix_pins self1 l2 with
      | (log', Raise e) => (log ++ log', Raise e)
      | (log', Ok (f2, self2)) => (log ++ log', Ok (f1 ++ f2, self2))
      end
  end.
Proof.
  revert self. induction l1 as [|line l1 IH]; intros self; simpl.
  - destruct (fix_pins self l2) as [log' [[f2 self2]|e]]; done.
  - destruct (fix_pin self line) as [log [[fixed self1]|e]]; [|done].
    rewrite IH.
    destruct (fix_pins self1 l1) as [log1 [[f1 self1']|e]]; [|done].
    destruct (fix_pins self1' l2) as [log2 [[f2 self2]|e]];
      by rewrite (assoc_L (++)).
Qed.

Lemma fix_pins_ignore (self self' : Environment) lines log fixed :
  fix_pins self lines = (log, Ok (fixed, self')) ->
  ignore _ self' = ignore _ self.
Proof.
  revert self log fixed. induction lines as [|line lines IH];
    intros self log fixed; simpl.
  - by inversion 1.
  - destruct (fix_pin self line) as [log1 [[f1 self1]|e]] eqn:E1; [|done].
    destruct (fix_pins self1 lines) as [log2 [[f2 self2]|e]] eqn:E2; [|done].
    inversion 1; subst.
    rewrite (IH _ _ _ E2). eauto using fix_pin_ignore.
Qed.

(** A line that [fix_pin] answers with [None], leaving the environment
    as it was, can be removed from the input without any effect. *)
Lemma fix_pins_dropped (self : Environment) before line after :
  (forall self1 : Environment,
      ignore _ self1 = ignore _ self ->
      fix_pin self1 line = ([], Ok (None, self1))) ->
  observable _ (fix_pins self (before ++ line :: after)) =
  observable _ (fix_pins self (before ++ after)).
Proof.
  intros Hline. rewrite !fix_pins_app.
  destruct (fix_pins self before) as [log [[f1 self1]|e]] eqn:E1; [|done].
  simpl. rewrite Hline by eauto using fix_pins_ignore.
  destruct (fix_pins self1 after) as [log2 [[f2 self2]|e]]; [|done].
  unfold observable, lockfile_lines; simpl. by rewrite !omap_app.
Qed.


Lemma fix_pin_raises (self : Environment) line log e :
  fix_pin self line = (log, Raise e) ->
  e = RuntimeError ("Please add constraints for the package " +:+
                    "version listed above").
Proof.
  unfold fix_pin. intros H.
  destruct (valid (Dependency line)); [|by inversion H].
  destruct (ignore _ self !! package (Dependency line)) as [[iv|]|];
    [destruct (_ && _)|..]; by inversion H.
Qed.

Lemma fix_pins_raises (self : Environment) lines line :
  line ∈ lines ->
  (forall self1 : Environment,
      ignore _ self1 = ignore _ self ->
      exists log e, fix_pin self1 line = (log, Raise e)) ->
  exists log,
    fix_pins self lines =
    (log, Raise (RuntimeError ("Please add constraints for the package " +:+
                               "version listed above"))).
Proof.
  intros Hin Hline. revert self Hline.
  induction lines as [|l lines IH]; intros self Hline.
  - by apply elem_of_nil in Hin.
  - simpl. destruct (fix_pin self l) as [log1 [[f1 self1]|e]] eqn:E1.
    + apply elem_of_cons in Hin as [->|Hin].
      { destruct (Hline self eq_refl) as (log & e & E). congruence. }
      destruct (IH Hin self1) as [log2 E2].
      { intros self2 Hi. apply Hline. rewrite Hi. eauto using fix_pin_ignore. }
      rewrite E2. eauto.
    + rewrite (fix_pin_raises _ _ _ _ E1). eauto.
Qed.

Lemma fix_pin_packages (self self' : Environment) line log fixed pkg :
  fix_pin self line = (log, Ok (fixed, self')) ->
  is_Some (ignore _ self !! pkg) ->
  packages _ self' !! pkg = packages _ self !! pkg.
Proof.
  unfold fix_pin. intros H Hpkg.
  destruct (valid (Dependency line)); [|by inversion H].
  destruct (ignore _ self !! package (Dependency line)) as [[iv|]|] eqn:E.
  - destruct (_ && _); by inversion H.
  - by inversion H.
  - inversion H; subst; simpl. apply lookup_insert_ne.
    intros Heq. rewrite Heq in E. rewrite E in Hpkg. by destruct Hpkg.
Qed.

Lemma fix_pins_packages (self self' : Environment) lines log fixed pkg :
  fix_pins self lines = (log, Ok (fixed, self')) ->
  is_Some (ignore _ self !! pkg) ->
  packages _ self' !! pkg = packages _ self !! pkg.
Proof.
  revert self log fixed. induction lines as [|line lines IH];
    intros self log fixed; simpl.
  - by inversion 1.
  - destruct (fix_pin self line) as [log1 [[f1 self1]|e]] eqn:E1; [|done].
    destruct (fix_pins self1 lines) as [log2 [[f2 self2]|e]] eqn:E2; [|done].
    inversion 1; subst. intros Hpkg.
    rewrite (IH _ _ _ E2), (fix_pin_packages _ _ _ _ _ _ E1); [done..|].
    by rewrite (fix_pin_ignore _ _ _ _ _ E1).
Qed.

(** C1 (as amended).  While a lockfile is rewritten, a dependency line
    whose package the ignore mapping records with a version, and whose
    own version is not empty and differs from the recorded one, makes
    [fix_pin] log the package with both versions and raise; so does every
    run over lines that contain it, and [fix_lockfile] then writes
    nothing. *)
Theorem fix_pin_conflict_is_fatal (self : Environment) line ignored :
  valid (Dependency line) = true ->
  ignore _ self !! package (Dependency line) = Some (Some ignored) ->
  version (Dependency line) ≠ [] ->
  version (Dependency line) ≠ ignored ->
  let fatal := RuntimeError ("Please add constraints for the package " +:+
                             "version listed above") in
  fix_pin self line =
    ([Log ERROR ("Package %s was resolved to different " +:+
                 "versions in different environments: %s and %s")
          [package (Dependency line); version (Dependency line); ignored]],
     Raise fatal) /\
  (forall lines, line ∈ lines ->
     exists log, fix_pins self lines = (log, Raise fatal)) /\
  (forall fs fp, open_rt fs (outfile _ compose_output_file_path self) = Ok fp ->
     line ∈ (concatenated fp).1 ->
     exists log, fix_lockfile self fs = (log, Raise fatal)).
Proof.
  intros Hvalid Hign Hne Hdiff fatal.
  assert (Hpin : forall self1 : Environment,
             ignore _ self1 = ignore _ self ->
             fix_pin self1 line =
             ([Log ERROR ("Package %s was resolved to different " +:+
                          "versions in different environments: %s and %s")
                   [package (Dependency line); version (Dependency line);
                    ignored]], Raise fatal)).
  { intros self1 Hi. unfold fix_pin. rewrite Hvalid, Hi, Hign.
    by rewrite !bool_decide_eq_true_2. }
  split; [by apply Hpin|]. split.
  - intros lines Hin. apply fix_pins_raises with line; [done|].
    intros self1 Hi. rewrite (Hpin _ Hi). eauto.
  - intros fs fp Hopen Hin. unfold fix_lockfile. rewrite Hopen.
    destruct (concatenated fp) as [yielded at_end]; simpl in Hin.
    destruct (fix_pins_raises self yielded line Hin) as [log E].
    { intros self1 Hi. rewrite (Hpin _ Hi). eauto. }
    rewrite E. eauto.
Qed.

Lemma fix_pin_in_path (self self' : Environment) line log fixed :
  fix_pin self line = (log, Ok (fixed, self')) ->
  in_path _ self' = in_path _ self.
Proof.
  unfold fix_pin. intros H.
  destruct (valid (Dependency line)); [|by inversion H].
  destruct (ignore _ self !! package (Dependency line)) as [[iv|]|].
  - destruct (_ && _); by inversion H.
  - by inversion H.
  - by inversion H.
Qed.

(** Where a line that [fix_pin] returns comes from: a line that is not
    a dependency, or a dependency whose package is not ignored. *)
Lemma fix_pin_provenance (self self' : Environment) src log l :
  fix_pin self src = (log, Ok (Some l, self')) ->
  (valid (Dependency src) = false /\ l = strip src) \/
  (valid (Dependency src) = true /\
   ignore _ self !! package (Dependency src) = None /\
   l = serialize (drop_post (Dependency src) (in_path _ self))).
Proof.
  unfold fix_pin. intros H.
  destruct (valid (Dependency src)); [|left; by inversion H].
  destruct (ignore _ self !! package (Dependency src)) as [[iv|]|].
  - destruct (_ && _); by inversion H.
  - by inversion H.
  - right. by inversion H.
Qed.

Lemma fix_pins_provenance (self self' : Environment) lines log fixed l :
  fix_pins self lines = (log, Ok (fixed, self')) ->
  Some l ∈ fixed ->
  exists src, src ∈ lines /\
    ((valid (Dependency src) = false /\ l = strip src) \/
     (valid (Dependency src) = true /\
      ignore _ self !! package (Dependency src) = None /\
      l = serialize (drop_post (Dependency src) (in_path _ self)))).
Proof.
  revert self log fixed. induction lines as [|line lines IH];
    intros self log fixed; simpl.
  - intros [= <- <- <-] Hl. by apply elem_of_nil in Hl.
  - destruct (fix_pin self line) as [log1 [[f1 self1]|e]] eqn:E1; [|done].
    destruct (fix_pins self1 lines) as [log2 [[f2 self2]|e]] eqn:E2; [|done].
    intros [= <- <- <-] [<-|Hl]%elem_of_cons.
    + exists line. split; [by left|]. by eapply fix_pin_provenance.
    + destruct (IH _ _ _ E2 Hl) as (src & Hsrc & Hfrom).
      exists src. split; [by right|].
      by rewrite (fix_pin_ignore _ _ _ _ _ E1),
        (fix_pin_in_path _ _ _ _ _ E1) in Hfrom.
Qed.

Lemma lockfile_lines_elem (fixed : list (option str)) l :
  l ∈ lockfile_lines fixed <->
  exists line, Some line ∈ fixed /\ l = line ++ [newline].
Proof.
  unfold lockfile_lines. rewrite list_elem_of_omap. split.
  - intros ([line|] & Hin & Heq); [|done]. simpl in Heq.
    injection Heq as <-. by exists line.
  - intros (line & Hin & ->). by exists (Some line).
Qed.

(** C2.  A dependency line whose package is in the ignore mapping, with
    no recorded version or with the version of the line, gets no line
    from [fix_pin] and leaves the environment as it was; the lines
    written and the final environment are those of the input without
    that line, and the package never enters the package mapping.  So
    for the lockfile: when the other lines are fixed without an error,
    [fix_lockfile] writes their fixes and nothing for the line; and
    whatever [fix_lockfile] writes, each line of the file comes from a
    line that is not a dependency or from a dependency on another
    package. *)
Theorem fix_pin_drops_ignored (self : Environment) line ignored_version :
  valid (Dependency line) = true ->
  ignore _ self !! package (Dependency line) = Some ignored_version ->
  ignored_version = None \/
    ignored_version = Some (version (Dependency line)) ->
  fix_pin self line = ([], Ok (None, self)) /\
  (forall before after,
     observable _ (fix_pins self (before ++ line :: after)) =
     observable _ (fix_pins self (before ++ after))) /\
  (forall lines log fixed self',
     fix_pins self lines = (log, Ok (fixed, self')) ->
     packages _ self' !! package (Dependency line) =
     packages _ self !! package (Dependency line)) /\
  (forall fs fp before after log fixed self',
     open_rt fs (outfile _ compose_output_file_path self) = Ok fp ->
     concatenated fp = (before ++ line :: after, None) ->
     fix_pins self (before ++ after) = (log, Ok (fixed, self')) ->
     fix_lockfile self fs =
       (log,
        Ok (<[outfile _ compose_output_file_path self :=
                writelines (lockfile_lines fixed)]> fs,
            set_dedup _ self'
              (register_packages_for_env (_dedup _ self') (in_path _ self')
                                         (packages _ self'))))) /\
  (forall fs log fs' self',
     fix_lockfile self fs = (log, Ok (fs', self')) ->
     exists fp written,
       open_rt fs (outfile _ compose_output_file_path self) = Ok fp /\
       fs' = <[outfile _ compose_output_file_path self :=
                 writelines written]> fs /\
       forall l, l ∈ written ->
         exists src, src ∈ (concatenated fp).1 /\
           ((valid (Dependency src) = false /\
             l = strip src ++ [newline]) \/
            (valid (Dependency src) = true /\
             package (Dependency src) <> package (Dependency line) /\
             l = serialize (drop_post (Dependency src) (in_path _ self))
                   ++ [newline]))).
Proof.
  intros Hvalid Hign Hver.
  assert (Hpin : forall self1 : Environment,
             ignore _ self1 = ignore _ self ->
             fix_pin self1 line = ([], Ok (None, self1))).
  { intros self1 Hi. unfold fix_pin. rewrite Hvalid, Hi, Hign.
    destruct Hver as [->| ->]; [done|].
    rewrite (bool_decide_eq_false_2 (_ ≠ version _)) by auto.
    by rewrite andb_false_r. }
  split; [by apply Hpin|]. split; [|split; [|split]].
  - intros before after. by apply fix_pins_dropped.
  - intros lines log fixed self' E.
    apply (fix_pins_packages _ _ _ _ _ _ E). by rewrite Hign.
  - intros fs fp before after log fixed self' Hopen Hyield Hfix.
    pose proof (fix_pins_dropped self before line after Hpin) as Hobs.
    unfold fix_lockfile. rewrite Hopen, Hyield.
    rewrite Hfix in Hobs.
    destruct (fix_pins self (before ++ line :: after))
      as [log0 [[fixed0 self0]|e]]; unfold observable in Hobs;
      simpl in Hobs; [|done].
    by injection Hobs as -> -> ->.
  - intros fs log fs' self'. unfold fix_lockfile.
    destruct (open_rt fs _) as [fp|]; [|done].
    destruct (concatenated fp) as [yielded at_end] eqn:Hyield.
    destruct (fix_pins self yielded) as [log0 [[fixed self0]|e]] eqn:Hfix;
      [|done].
    destruct at_end; [done|]. intros [= <- <- <-].
    exists fp, (lockfile_lines fixed). split; [done|]. split; [done|].
    rewrite Hyield.
    intros l (fixed_line & Hin & ->)%lockfile_lines_elem.
    destruct (fix_pins_provenance _ _ _ _ _ _ Hfix Hin)
      as (src & Hsrc & [[Hinvalid ->]|(Hsrcvalid & Hnone & ->)]).
    + exists src. split; [exact Hsrc|]. by left.
    + exists src. split; [exact Hsrc|]. right. split; [done|].
      split; [|done].
      intros Heq. rewrite Heq, Hign in Hnone. done.
Qed.

(** The package layout strips a line that is not a dependency at both
    ends and tracks nothing for it. *)
Lemma fix_pin_invalid (self : Environment) line :
  valid (Dependency line) = false ->
  fix_pin self line = ([], Ok (Some (strip line), self)).
Proof. intros H. unfold fix_pin. by rewrite H. Qed.

End Environment.

Lemma fix_pin_drops_ignored_witness :
  let fs : filesystem :=
    {[ lit "requirements/test.txt" :=
         lit "pkgA==1.0.0  # via flask" ++ [newline] ++
         lit "pytest==3.0" ++ [newline] ]} in
  instance.fix_pin instance.descendant (lit "pkgA==1.0.0  # via flask") =
    ([], Ok (None, instance.descendant)) /\
  exists self',
    environment.fix_lockfile _ instance.Dependency instance.valid
      instance.package instance.version instance.drop_post
      instance.serialize unit (fun d _ _ => d)
      instance.compose_output_file_path instance.descendant fs =
    ([], Ok (<[lit "requirements/test.txt" :=
                 lit "pytest==3.0" ++ [newline]]> fs, self')).
Proof.
  intros fs.
  destruct (fix_pin_drops_ignored _ instance.Dependency instance.valid
              instance.package instance.version instance.drop_post
              instance.serialize unit (fun d _ _ => d)
              instance.compose_output_file_path instance.descendant
              (lit "pkgA==1.0.0  # via flask")
              (Some (lit "1.0.0")))
    as (_ & _ & _ & Hlockfile & _).
  - vm_compute. reflexivity.
  - vm_compute. reflexivity.
  - right. vm_compute. reflexivity.
  - split.
    + apply (fix_pin_drops_ignored _ instance.Dependency instance.valid
               instance.package instance.version instance.drop_post
               instance.serialize unit (fun d _ _ => d)
               instance.compose_output_file_path instance.descendant
               (lit "pkgA==1.0.0  # via flask") (Some (lit "1.0.0"))).
      * vm_compute. reflexivity.
      * vm_compute. reflexivity.
      * right. vm_compute. reflexivity.
    + eexists.
      rewrite (Hlockfile fs
                 [ lit "pkgA==1.0.0  # via flask" ++ [newline];
                   lit "pytest==3.0" ++ [newline] ]
                 [] [ lit "pytest==3.0" ] [] [ Some (lit "pytest==3.0") ]
                 {| environment.in_path := lit "requirements/test.in";
                    environment._dedup := tt;
                    environment.ignore :=
                      {[ lit "pkgA" := Some (lit "1.0.0") ]};
                    environment.packages := {[ lit "pytest" := lit "3.0" ]};
                    environment._outfile_pkg_names := None |}).
      * vm_compute. reflexivity.
      * vm_compute. reflexivity.
      * vm_compute. reflexivity.
      * vm_compute. reflexivity.
Defined.

Lemma fix_pin_conflict_is_fatal_witness :
  instance.fix_pin instance.descendant (lit "pkgA==2.0.0  # via flask") =
  ([Log ERROR ("Package %s was resolved to different " +:+
               "versions in different environments: %s and %s")
        [lit "pkgA"; lit "2.0.0"; lit "1.0.0"]],
   Raise (RuntimeError ("Please add constraints for the package " +:+
                        "version listed above"))).
Proof.
  apply (fix_pin_conflict_is_fatal _ instance.Dependency instance.valid
           instance.package instance.version instance.drop_post
           instance.serialize unit (fun d _ _ => d)
           instance.compose_output_file_path instance.descendant
           (lit "pkgA==2.0.0  # via flask") (lit "1.0.0")).
  - vm_compute. reflexivity.
  - vm_compute. reflexivity.
  - vm_compute. discriminate.
  - vm_compute. discriminate.
Defined.

(** C1 as stated fails: a line whose version is empty after trimming
    differs from the recorded version and is dropped without an error. *)
Lemma fix_pin_conflict_counterexample :
  let line := lit "pkgA==" ++ [tab] ++ lit " # via flask" in
  instance.valid (instance.Dependency line) = true /\
  environment.ignore _ instance.descendant
    !! instance.package (instance.Dependency line) = Some (Some (lit "1.0.0")) /\
  instance.version (instance.Dependency line) ≠ lit "1.0.0" /\
  instance.fix_pin instance.descendant line =
  ([], Ok (None, instance.descendant)).
Proof.
  repeat split; try (vm_compute; reflexivity). vm_compute. discriminate.
Qed.

End environment_facts.

(** ** Rewriting the lockfile, single-file release *)

Module lockfile_facts.

Import pipcompilemulti.

Section Program.

Variable fnmatch : str -> str -> bool.
Variable OPTIONS : Options.

Abbreviation fix_pin := (fix_pin fnmatch OPTIONS).
Abbreviation fix_pins := (fix_pins fnmatch OPTIONS).

Lemma fix_pin_keeps_ignore self line :
  ignore (fix_pin self line).2 = ignore self.
Proof.
  unfold fix_pin, pipcompilemulti.fix_pin.
  destruct (Dependency_init line) as [dep|]; [|done].
  by destruct (decide _).
Qed.

Lemma fix_pins_keep_ignore self lines :
  ignore (fix_pins self lines).2 = ignore self.
Proof.
  revert self. induction lines as [|line lines IH]; intros self; [done|].
  simpl. destruct (pipcompilemulti.fix_pin _ _ self line) as [fixed self1] eqn:E1.
  specialize (IH self1).
  destruct (pipcompilemulti.fix_pins _ _ self1 lines) as [fixeds self2].
  simpl in *. rewrite IH.
  change self1 with (fixed, self1).2. rewrite <- E1. apply fix_pin_keeps_ignore.
Qed.

Lemma fix_pins_concat self l1 l2 :
  fix_pins self (l1 ++ l2) =
  let '(f1, self1) := fix_pins self l1 in
  let '(f2, self2) := fix_pins self1 l2 in
  (f1 ++ f2, self2).
Proof.
  revert self. induction l1 as [|line l1 IH]; intros self; simpl.
  - by destruct (pipcompilemulti.fix_pins _ _ self l2).
  - destruct (pipcompilemulti.fix_pin _ _ self line) as [fixed self1].
    rewrite IH.
    destruct (pipcompilemulti.fix_pins _ _ self1 l1) as [f1 self1'].
    by destruct (pipcompilemulti.fix_pins _ _ self1' l2).
Qed.

(** A line whose package is ignored can be removed from the input
    without any effect. *)
Lemma fix_pins_without_ignored self before line after dep :
  Dependency_init line = Some dep ->
  package dep ∈ ignore self ->
  observable (fix_pins self (before ++ line :: after)) =
  observable (fix_pins self (before ++ after)).
Proof.
  intros Hdep Hin. rewrite !fix_pins_concat.
  pose proof (fix_pins_keep_ignore self before) as Hi.
  destruct (pipcompilemulti.fix_pins _ _ self before) as [f1 self1].
  simpl in *. unfold pipcompilemulti.fix_pin. rewrite Hdep.
  rewrite decide_True; [|by rewrite Hi].
  destruct (pipcompilemulti.fix_pins _ _ self1 after) as [f2 self2].
  unfold observable, lockfile_lines. simpl. by rewrite !omap_app.
Qed.

(** An ignored package never enters the package set. *)
Lemma fix_pin_never_tracks_ignored self line pkg :
  pkg ∈ ignore self ->
  pkg ∈ packages (fix_pin self line).2 -> pkg ∈ packages self.
Proof.
  unfold fix_pin, pipcompilemulti.fix_pin. intros Hi.
  destruct (Dependency_init line) as [dep|]; [|done].
  destruct (decide _) as [|Hn]; [done|]. simpl. set_solver.
Qed.

Lemma fix_pins_never_track_ignored self lines pkg :
  pkg ∈ ignore self ->
  pkg ∈ packages (fix_pins self lines).2 -> pkg ∈ packages self.
Proof.
  revert self. induction lines as [|line lines IH]; intros self Hi; [done|].
  simpl. pose proof (fix_pin_keeps_ignore self line) as Hi1.
  pose proof (fix_pin_never_tracks_ignored self line pkg Hi) as Hp1.
  destruct (pipcompilemulti.fix_pin _ _ self line) as [fixed self1].
  specialize (IH self1).
  destruct (pipcompilemulti.fix_pins _ _ self1 lines) as [fixeds self2].
  simpl in *. intros H. apply Hp1, IH; [by rewrite Hi1|done].
Qed.

(** The single-file release drops every line whose package is in the
    ignore set, as the package layout does (C2). *)
Lemma fix_pin_skips_ignored self line dep :
  Dependency_init line = Some dep ->
  package dep ∈ ignore self ->
  fix_pin self line = (None, self).
Proof.
  intros Hdep Hin. unfold fix_pin, pipcompilemulti.fix_pin.
  rewrite Hdep. by rewrite decide_True.
Qed.

(** C8 (as amended).  A line that does not match the dependency pattern
    comes back from [fix_pin] with the whitespace at both of its ends
    trimmed, and the environment, with its package set, is unchanged:
    among other lines it contributes that trimmed line and nothing
    else. *)
Theorem fix_pin_keeps_other_lines self line :
  Dependency_init line = None ->
  fix_pin self line = (Some (strip line), self) /\
  (forall before after,
     fix_pins self (before ++ line :: after) =
     let '(f1, self1) := fix_pins self before in
     let '(f2, self2) := fix_pins self1 after in
     (f1 ++ Some (strip line) :: f2, self2)).
Proof.
  intros H.
  assert (forall self1, fix_pin self1 line = (Some (strip line), self1)) as Hpin.
  { intros self1. unfold fix_pin, pipcompilemulti.fix_pin. by rewrite H. }
  split; [done|]. intros before after. rewrite fix_pins_concat.
  destruct (pipcompilemulti.fix_pins _ _ self before) as [f1 self1].
  simpl. fold (fix_pin self1 line). rewrite Hpin.
  by destruct (pipcompilemulti.fix_pins _ _ self1 after).
Qed.

(** Where a line that [fix_pin] returns comes from: a line that is not
    a dependency, or a dependency whose package is not ignored. *)
Lemma fix_pin_origin self src l :
  (fix_pin self src).1 = Some l ->
  (Dependency_init src = None /\ l = strip src) \/
  exists dep,
    Dependency_init src = Some dep /\ (package dep ∉ ignore self) /\
    (l = pipcompilemulti.serialize fnmatch OPTIONS dep \/
     l = pipcompilemulti.serialize fnmatch OPTIONS (drop_post dep)).
Proof.
  unfold fix_pin, pipcompilemulti.fix_pin.
  destruct (Dependency_init src) as [dep|]; [|intros [= <-]; by left].
  destruct (decide _) as [|Hn]; [done|]. simpl. intros [= <-].
  right. exists dep. split; [done|]. split; [done|].
  destruct (_ || _); [by right|by left].
Qed.

Lemma fix_pins_origin self lines l :
  Some l ∈ (fix_pins self lines).1 ->
  exists src, src ∈ lines /\
    ((Dependency_init src = None /\ l = strip src) \/
     exists dep,
       Dependency_init src = Some dep /\ (package dep ∉ ignore self) /\
       (l = pipcompilemulti.serialize fnmatch OPTIONS dep \/
        l = pipcompilemulti.serialize fnmatch OPTIONS (drop_post dep))).
Proof.
  revert self. induction lines as [|line lines IH]; intros self; simpl.
  - by intros ?%elem_of_nil.
  - pose proof (fix_pin_keeps_ignore self line) as Hi.
    pose proof (fix_pin_origin self line) as Hline.
    destruct (pipcompilemulti.fix_pin _ _ self line) as [fixed self1].
    specialize (IH self1).
    destruct (pipcompilemulti.fix_pins _ _ self1 lines) as [fixeds self2].
    simpl in *. intros [<-|Hl]%elem_of_cons.
    + exists line. split; [by left|]. by apply Hline.
    + destruct (IH Hl) as (src & Hsrc & Hfrom).
      exists src. split; [by right|]. by rewrite Hi in Hfrom.
Qed.

Lemma lockfile_lines_from (fixed : list (option str)) l :
  l ∈ lockfile_lines fixed <->
  exists line, Some line ∈ fixed /\ l = line ++ [newline].
Proof.
  unfold lockfile_lines. rewrite list_elem_of_omap. split.
  - intros ([line|] & Hin & Heq); [|done]. simpl in Heq.
    injection Heq as <-. by exists line.
  - intros (line & Hin & ->). by exists (Some line).
Qed.

Variable sys_version_major : nat.

(** C10.  Under Python 3 an environment ignores [future] and [futures]
    whatever [ignore] the caller passes: a dependency line for either is
    answered with [None] and leaves the environment as it was, the lines
    written are those of the input without it, and no run over any lines
    records either package.  So for the lockfile: [fix_lockfile] writes
    the fixes of the other lines and nothing for the line; and whatever
    [fix_lockfile] writes, each line of the file comes from a line that
    is not a dependency or from a dependency on a package that is
    neither [future] nor [futures]. *)
Theorem python3_ignores_future name ignore_arg allow_post line dep :
  (3 <= sys_version_major)%nat ->
  Dependency_init line = Some dep ->
  package dep = lit "future" \/ package dep = lit "futures" ->
  let env := Environment_init sys_version_major name ignore_arg allow_post in
  lit "future" ∈ ignore env /\ lit "futures" ∈ ignore env /\
  fix_pin env line = (None, env) /\
  (forall before after,
     observable (fix_pins env (before ++ line :: after)) =
     observable (fix_pins env (before ++ after))) /\
  (forall lines, package dep ∉ packages (fix_pins env lines).2) /\
  (forall fs before after,
     open_rt fs (outfile OPTIONS env) = Ok (before ++ line :: after) ->
     fix_lockfile fnmatch OPTIONS env fs =
       Ok (<[outfile OPTIONS env :=
               writelines (lockfile_lines
                             (fix_pins env (before ++ after)).1)]> fs,
           (fix_pins env (before ++ after)).2)) /\
  (forall fs fs' env',
     fix_lockfile fnmatch OPTIONS env fs = Ok (fs', env') ->
     exists fp written,
       open_rt fs (outfile OPTIONS env) = Ok fp /\
       fs' = <[outfile OPTIONS env := writelines written]> fs /\
       forall l, l ∈ written ->
         exists src, src ∈ fp /\
           ((Dependency_init src = None /\ l = strip src ++ [newline]) \/
            exists other,
              Dependency_init src = Some other /\
              package other <> lit "future" /\
              package other <> lit "futures" /\
              (l = pipcompilemulti.serialize fnmatch OPTIONS other
                     ++ [newline] \/
               l = pipcompilemulti.serialize fnmatch OPTIONS
                     (drop_post other) ++ [newline]))).
Proof.
  intros Hpy Hdep Hpkg env.
  assert (Hign : ignore env = default ∅ ignore_arg ∪ PY3_IGNORE).
  { unfold env, Environment_init. cbn [ignore].
    apply Nat.leb_le in Hpy. by rewrite Hpy. }
  assert (Hin : package dep ∈ ignore env).
  { rewrite Hign. unfold PY3_IGNORE. destruct Hpkg as [-> | ->]; set_solver. }
  assert (Hfuture : lit "future" ∈ ignore env)
    by (rewrite Hign; unfold PY3_IGNORE; set_solver).
  assert (Hfutures : lit "futures" ∈ ignore env)
    by (rewrite Hign; unfold PY3_IGNORE; set_solver).
  split; [done|]. split; [done|].
  split; [by eapply fix_pin_skips_ignored|].
  split; [intros; by eapply fix_pins_without_ignored|].
  split; [|split].
  - intros lines Hp. apply fix_pins_never_track_ignored in Hp; [|done].
    unfold env, Environment_init in Hp. simpl in Hp. set_solver.
  - intros fs before after Hopen.
    pose proof (fix_pins_without_ignored env before line after dep Hdep Hin)
      as Hobs.
    unfold fix_lockfile. rewrite Hopen. unfold mbind, result_bind.
    fold (fix_pins env (before ++ line :: after)).
    destruct (fix_pins env (before ++ line :: after)) as [fixed0 env0].
    destruct (fix_pins env (before ++ after)) as [fixed1 env1].
    unfold observable in Hobs. simpl in *. by injection Hobs as -> ->.
  - intros fs fs' env'. unfold fix_lockfile.
    destruct (open_rt fs (outfile OPTIONS env)) as [fp|]; [|done].
    unfold mbind, result_bind. fold (fix_pins env fp).
    pose proof (fun l => fix_pins_origin env fp l) as Hfrom.
    destruct (fix_pins env fp) as [fixed env0]. simpl in Hfrom.
    intros [= <- <-].
    exists fp, (lockfile_lines fixed). split; [done|]. split; [done|].
    intros l (fixed_line & Hl & ->)%lockfile_lines_from.
    destruct (Hfrom _ Hl) as (src & Hsrc & [[Hnone ->]|Hsome]).
    + exists src. split; [done|]. by left.
    + destruct Hsome as (other & Hother & Hnot & Hser).
      exists src. split; [done|]. right. exists other.
      split; [done|]. split; [by intros Heq; rewrite Heq in Hnot|].
      split; [by intros Heq; rewrite Heq in Hnot|].
      destruct Hser as [-> | ->]; [by left|by right].
Qed.

End Program.

Lemma fix_pin_keeps_other_lines_witness :
  pipcompilemulti.fix_pin instance.fnmatch OPTIONS_initial instance.base
    (lit "# via flask  ") =
  (Some (lit "# via flask"), instance.base).
Proof.
  apply (fix_pin_keeps_other_lines instance.fnmatch OPTIONS_initial
           instance.base (lit "# via flask  ")).
  vm_compute. reflexivity.
Defined.

(** C8 as stated fails: the leading whitespace of a line that is not a
    dependency is removed too. *)
Lemma fix_pin_strips_leading_counterexample :
  let line := lit "    # via flask" ++ [newline] in
  Dependency_init line = None /\
  (pipcompilemulti.fix_pin instance.fnmatch OPTIONS_initial instance.base
     line).1 = Some (lit "# via flask") /\
  rstrip line = lit "    # via flask" /\
  (pipcompilemulti.fix_pin instance.fnmatch OPTIONS_initial instance.base
     line).1 ≠ Some (rstrip line).
Proof.
  repeat split; try (vm_compute; reflexivity). vm_compute. discriminate.
Qed.

Lemma python3_ignores_future_witness :
  let fs : filesystem :=
    {[ lit "requirements/base.txt" :=
         lit "flask==1.0" ++ [newline] ++
         lit "future==0.16.0            # via python-jose" ++ [newline] ]} in
  pipcompilemulti.fix_pin instance.fnmatch OPTIONS_initial instance.base
    (lit "future==0.16.0            # via python-jose" ++ [newline]) =
    (None, instance.base) /\
  exists env',
    pipcompilemulti.fix_lockfile instance.fnmatch OPTIONS_initial
      instance.base fs =
    Ok (<[lit "requirements/base.txt" := lit "flask==1.0" ++ [newline]]> fs,
        env').
Proof.
  intros fs.
  destruct (python3_ignores_future instance.fnmatch OPTIONS_initial 3
              (lit "base") None false
              (lit "future==0.16.0            # via python-jose" ++ [newline])
              {| package := lit "future"; version := lit "0.16.0";
                 comment := lit "# via python-jose" |})
    as (_ & _ & Hpin & _ & _ & Hlockfile & _).
  - lia.
  - vm_compute. reflexivity.
  - left. reflexivity.
  - split; [exact Hpin|]. eexists. unfold instance.base.
    rewrite (Hlockfile fs [ lit "flask==1.0" ++ [newline] ] []).
    + vm_compute. reflexivity.
    + vm_compute. reflexivity.
Defined.

End lockfile_facts.

(** ** Dependency lines *)

Module dependency_facts.

Import Str_facts Re_facts pipcompilemulti.

Lemma find_eqeq_skip a b :
  forallb (fun c => negb (eqb c "=")) a = true ->
  find b (lit "==") = None -> find (a ++ b) (lit "==") = None.
Proof.
  intros Ha Hb. induction a as [|x a IH]; [done|].
  simpl in Ha. apply andb_true_iff in Ha as [Hx Ha].
  apply find_None_cons; [|by apply IH].
  simpl. apply negb_true_iff in Hx. rewrite eqb_neq in Hx.
  rewrite (proj2 (eqb_neq "=" x)); [done|congruence].
Qed.

Lemma parse_plain p v c pad :
  p <> [] -> forallb dot p = true ->
  v <> [] -> forallb (fun c => negb (isspace c) && negb (eqb c "=")) v = true ->
  c = [] /\ pad = 0 \/
    (startswith c ["#"] = true /\ forallb dot c = true /\
     find c (lit "==") = None /\ 0 < pad) ->
  match_ RE_DEPENDENCY (p ++ lit "==" ++ v ++ repeat " " pad ++ c) =
  Some ((if bool_decide (c = []) then [] else [("comment"%string, c)]) ++
        [("version"%string, v); ("package"%string, p)]).
Proof.
  intros Hp Hdot Hv Hver Hc.
  destruct p as [|c0 p]; [done|]. simpl in Hdot.
  apply andb_true_iff in Hdot as [Hc0 Hdot].
  destruct v as [|v0 v]; [done|]. simpl in Hver.
  apply andb_true_iff in Hver as [Hv0 Hver].
  apply andb_true_iff in Hv0 as [Hv0s Hv0e].
  assert (Hnoeq : forallb (fun c => negb (eqb c "=")) (v ++ repeat " " pad)
                  = true).
  { rewrite forallb_app. apply andb_true_iff. split.
    - apply forallb_forall. intros x Hx.
      eapply forallb_forall in Hver; [|done].
      by apply andb_true_iff in Hver as [_ ?].
    - apply forallb_forall. by intros x ->%repeat_spec. }
  assert (Hnosp : forallb not_space v = true).
  { apply forallb_forall. intros x Hx.
    eapply forallb_forall in Hver; [|done].
    apply andb_true_iff in Hver as [Hs _]. unfold not_space.
    destruct (eqb x " ") eqn:E; [|done]. by apply eqb_eq in E as ->. }
  assert (Hfind : find c (lit "==") = None).
  { destruct Hc as [[-> _]|(_ & _ & ? & _)]; done. }
  unfold match_, RE_DEPENDENCY. cbn [run app]. rewrite Hc0.
  apply star_split; [done| |].
  - (* the split after the package name *)
    cbn [startswith lit list_ascii_of_string length drop app].
    rewrite !eqb_refl. cbn [andb].
    assert (not_space v0 = true) as ->.
    { unfold not_space. destruct (eqb v0 " ") eqn:E; [|done].
      by apply eqb_eq in E as ->. }
    apply star_stop; [done| |].
    { destruct pad; simpl; [|done].
      destruct Hc as [[-> _]|(_ & _ & _ & ?)]; [done|lia]. }
    apply star_stop.
    { apply forallb_forall. by intros x ->%repeat_spec. }
    { destruct Hc as [[-> _]|(Hs & _)]; [done|].
      destruct c as [|x c]; [done|]. simpl in Hs.
      apply andb_true_iff in Hs as [<-%eqb_eq _]. done. }
    destruct Hc as [[-> _]|(Hs & Hcdot & _)]; [done|].
    destruct c as [|x c]; [done|]. simpl in Hs, Hcdot.
    apply andb_true_iff in Hs as [<-%eqb_eq _].
    apply andb_true_iff in Hcdot as [_ Hcdot].
    cbn [startswith lit list_ascii_of_string length drop app].
    rewrite !eqb_refl. cbn [andb]. rewrite drop_0.
    rewrite <- (app_nil_r c) at 1.
    by erewrite star_stop.
  - (* no later split *)
    intros t1 t2 Ht Hne Hp1.
    destruct t1 as [|x t1]; [done|].
    change (lit "==" ++ (v0 :: v) ++ repeat " " pad ++ c)
      with ("=" :: "=" :: v0 :: v ++ repeat " " pad ++ c) in Ht.
    injection Ht as <- Ht.
    rewrite (find_None_suffix ("=" :: v0 :: v ++ repeat " " pad ++ c)
               (lit "==") t1 t2); [done| |done].
    apply find_None_cons.
    + simpl. apply negb_true_iff in Hv0e. rewrite eqb_neq in Hv0e.
      rewrite (proj2 (eqb_neq "=" v0)); [done|congruence].
    + change (v0 :: v ++ repeat " " pad ++ c)
        with ((v0 :: v) ++ repeat " " pad ++ c).
      rewrite (assoc_L (++)). apply find_eqeq_skip; [|done].
      simpl. by rewrite Hv0e.
Qed.

(** A text without whitespace is its own trimming. *)
Lemma strip_no_space v :
  forallb (fun c => negb (isspace c)) v = true -> strip v = v.
Proof.
  intros Hv. unfold strip.
  assert (lstrip v = v) as ->.
  { destruct v as [|x v]; [done|]. simpl in *.
    apply andb_true_iff in Hv as [Hx _]. apply negb_true_iff in Hx.
    by rewrite Hx. }
  destruct (rev v) as [|x r] eqn:E.
  { apply (f_equal (@rev _)) in E. rewrite rev_involutive in E. by subst. }
  apply (f_equal (@rev _)) in E. rewrite rev_involutive in E. simpl in E.
  subst v. apply rstrip_clean.
  rewrite forallb_app in Hv. apply andb_true_iff in Hv as [_ Hx].
  simpl in Hx. rewrite andb_true_r in Hx. by apply negb_true_iff.
Qed.

Lemma rstrip_app_no_space s v :
  v <> [] -> forallb (fun c => negb (isspace c)) v = true ->
  rstrip (s ++ v) = s ++ v.
Proof.
  intros Hne Hv. destruct (rev v) as [|x r] eqn:E.
  { apply (f_equal (@rev _)) in E. rewrite rev_involutive in E. by subst. }
  apply (f_equal (@rev _)) in E. rewrite rev_involutive in E. simpl in E.
  subst v. rewrite (assoc_L (++)). apply rstrip_clean.
  rewrite forallb_app in Hv. apply andb_true_iff in Hv as [_ Hx].
  simpl in Hx. rewrite andb_true_r in Hx. by apply negb_true_iff.
Qed.

Lemma rstrip_app_trimmed s c :
  c <> [] -> rstrip c = c -> rstrip (s ++ c) = s ++ c.
Proof.
  intros Hne Hc. destruct (rstrip_fixed c Hc Hne) as (c' & x & -> & Hx).
  rewrite (assoc_L (++)). by apply rstrip_clean.
Qed.

Section Program.

Variable fnmatch : str -> str -> bool.
Variable OPTIONS : Options.

Abbreviation is_compatible := (is_compatible fnmatch OPTIONS).
Abbreviation serialize := (serialize fnmatch OPTIONS).

(** C6 (as amended).  A plain pin whose package no compatible pattern
    matches and whose name does not start with the editable flag is
    serialized to a line that parses back to the same dependency:
    package, version and comment. *)
Theorem parse_serialize dep :
  plain dep = true ->
  is_compatible dep = false ->
  startswith (package dep) (lit "-e ") = false ->
  Dependency_init (serialize dep) = Some dep.
Proof.
  destruct dep as [p v c]. unfold plain. cbn [package version comment].
  intros Hplain Hcompat Heditable.
  repeat (apply andb_true_iff in Hplain as [Hplain ?]).
  repeat match goal with
         | H : negb (bool_decide _) = true |- _ =>
             apply negb_true_iff, bool_decide_eq_false in H
         end.
  assert (Hvs : forallb (fun c => negb (isspace c)) v = true).
  { apply forallb_forall. intros x Hx.
    match goal with H : forallb _ v = true |- _ =>
      eapply forallb_forall in H; [|done];
      by apply andb_true_iff in H as [? _] end. }
  assert (Hc : c = [] \/
               c <> [] /\ startswith c ["#"] = true /\ forallb dot c = true /\
               find c (lit "==") = None /\ strip c = c).
  { match goal with H : _ || _ = true |- _ =>
      apply orb_true_iff in H as [H|H] end.
    - left. by apply bool_decide_eq_true in H.
    - right. repeat (apply andb_true_iff in H as [H ?]).
      repeat match goal with
             | H : bool_decide _ = true |- _ => apply bool_decide_eq_true in H
             end.
      repeat split; try done. by intros ->. }
  set (pad := if bool_decide (c = []) then 0
              else 2 + (COMMENT_JUSTIFICATION -
                        length (p ++ lit "==" ++ v ++ lit "  "))).
  assert (Hser : serialize {| package := p; version := v; comment := c |} =
                 p ++ lit "==" ++ v ++ repeat " " pad ++ c).
  { unfold serialize, pipcompilemulti.serialize, without_editable, ljust.
    cbn [package version comment]. fold is_compatible.
    rewrite Hcompat, Heditable. unfold pad.
    destruct Hc as [->|(Hne & Hhash & _ & _ & Hstrip)].
    - rewrite bool_decide_eq_true_2 by done. cbn [repeat].
      rewrite !app_nil_r, rstrip_spaces.
      replace (p ++ lit "==" ++ v ++ lit "  ")
        with ((p ++ lit "==" ++ v) ++ repeat " " 2)
        by (by rewrite <- !app_assoc).
      rewrite rstrip_spaces, (assoc_L (++) p).
      by apply rstrip_app_no_space.
    - rewrite bool_decide_eq_false_2 by done.
      assert (rstrip c = c) as Hr.
      { unfold strip in Hstrip. destruct c as [|x c]; [done|].
        simpl in Hhash. apply andb_true_iff in Hhash as [<-%eqb_eq _].
        by rewrite lstrip_clean in Hstrip. }
      match goal with
      | |- rstrip (?l ++ c) = _ =>
          replace l with (p ++ lit "==" ++ v ++
                          repeat " " (2 + (COMMENT_JUSTIFICATION -
                             length (p ++ lit "==" ++ v ++ lit "  "))))
            by (by rewrite repeat_app, <- !app_assoc)
      end.
      rewrite !(assoc_L (++)). by apply rstrip_app_trimmed. }
  rewrite Hser. unfold Dependency_init.
  rewrite parse_plain; try done.
  - destruct Hc as [->|(Hne & _ & _ & _ & Hstrip)].
    + rewrite bool_decide_eq_true_2 by done.
      simpl (group _ _). cbn [default from_option id].
      by rewrite strip_no_space.
    + rewrite bool_decide_eq_false_2 by done.
      simpl (group _ _). cbn [default from_option id].
      by rewrite strip_no_space, Hstrip.
  - unfold pad. destruct Hc as [->|(Hne & ? & ? & ? & _)].
    + left. by rewrite bool_decide_eq_true_2.
    + right. rewrite bool_decide_eq_false_2 by done.
      repeat split; try done. lia.
Qed.

End Program.

Lemma parse_serialize_witness :
  let dep := {| package := lit "unidecode"; version := lit "0.4.21";
                comment := lit "# via myapp" |} in
  Dependency_init (serialize instance.fnmatch instance.OPTIONS_internal dep) =
  Some dep.
Proof.
  intros dep.
  apply (parse_serialize instance.fnmatch instance.OPTIONS_internal dep).
  - vm_compute. reflexivity.
  - vm_compute. reflexivity.
  - vm_compute. reflexivity.
Defined.

(** Why the amended claim asks for a plain pin: a version that starts
    with a tab and an equals sign is trimmed to [=1], and the serialized
    line splits one character later. *)
Example parse_serialize_not_plain :
  let dep := {| package := lit "a"; version := lit "=1"; comment := [] |} in
  Dependency_init (lit "a==" ++ [tab] ++ lit "=1") = Some dep /\
  Dependency_init (serialize instance.fnmatch OPTIONS_initial dep) =
  Some {| package := lit "a="; version := lit "1"; comment := [] |}.
Proof. split; vm_compute; reflexivity. Qed.

(** C6 as stated fails twice: the editable flag is removed from the
    package, and a package that a compatible pattern matches is written
    with [~=], which the pattern of a dependency line does not accept. *)
Lemma parse_serialize_counterexample :
  let editable := {| package := lit "-e somepkg"; version := lit "1.0";
                     comment := lit "# via foo" |} in
  let internal := {| package := lit "myapp-core"; version := lit "2.1";
                     comment := [] |} in
  Dependency_init (lit "-e somepkg==1.0  # via foo") = Some editable /\
  serialize instance.fnmatch OPTIONS_initial editable =
    lit "somepkg==1.0              # via foo" /\
  package <$> Dependency_init
                (serialize instance.fnmatch OPTIONS_initial editable) =
    Some (lit "somepkg") /\
  package <$> Dependency_init
                (serialize instance.fnmatch OPTIONS_initial editable) ≠
    Some (package editable) /\
  Dependency_init (lit "myapp-core==2.1") = Some internal /\
  serialize instance.fnmatch instance.OPTIONS_internal internal =
    lit "myapp-core~=2.1" /\
  Dependency_init
    (serialize instance.fnmatch instance.OPTIONS_internal internal) = None.
Proof.
  repeat split; try (vm_compute; reflexivity). vm_compute. discriminate.
Qed.

End dependency_facts.

(** ** Header and body *)

Module header_facts.

Import Str_facts pipcompilemulti.

Lemma split_header_loop_ended fp n : split_header_loop fp n true = n.
Proof.
  revert n. induction fp as [|line fp IH]; intros n; simpl; [done|].
  by rewrite andb_false_r.
Qed.

Lemma split_header_loop_app header body n :
  Forall (fun line => is_header_line line = true) header ->
  body_starts body ->
  split_header_loop (header ++ body) n false = (n + length header)%nat.
Proof.
  intros Hh Hb. revert n.
  induction Hh as [|line header Hline Hh IH]; intros n; simpl.
  - destruct body as [|line body]; simpl; [lia|].
    simpl in Hb. unfold is_header_line in Hb. simpl in Hb. rewrite Hb. simpl.
    rewrite split_header_loop_ended. lia.
  - unfold is_header_line in Hline. simpl in Hline. rewrite Hline. simpl.
    rewrite IH. lia.
Qed.

Lemma split_header_app header body :
  Forall (fun line => is_header_line line = true) header ->
  body_starts body ->
  split_header (header ++ body) = (header, body).
Proof.
  intros Hh Hb. unfold split_header.
  rewrite split_header_loop_app by done. simpl.
  by rewrite take_app_length, drop_app_length.
Qed.

(** Every list of lines is a run of comment lines and a body. *)
Lemma header_body fp :
  exists header body, fp = header ++ body /\
    Forall (fun line => is_header_line line = true) header /\
    body_starts body.
Proof.
  induction fp as [|line fp (header & body & -> & Hh & Hb)].
  - exists [], []. by repeat split.
  - destruct (is_header_line line) eqn:E.
    + exists (line :: header), body. split; [done|]. split; [|done].
      by constructor.
    + exists [], (line :: header ++ body). split; [done|]. by split.
Qed.

Lemma split_header_body fp :
  body_starts (split_header fp).2 /\
  fp = (split_header fp).1 ++ (split_header fp).2.
Proof.
  destruct (header_body fp) as (header & body & -> & Hh & Hb).
  by rewrite split_header_app.
Qed.

Section Program.

Variable OPTIONS : Options.

(** C7 (as amended).  When the header text is made of newline-ended
    comment lines and has no carriage return, [replace_header] followed
    by [split_header] on the file it wrote gives back that text as the
    header and, as the body, the body of the original file. *)
Theorem replace_then_split_header self header_text fs fp :
  open_rt fs (outfile OPTIONS self) = Ok fp ->
  is_comment_block header_text = true ->
  cr ∉ header_text ->
  exists fs' fp',
    replace_header OPTIONS self header_text fs = Ok fs' /\
    open_rt fs' (outfile OPTIONS self) = Ok fp' /\
    concat (split_header fp').1 = header_text /\
    (split_header fp').2 = (split_header fp).2.
Proof.
  intros Hopen Hblock Hcr.
  unfold replace_header. rewrite Hopen. unfold mbind, result_bind.
  destruct (split_header fp) as [old body] eqn:Esplit.
  eexists _, _. split; [done|].
  unfold open_rt, open_rb in *. rewrite lookup_insert_eq.
  unfold mbind, result_bind in *.
  split; [done|].
  destruct (fs !! outfile OPTIONS self) as [content|] eqn:Efs; [|done].
  injection Hopen as <-.
  pose proof (split_header_body (readlines (universal_newlines content)))
    as [Hstart Hfp].
  rewrite Esplit in Hstart, Hfp. simpl in Hstart, Hfp.
  assert (Hok : lines_ok body).
  { assert (body = drop (length old)
                     (readlines (universal_newlines content))) as ->.
    { by rewrite Hfp, drop_app_length. }
    apply lines_ok_drop, readlines_ok. }
  assert (Hbody_cr : cr ∉ concat body).
  { intros Hin. apply (universal_newlines_no_cr content).
    rewrite <- (concat_readlines (universal_newlines content)), Hfp.
    rewrite concat_app. apply elem_of_app. by right. }
  rewrite universal_newlines_id by (by intros [?|?]%elem_of_app).
  unfold is_comment_block in Hblock.
  assert (Hterm : Forall terminated (readlines header_text)).
  { apply Forall_terminated; [apply readlines_ok|].
    apply forallb_forall. intros l Hl.
    eapply forallb_forall in Hblock; [|done].
    by apply andb_true_iff in Hblock as [_ ?]. }
  assert (Hcomment : Forall (fun line => is_header_line line = true)
                            (readlines header_text)).
  { apply Forall_forall. intros l Hl.
    apply list_elem_of_In in Hl.
    eapply forallb_forall in Hblock; [|done].
    by apply andb_true_iff in Hblock as [? _]. }
  assert (readlines (header_text ++ writelines body) =
          readlines header_text ++ body) as ->.
  { rewrite <- (concat_readlines header_text) at 1. unfold writelines.
    by rewrite readlines_concat_app, readlines_concat. }
  rewrite split_header_app by done.
  split; [apply concat_readlines|done].
Qed.

End Program.

Lemma replace_then_split_header_witness :
  let fs : filesystem :=
    {[ lit "requirements/base.txt" :=
         lit "# autogenerated by pip-compile" ++ [newline] ++
         lit "flask==1.0" ++ [newline] ]} in
  exists fs' fp',
    replace_header OPTIONS_initial instance.base DEFAULT_HEADER fs = Ok fs' /\
    open_rt fs' (lit "requirements/base.txt") = Ok fp' /\
    concat (split_header fp').1 = DEFAULT_HEADER /\
    (split_header fp').2 = [lit "flask==1.0" ++ [newline]].
Proof.
  intros fs.
  apply (replace_then_split_header OPTIONS_initial instance.base
           DEFAULT_HEADER fs
           [lit "# autogenerated by pip-compile" ++ [newline];
            lit "flask==1.0" ++ [newline]]).
  - vm_compute. reflexivity.
  - vm_compute. reflexivity.
  - apply (bool_decide_unpack _). vm_compute. exact I.
Defined.

(** C7 as stated fails: a header text whose last line has no newline
    runs into the first body line, which then counts as header. *)
Lemma replace_header_counterexample :
  let fs : filesystem :=
    {[ lit "requirements/base.txt" :=
         lit "# autogenerated by pip-compile" ++ [newline] ++
         lit "flask==1.0" ++ [newline] ]} in
  let header_text := lit "# locked for production" in
  exists fs' fp',
    replace_header OPTIONS_initial instance.base header_text fs = Ok fs' /\
    open_rt fs' (lit "requirements/base.txt") = Ok fp' /\
    split_header fp' =
      ([lit "# locked for productionflask==1.0" ++ [newline]], []) /\
    concat (split_header fp').1 ≠ header_text /\
    (split_header fp').2 ≠ [lit "flask==1.0" ++ [newline]].
Proof.
  eexists _, _. split; [vm_compute; reflexivity|].
  split; [vm_compute; reflexivity|].
  split; [vm_compute; reflexivity|].
  split; vm_compute; discriminate.
Qed.

End header_facts.

(** ** Reference graphs *)

Module graph_facts.

Import graph.

Section Graph.

Variable G : gmap str (gset str).

Lemma edge_lookup a b :
  edge G a b <-> exists refs, G !! a = Some refs /\ b ∈ refs.
Proof.
  unfold edge. destruct (G !! a) as [refs|]; simpl.
  - split; [eauto|]. by intros (? & [= <-] & ?).
  - split; [set_solver|]. by intros (? & ? & ?).
Qed.

Lemma edge_dom a b : edge G a b -> a ∈ dom G.
Proof. intros (refs & H & _)%edge_lookup. by apply elem_of_dom. Qed.

Lemma closed_edge a b : closed G -> edge G a b -> b ∈ dom G.
Proof.
  intros Hc (refs & H & Hb)%edge_lookup. by apply (Hc _ _ H).
Qed.

Lemma closed_rtc a b : closed G -> a ∈ dom G -> rtc (edge G) a b -> b ∈ dom G.
Proof.
  intros Hc Ha Hab. induction Hab as [|a r b Har _ IH]; [done|].
  eauto using closed_edge.
Qed.

Lemma reachable_inv a b :
  reachable G a b <-> edge G a b \/ exists r, edge G a r /\ reachable G r b.
Proof.
  unfold reachable. split.
  - inversion 1; subst; eauto.
  - intros [H|(r & H1 & H2)]; [by apply tc_once|by eapply tc_l].
Qed.

Lemma ranked_acyclic rank : ranked G rank -> acyclic G.
Proof.
  intros Hr.
  assert (forall a b, tc (edge G) a b -> (rank b < rank a)%nat) as Hlt.
  { assert (forall a b, edge G a b -> (rank b < rank a)%nat) as Hedge.
    { intros a b (refs & H & Hb)%edge_lookup. by apply (Hr _ _ H). }
    induction 1 as [a b H|a r b H _ IH]; [by apply Hedge|].
    apply Hedge in H. lia. }
  intros a Ha. apply Hlt in Ha. lia.
Qed.

(** In an acyclic graph the names below a reference of [a] do not
    contain [a]. *)
Lemma acyclic_below a r b :
  acyclic G -> edge G a r -> rtc (edge G) r b -> b <> a.
Proof.
  intros Hac Har Hrb ->. apply (Hac a). unfold reachable.
  eapply tc_rtc_r; [by apply tc_once|done].
Qed.

(** An acyclic closed graph has, below every name, a name without
    references. *)
Lemma acyclic_sink a :
  acyclic G -> closed G -> a ∈ dom G ->
  exists s, rtc (edge G) a s /\ G !! s = Some ∅.
Proof.
  intros Hac Hc Ha.
  assert (forall n (V : gset str) a,
             size V <= n -> a ∈ dom G -> (forall b, rtc (edge G) a b -> b ∈ V) ->
             exists s, rtc (edge G) a s /\ G !! s = Some ∅) as H.
  { clear a Ha. induction n as [|n IH]; intros V a Hsize Ha HV.
    - assert (a ∈ V) as HaV by by apply HV.
      apply Nat.le_0_r, size_empty_iff in Hsize. set_solver.
    - apply elem_of_dom in Ha as [refs Hrefs].
      destruct (decide (refs = ∅)) as [->|Hne]; [by exists a|].
      apply set_choose_L in Hne as [r Hr].
      assert (edge G a r) as Har by (apply edge_lookup; eauto).
      destruct (IH (V ∖ {[ a ]}) r) as (s & Hs & Hsink).
      + assert (a ∈ V) as HaV by by apply HV.
        assert (size V = size ({[ a ]} ∪ V ∖ {[ a ]})) as E.
        { f_equal. apply set_eq. intros x. 
          destruct (decide (x = a)); set_solver. }
        rewrite size_union, size_singleton in E by set_solver. lia.
      + by eapply closed_edge.
      + intros b Hb. apply elem_of_difference. split.
        * apply HV. by eapply rtc_l.
        * apply not_elem_of_singleton. by eapply acyclic_below.
      + exists s. split; [by eapply rtc_l|done]. }
  apply (H (size (dom G)) (dom G) a); [done|done|].
  intros b Hb. by eapply closed_rtc.
Qed.

(** A cycle can be walked as often as needed. *)
Lemma cycle_pump c n :
  tc (edge G) c c -> exists m, (n <= m)%nat /\ nsteps (edge G) m c c.
Proof.
  intros (k & Hk & Hc)%tc_nsteps. induction n as [|n (m & Hm & IH)].
  - exists 0%nat. split; [done|]. constructor.
  - exists (k + m)%nat. split; [lia|]. by eapply nsteps_trans.
Qed.

End Graph.

(** *** results of list comprehensions *)

Lemma mapM_Ok {A B} (f : A -> result B) (P : A -> B -> Prop) l :
  (forall x, x ∈ l -> exists y, f x = Ok y /\ P x y) ->
  exists ys, mapM f l = Ok ys /\ Forall2 P l ys.
Proof.
  induction l as [|x l IH]; intros H.
  - by exists [].
  - destruct (H x) as (y & Hy & HP); [by left|].
    destruct IH as (ys & Hys & HF); [intros; apply H; by right|].
    exists (y :: ys). simpl. rewrite Hy. simpl. rewrite Hys. simpl.
    split; [done|by constructor].
Qed.

Lemma mapM_Ok_inv {A B} (f : A -> result B) l ys :
  mapM f l = Ok ys -> Forall2 (fun x y => f x = Ok y) l ys.
Proof.
  revert ys. induction l as [|x l IH]; intros ys; simpl.
  - intros [= <-]. constructor.
  - destruct (f x) as [y|e] eqn:Ex; [|done]. simpl.
    destruct (mapM f l) as [ys'|e]; [|done]. simpl.
    intros [= <-]. constructor; [done|by apply IH].
Qed.

Lemma mapM_Raise_inv {A B} (f : A -> result B) l e :
  mapM f l = Raise e -> exists x, x ∈ l /\ f x = Raise e.
Proof.
  induction l as [|x l IH]; simpl; [done|].
  destruct (f x) as [y|e'] eqn:Ex; simpl.
  - destruct (mapM f l) as [ys'|e']; simpl; [done|].
    intros [= <-]. destruct IH as (x' & ? & ?); [done|].
    exists x'. split; [by right|done].
  - intros [= <-]. exists x. split; [by left|done].
Qed.

End graph_facts.

(** ** recursive_refs *)

Module recursive_refs_facts.

Import graph graph_facts pipcompilemulti.

Lemma refs_by_name_size envs : size (refs_by_name envs) <= length envs.
Proof.
  unfold refs_by_name.
  assert (forall (m : gmap str (gset str)),
             size (foldl (fun m env => <[conf_name env := conf_refs env]> m)
                         m envs) <= size m + length envs) as H.
  { induction envs as [|env envs IH]; intros m; simpl.
    - by rewrite Nat.add_0_r.
    - etrans; [apply IH|]. rewrite map_size_insert.
      generalize (size m). intros n.
      destruct (m !! conf_name env); unfold id; lia. }
  specialize (H ∅). by rewrite map_size_empty in H.
Qed.

Section Envs.

Variable envs : list conf.

Abbreviation G := (refs_by_name envs).

(** The sets of a comprehension over the references, joined. *)
Lemma union_of_refs (refs : gset str) (sets : list (gset str)) b :
  Forall2 (fun r S => forall b, b ∈ S <-> reachable G r b) (elements refs) sets ->
  b ∈ ⋃ sets <-> exists r, r ∈ refs /\ reachable G r b.
Proof.
  intros HF. rewrite elem_of_union_list. split.
  - intros (S & HS & Hb).
    apply list_elem_of_lookup in HS as [i Hi].
    destruct (Forall2_lookup_r _ _ _ _ _ HF Hi) as (r & Hr & HrS).
    exists r. split; [|by apply HrS].
    apply elem_of_elements. by eapply list_elem_of_lookup_2.
  - intros (r & Hr & Hb).
    apply elem_of_elements, list_elem_of_lookup in Hr as [i Hi].
    destruct (Forall2_lookup_l _ _ _ _ _ HF Hi) as (S & HS & HrS).
    exists S. split; [by eapply list_elem_of_lookup_2|by apply HrS].
Qed.

(** With room for one call per name below [name], there is a result. *)
Lemma recursive_refs_below (limit : nat) (V : gset str) (name : str) :
  acyclic G -> closed G -> name ∈ dom G ->
  (forall b, rtc (edge G) name b -> b ∈ V) ->
  size V <= limit ->
  exists S, recursive_refs limit envs name = Ok S.
Proof.
  intros Hac Hc. revert V name.
  induction limit as [|limit IH]; intros V name Hname HV Hsize.
  - assert (name ∈ V) as HnV by by apply HV.
    apply Nat.le_0_r, size_empty_iff in Hsize. set_solver.
  - simpl. apply elem_of_dom in Hname as [refs Hrefs]. rewrite Hrefs.
    destruct (decide (refs = ∅)) as [->|Hne]; [by eexists|].
    destruct (mapM_Ok (recursive_refs limit envs) (fun _ _ => True)
                (elements refs)) as (sets & -> & _); [|by eexists].
    intros r Hr%elem_of_elements.
    assert (edge G name r) as Hedge by (apply edge_lookup; eauto).
    destruct (IH (V ∖ {[ name ]}) r) as [S HS]; [| | |by eauto].
    + by eapply closed_edge.
    + intros b Hb. apply elem_of_difference. split.
      * apply HV. by eapply rtc_l.
      * apply not_elem_of_singleton. by eapply acyclic_below.
    + assert (name ∈ V) as HnV by by apply HV.
      assert (size V = size ({[ name ]} ∪ V ∖ {[ name ]})) as E.
      { f_equal. apply set_eq. intros x.
        destruct (decide (x = name)); set_solver. }
      rewrite size_union, size_singleton in E by set_solver. lia.
Qed.

(** A result means that every walk from [name] is shorter than the
    limit. *)
Lemma recursive_refs_depth (limit : nat) (name : str) S (n : nat) b :
  recursive_refs limit envs name = Ok S ->
  nsteps (edge G) n name b -> n < limit.
Proof.
  revert name S n. induction limit as [|limit IH]; intros name S n; [done|].
  simpl. destruct (G !! name) as [refs|] eqn:Hrefs; [|done].
  intros Hok Hn. destruct Hn as [|n name r b Hr Hn]; [lia|].
  apply edge_lookup in Hr as (refs' & ? & Hr). simplify_eq.
  destruct (decide (refs = ∅)) as [->|Hne]; [set_solver|].
  destruct (mapM _ (elements refs)) as [sets|e] eqn:Hsets; [|done].
  apply mapM_Ok_inv in Hsets.
  apply elem_of_elements, list_elem_of_lookup in Hr as [i Hi].
  destruct (Forall2_lookup_l _ _ _ _ _ Hsets Hi) as (S' & _ & HS').
  apply (IH _ _ _ HS') in Hn. lia.
Qed.

(** The exceptions of [recursive_refs]: the recursion limit, or a name
    below [name] that has no entry. *)
Lemma recursive_refs_exception (limit : nat) (name : str) e :
  recursive_refs limit envs name = Raise e ->
  e = RecursionError \/
  exists key, e = KeyError key /\ G !! key = None /\ rtc (edge G) name key.
Proof.
  revert name. induction limit as [|limit IH]; intros name; simpl.
  - intros [= <-]. by left.
  - destruct (G !! name) as [refs|] eqn:Hrefs.
    + destruct (decide (refs = ∅)) as [->|Hne]; [done|].
      destruct (mapM _ (elements refs)) as [sets|e'] eqn:Hsets; [done|].
      simpl. intros [= <-].
      apply mapM_Raise_inv in Hsets as (r & Hr%elem_of_elements & Hraise).
      destruct (IH _ Hraise) as [->|(key & -> & Hkey & Hrtc)]; [by left|].
      right. exists key. split; [done|]. split; [done|].
      eapply rtc_l; [|done]. apply edge_lookup. eauto.
    + intros [= <-]. right. exists name. by repeat split.
Qed.

(** Whatever [recursive_refs] returns is the closure. *)
Lemma recursive_refs_sound (limit : nat) (name : str) S :
  recursive_refs limit envs name = Ok S ->
  forall b, b ∈ S <-> reachable G name b.
Proof.
  revert name S. induction limit as [|limit IH]; intros name S; [done|].
  simpl. destruct (G !! name) as [refs|] eqn:Hrefs; [|done].
  assert (forall r, edge G name r <-> r ∈ refs) as Hedge.
  { intros r. rewrite edge_lookup. split; [|by eauto].
    intros (? & ? & ?). congruence. }
  destruct (decide (refs = ∅)) as [->|Hne].
  - intros [= <-] b. rewrite reachable_inv. setoid_rewrite Hedge. set_solver.
  - destruct (mapM _ (elements refs)) as [sets|e] eqn:Hsets; [|done].
    intros [= <-] b. apply mapM_Ok_inv in Hsets.
    assert (Forall2 (fun r S => forall b, b ∈ S <-> reachable G r b)
                    (elements refs) sets) as HF.
    { eapply Forall2_impl; [done|]. intros r S' HS'. by apply IH. }
    rewrite elem_of_union, (union_of_refs _ _ _ HF), reachable_inv.
    setoid_rewrite Hedge. done.
Qed.

(** C4.  What [recursive_refs] returns is exactly the set of names
    reachable from [name] through references, without [name] itself;
    and it does return for an acyclic list of environments whose
    references all name listed environments, when the recursion limit
    is at least their number. *)
Theorem recursive_refs_is_closure (limit : nat) (name : str) :
  (forall S, recursive_refs limit envs name = Ok S ->
     (forall b, b ∈ S <-> reachable G name b) /\ name ∉ S) /\
  (acyclic G -> closed G -> name ∈ dom G -> length envs <= limit ->
   exists S, recursive_refs limit envs name = Ok S).
Proof.
  split.
  - intros S HS. split; [by eapply recursive_refs_sound|].
    rewrite (recursive_refs_sound limit name S HS). intros Hcycle.
    destruct (cycle_pump G name limit Hcycle) as (m & Hm & Hpump).
    apply (recursive_refs_depth _ _ _ _ _ HS) in Hpump. lia.
  - intros Hac Hc Hname Hlimit.
    apply (recursive_refs_below limit (dom G) name); try done.
    + intros b Hb. by eapply closed_rtc.
    + rewrite size_dom. etrans; [apply refs_by_name_size|done].
Qed.

(** C5.  When a cycle of references can be reached from [name],
    [recursive_refs] ends with an exception whatever the recursion
    limit is: [RecursionError], or [KeyError] when a reference without
    entry is met first, which cannot happen in a closed graph. *)
Theorem recursive_refs_fails_on_cycle (limit : nat) (name c : str) :
  name = c \/ reachable G name c ->
  reachable G c c ->
  exists e, recursive_refs limit envs name = Raise e /\
            (e = RecursionError \/ exists key, e = KeyError key) /\
            (closed G -> e = RecursionError).
Proof.
  intros Hname Hcycle.
  destruct (recursive_refs limit envs name) as [S|e] eqn:E.
  - exfalso.
    assert (rtc (edge G) name c) as (j & Hj)%rtc_nsteps.
    { apply rtc_tc. destruct Hname; eauto. }
    destruct (cycle_pump G c limit Hcycle) as (m & Hm & Hpump).
    pose proof (nsteps_trans _ _ _ _ _ Hj Hpump) as Hwalk.
    apply (recursive_refs_depth _ _ _ _ _ E) in Hwalk. lia.
  - exists e. split; [done|].
    destruct (recursive_refs_exception _ _ _ E)
      as [->|(key & -> & Hkey & Hrtc)].
    + split; [by left|done].
    + split; [right; eauto|]. intros Hc. exfalso.
      assert (name ∈ dom G) as Hdom.
      { destruct Hname as [->|Hreach].
        - apply reachable_inv in Hcycle as [H|(? & H & _)];
            by eapply edge_dom.
        - apply reachable_inv in Hreach as [H|(? & H & _)];
            by eapply edge_dom. }
      apply (closed_rtc _ _ _ Hc Hdom), elem_of_dom in Hrtc.
      rewrite Hkey in Hrtc. by destruct Hrtc.
Qed.

End Envs.

Lemma chain_acyclic : acyclic (refs_by_name instance.chain).
Proof.
  apply ranked_acyclic with instance.chain_rank.
  apply (bool_decide_unpack _). vm_compute. exact I.
Defined.

Lemma chain_closed : closed (refs_by_name instance.chain).
Proof. apply (bool_decide_unpack _). vm_compute. exact I. Defined.

Lemma recursive_refs_is_closure_witness :
  exists S, recursive_refs 1000 instance.chain (lit "local") = Ok S.
Proof.
  apply (recursive_refs_is_closure instance.chain 1000 (lit "local")).
  - exact chain_acyclic.
  - exact chain_closed.
  - apply (bool_decide_unpack _). vm_compute. exact I.
  - apply (bool_decide_unpack _). vm_compute. exact I.
Defined.

(** The doctest: for base <- test <- local, the closure of [local] is
    base and test. *)
Example recursive_refs_chain :
  recursive_refs 1000 instance.chain (lit "local") =
  Ok {[ lit "base"; lit "test" ]}.
Proof. vm_compute. reflexivity. Qed.

Lemma recursive_refs_fails_on_cycle_witness :
  exists e, recursive_refs 1000 instance.loop (lit "test") = Raise e /\
            (e = RecursionError \/ exists key, e = KeyError key) /\
            (closed (refs_by_name instance.loop) -> e = RecursionError).
Proof.
  apply (recursive_refs_fails_on_cycle instance.loop 1000 (lit "test")
           (lit "test")).
  - left. reflexivity.
  - apply tc_l with (lit "dev"); [|apply tc_once];
      unfold edge; apply (bool_decide_unpack _); vm_compute; exact I.
Defined.

End recursive_refs_facts.

(** ** order_by_refs *)

Module order_by_refs_facts.

Import graph graph_facts pipcompilemulti.

(** *** One round of the sort *)

Lemma ordered_spec (data : gmap str (gset str)) k :
  k ∈ toposort_ordered data <-> data !! k = Some ∅.
Proof.
  unfold toposort_ordered. rewrite elem_of_dom. split.
  - intros [x Hx]. apply map_lookup_filter_Some in Hx as [Hx Hp].
    simpl in Hp. by subst.
  - intros H. exists ∅. by apply map_lookup_filter_Some.
Qed.

Lemma next_lookup (data : gmap str (gset str)) ordered k :
  toposort_next data ordered !! k =
  if decide (k ∈ ordered) then None
  else (fun dep => dep ∖ ordered) <$> data !! k.
Proof.
  unfold toposort_next. rewrite lookup_fmap, map_lookup_filter.
  destruct (data !! k) as [dep|]; simpl; [|by case_decide].
  case_guard; case_decide; simpl in *; done.
Qed.

Lemma next_dom (data : gmap str (gset str)) ordered k :
  k ∈ dom (toposort_next data ordered) <-> k ∈ dom data /\ k ∉ ordered.
Proof.
  rewrite !elem_of_dom, next_lookup. case_decide.
  - split; [by intros [? ?]|tauto].
  - rewrite fmap_is_Some. tauto.
Qed.

Lemma next_size (data : gmap str (gset str)) :
  toposort_ordered data ≠ ∅ ->
  (size (toposort_next data (toposort_ordered data)) < size data)%nat.
Proof.
  intros [k Hk]%set_choose_L. unfold toposort_next.
  rewrite map_size_fmap. apply map_subset_size, map_subset_alt.
  split; [apply map_filter_subseteq|].
  exists k. split.
  - apply map_lookup_filter_None. right. intros x _. simpl. tauto.
  - apply ordered_spec in Hk. by rewrite Hk.
Qed.

Lemma next_edge (data : gmap str (gset str)) ordered a b :
  edge (toposort_next data ordered) a b <->
  edge data a b /\ (a ∉ ordered) /\ (b ∉ ordered).
Proof.
  rewrite !edge_lookup. setoid_rewrite next_lookup. case_decide.
  - split; [by intros (? & ? & ?)|tauto].
  - split.
    + intros (refs & (dep & -> & Hdep)%fmap_Some & Hb). set_solver.
    + intros ((refs & Hrefs & Hb) & _ & Hn).
      exists (refs ∖ ordered). rewrite Hrefs. set_solver.
Qed.

Lemma next_closed (data : gmap str (gset str)) ordered :
  closed data -> closed (toposort_next data ordered).
Proof.
  intros Hc a refs Ha b Hb.
  assert (edge (toposort_next data ordered) a b) as He.
  { apply edge_lookup. eauto. }
  apply next_edge in He as (He & _ & Hn).
  apply next_dom. split; [by eapply closed_edge|done].
Qed.

Lemma reachable_mono (G G' : gmap str (gset str)) a b :
  (forall a b, edge G a b -> edge G' a b) ->
  reachable G a b -> reachable G' a b.
Proof.
  intros Hsub. unfold reachable.
  induction 1 as [a b H|a r b H _ IH]; [apply tc_once|eapply tc_l]; eauto.
Qed.

Lemma next_acyclic (data : gmap str (gset str)) ordered :
  acyclic data -> acyclic (toposort_next data ordered).
Proof.
  intros Hac a Ha. apply (Hac a). revert Ha. apply reachable_mono.
  intros x y H. by apply next_edge in H as [? _].
Qed.

(** Kahn's step never gets stuck on an acyclic closed graph. *)
Lemma ordered_non_empty (data : gmap str (gset str)) :
  acyclic data -> closed data -> data <> ∅ -> toposort_ordered data <> ∅.
Proof.
  intros Hac Hc (a & refs & Ha)%map_choose.
  destruct (acyclic_sink data a) as (s & _ & Hs); [done|done| |].
  { apply elem_of_dom. eauto. }
  apply ordered_spec in Hs. set_solver.
Qed.

(** *** The loop *)

Lemma ordered_empty : toposort_ordered ∅ = ∅.
Proof.
  apply set_eq. intros k. rewrite ordered_spec, lookup_empty. set_solver.
Qed.

(** The loop does not depend on the fuel once there is a unit of it for
    every name. *)
Lemma toposort_loop_fuel (f1 f2 : nat) (data : gmap str (gset str)) :
  size data <= f1 -> size data <= f2 ->
  toposort_loop f1 data = toposort_loop f2 data.
Proof.
  revert f2 data. induction f1 as [|f1 IH]; intros f2 data H1 H2.
  - apply Nat.le_0_r, map_size_empty_iff in H1 as ->.
    destruct f2; simpl; by rewrite ordered_empty, !decide_True.
  - destruct f2 as [|f2].
    + apply Nat.le_0_r, map_size_empty_iff in H2 as ->.
      simpl. by rewrite ordered_empty, !decide_True.
    + simpl. destruct (decide (toposort_ordered data = ∅)) as [|Hne]; [done|].
      pose proof (next_size data Hne).
      rewrite (IH f2); [done|lia..].
Qed.

Lemma toposort_loop_terminates (fuel : nat) (data : gmap str (gset str)) :
  acyclic data -> closed data -> size data <= fuel ->
  exists layers, toposort_loop fuel data = Ok layers.
Proof.
  revert data. induction fuel as [|fuel IH]; intros data Hac Hc Hsize.
  - apply Nat.le_0_r, map_size_empty_iff in Hsize as ->.
    exists []. simpl. rewrite decide_True; [by rewrite decide_True|].
    apply set_eq. intros k. rewrite ordered_spec, lookup_empty. set_solver.
  - simpl. destruct (decide (toposort_ordered data = ∅)) as [He|Hne].
    + destruct (decide (data = ∅)) as [|Hd]; [by eexists|].
      by destruct (ordered_non_empty data).
    + destruct (IH (toposort_next data (toposort_ordered data)))
        as [rest Hrest].
      * by apply next_acyclic.
      * by apply next_closed.
      * pose proof (next_size data Hne). lia.
      * rewrite Hrest. by eexists.
Qed.

Lemma toposort_loop_layers (fuel : nat) (data : gmap str (gset str)) layers :
  size data <= fuel ->
  toposort_loop fuel data = Ok layers ->
  (forall k, k ∈ dom data <-> exists i, in_layer layers i k) /\
  (forall i j k, in_layer layers i k -> in_layer layers j k -> i = j) /\
  (forall k d i j, edge data k d ->
     in_layer layers i d -> in_layer layers j k -> i < j).
Proof.
  revert data layers.
  induction fuel as [|fuel IH]; intros data layers Hsize; simpl.
  - apply Nat.le_0_r, map_size_empty_iff in Hsize as ->.
    rewrite decide_True.
    2:{ apply set_eq. intros k. rewrite ordered_spec, lookup_empty.
        set_solver. }
    rewrite decide_True by done. intros [= <-].
    split; [|split].
    + intros k. rewrite dom_empty_L. split; [set_solver|].
      by intros (i & L & ? & _).
    + by intros i j k (L & ? & _).
    + by intros k d i j _ (L & ? & _).
  - destruct (decide (toposort_ordered data = ∅)) as [He|Hne].
    + destruct (decide (data = ∅)) as [->|Hd]; [|done]. intros [= <-].
      split; [|split].
      * intros k. rewrite dom_empty_L. split; [set_solver|].
        by intros (i & L & ? & _).
      * by intros i j k (L & ? & _).
      * by intros k d i j _ (L & ? & _).
    + pose proof (next_size data Hne) as Hlt.
      set (ordered := toposort_ordered data) in *.
      destruct (toposort_loop fuel (toposort_next data ordered))
        as [rest|e] eqn:Hrest; [|done].
      simpl. intros [= <-].
      destruct (IH (toposort_next data ordered) rest) as (Hdom & Hdisj & Hord);
        [lia|done|].
      assert (forall k, in_layer (ordered :: rest) 0 k <-> k ∈ ordered) as H0.
      { intros k. unfold in_layer. simpl. split; [by intros (? & [= <-] & ?)|eauto]. }
      assert (forall i k, in_layer (ordered :: rest) (S i) k <->
                          in_layer rest i k) as HS by done.
      assert (forall i k, in_layer rest i k -> k ∈ dom data /\ k ∉ ordered) as Hrest_in.
      { intros i k Hk. apply next_dom, Hdom. eauto. }
      split; [|split].
      * intros k. split.
        -- intros Hk. destruct (decide (k ∈ ordered)) as [Hin|Hn].
           ++ exists 0. by apply H0.
           ++ destruct (proj1 (Hdom k)) as [i Hi]; [by apply next_dom|].
              exists (S i). by apply HS.
        -- intros ([|i] & Hi).
           ++ apply H0, ordered_spec in Hi. apply elem_of_dom. eauto.
           ++ apply HS, Hrest_in in Hi. tauto.
      * intros [|i] [|j] k Hi Hj; [done| | |].
        -- apply H0 in Hi. apply HS, Hrest_in in Hj. tauto.
        -- apply H0 in Hj. apply HS, Hrest_in in Hi. tauto.
        -- f_equal. eapply Hdisj; by apply HS.
      * intros k d i [|j] Hedge Hi Hj.
        -- apply H0, ordered_spec in Hj.
           apply edge_lookup in Hedge as (refs & ? & ?). set_solver.
        -- destruct i as [|i]; [lia|].
           apply HS in Hi, Hj.
           assert (i < j); [|lia]. eapply Hord; [|done..].
           apply next_edge. split; [done|].
           apply Hrest_in in Hi, Hj. tauto.
Qed.

(** *** The preparation *)

Lemma prepare_lookup (data : gmap str (gset str)) k :
  toposort_prepare data !! k =
  match data !! k with
  | Some refs => Some (refs ∖ {[ k ]})
  | None =>
      guard (k ∈ ⋃ (snd <$> map_to_list
                      (map_imap (fun k v => Some (v ∖ {[ k ]})) data)));;
      Some ∅
  end.
Proof.
  unfold toposort_prepare.
  rewrite lookup_union, lookup_gset_to_gmap, map_lookup_imap.
  destruct (data !! k) as [refs|] eqn:E; simpl.
  - by rewrite union_Some_l.
  - rewrite (left_id_L None _). apply option_guard_iff.
    rewrite elem_of_difference, elem_of_dom, map_lookup_imap, E. simpl.
    split; [tauto|]. intros ?. split; [done|]. by intros [? ?].
Qed.

Lemma prepare_extra (data : gmap str (gset str)) k :
  k ∈ ⋃ (snd <$> map_to_list
           (map_imap (fun k v => Some (v ∖ {[ k ]})) data)) <->
  exists a, edge data a k /\ a <> k.
Proof.
  rewrite elem_of_union_list. split.
  - intros (X & ([a refs] & -> & Ha)%list_elem_of_fmap & Hk).
    apply elem_of_map_to_list in Ha. rewrite map_lookup_imap in Ha.
    simpl in *. destruct (data !! a) as [refs'|] eqn:E; [|done].
    simpl in Ha. injection Ha as <-. exists a.
    rewrite edge_lookup. split; [exists refs'|]; set_solver.
  - intros (a & (refs & Hrefs & Hk)%edge_lookup & Hne).
    exists (refs ∖ {[ a ]}). split; [|set_solver].
    apply list_elem_of_fmap. exists (a, refs ∖ {[ a ]}). split; [done|].
    apply elem_of_map_to_list. by rewrite map_lookup_imap, Hrefs.
Qed.

Lemma prepare_edge (data : gmap str (gset str)) a b :
  edge (toposort_prepare data) a b <-> edge data a b /\ a <> b.
Proof.
  rewrite !edge_lookup. setoid_rewrite prepare_lookup.
  destruct (data !! a) as [refs|].
  - split.
    + intros (refs' & [= <-] & Hb). split; [exists refs|]; set_solver.
    + intros ((refs' & [= <-] & Hb) & Hne). eexists. split; [done|set_solver].
  - split; [|by intros [(? & ? & _) _]].
    intros (refs' & H & Hb). case_guard; simplify_eq/=. set_solver.
Qed.

Lemma prepare_dom (data : gmap str (gset str)) k :
  k ∈ dom (toposort_prepare data) <->
  k ∈ dom data \/ exists a, edge data a k /\ a <> k.
Proof.
  rewrite !elem_of_dom, prepare_lookup, <- prepare_extra.
  destruct (data !! k) as [refs|]; simpl.
  - split; [left|]; eauto.
  - case_guard; simpl.
    + split; [by right|by eauto].
    + split; [by intros [? ?]|]. intros [[? ?]|?]; done.
Qed.

Lemma prepare_closed (data : gmap str (gset str)) :
  closed (toposort_prepare data).
Proof.
  intros a refs Ha b Hb. apply prepare_dom. right. exists a.
  apply prepare_edge, edge_lookup. eauto.
Qed.

Lemma prepare_acyclic (data : gmap str (gset str)) :
  acyclic data -> acyclic (toposort_prepare data).
Proof.
  intros Hac a Ha. apply (Hac a). revert Ha. apply reachable_mono.
  intros x y H. by apply prepare_edge in H as [? _].
Qed.

(** *** Flattening the layers *)

Lemma sorted_elem (L : gset str) k : k ∈ sorted L <-> k ∈ L.
Proof. unfold sorted. by rewrite merge_sort_Permutation, elem_of_elements. Qed.

Lemma sorted_NoDup (L : gset str) : NoDup (sorted L).
Proof. unfold sorted. rewrite merge_sort_Permutation. apply NoDup_elements. Qed.

Lemma flat_elem (layers : list (gset str)) k :
  k ∈ concat (sorted <$> layers) <-> exists i, in_layer layers i k.
Proof.
  induction layers as [|L layers IH]; simpl.
  - split; [by intros ?%elem_of_nil|]. by intros (i & ? & ? & _).
  - rewrite elem_of_app, sorted_elem, IH. split.
    + intros [Hk|[i Hi]]; [exists 0|exists (S i)]; [|done].
      exists L. eauto.
    + intros ([|i] & Hi); [left|right; by exists i].
      by destruct Hi as (? & [= <-] & ?).
Qed.

Lemma flat_order (layers : list (gset str)) :
  (forall i j k, in_layer layers i k -> in_layer layers j k -> i = j) ->
  NoDup (concat (sorted <$> layers)) /\
  (forall i j d k p q,
     in_layer layers i d -> in_layer layers j k -> i < j ->
     concat (sorted <$> layers) !! p = Some d ->
     concat (sorted <$> layers) !! q = Some k -> p < q).
Proof.
  induction layers as [|L layers IH]; intros Hdisj; simpl.
  - split; [constructor|]. by intros i j d k p q (? & ? & _).
  - assert (forall k, in_layer (L :: layers) 0 k <-> k ∈ L) as H0.
    { intros k. unfold in_layer. simpl.
      split; [by intros (? & [= <-] & ?)|eauto]. }
    assert (forall i k, in_layer (L :: layers) (S i) k <->
                        in_layer layers i k) as HS by done.
    assert (forall k, k ∈ L -> k ∈ concat (sorted <$> layers) -> False)
      as Hfresh.
    { intros k Hk [i Hi]%flat_elem.
      apply H0 in Hk. apply HS in Hi. by specialize (Hdisj _ _ _ Hk Hi). }
    destruct IH as [Hnodup Hord].
    { intros i j k Hi Hj. apply HS in Hi, Hj.
      specialize (Hdisj _ _ _ Hi Hj). lia. }
    split.
    + apply NoDup_app. split; [apply sorted_NoDup|]. split; [|done].
      intros k Hk%sorted_elem Hk'. eauto.
    + intros i [|j] d k p q Hi Hj Hlt Hp Hq; [lia|].
      apply HS in Hj.
      apply lookup_app_Some in Hq as [Hq|[Hlen Hq]].
      { exfalso. apply (Hfresh k).
        - eapply sorted_elem, list_elem_of_lookup_2, Hq.
        - apply flat_elem. eauto. }
      apply lookup_app_Some in Hp as [Hp|[Hlen' Hp]].
      { apply lookup_lt_Some in Hp. lia. }
      destruct i as [|i].
      { exfalso. apply (Hfresh d); [by apply H0|].
        by eapply list_elem_of_lookup_2. }
      apply HS in Hi.
      assert (p - length (sorted L) < q - length (sorted L)); [|lia].
      eapply (Hord i j d k); eauto. lia.
Qed.

(** The names [toposort_flatten] returns for an acyclic graph: each
    once, and every name after the names it reaches. *)
Lemma toposort_flatten_order (data : gmap str (gset str)) names :
  acyclic data ->
  toposort_flatten data = Ok names ->
  NoDup names /\
  (forall k, k ∈ names <-> k ∈ dom (toposort_prepare data)) /\
  (forall k d p q, reachable data k d ->
     names !! p = Some d -> names !! q = Some k -> p < q).
Proof.
  intros Hac. unfold toposort_flatten, toposort.
  destruct (decide (data = ∅)) as [->|Hne]; simpl.
  - intros [= <-]. split; [constructor|]. split; [|done].
    intros k. rewrite prepare_dom, dom_empty_L. split; [by intros ?%elem_of_nil|].
    intros [?|(a & (? & ? & _)%edge_lookup & _)]; set_solver.
  - destruct (toposort_loop _ _) as [layers|e] eqn:Hloop; [|done].
    simpl. intros [= <-].
    apply toposort_loop_layers in Hloop as (Hdom & Hdisj & Hord); [|done].
    destruct (flat_order layers Hdisj) as [Hnodup Hflat].
    split; [done|]. split; [intros k; by rewrite flat_elem, Hdom|].
    assert (forall k d p q, edge data k d ->
              concat (sorted <$> layers) !! p = Some d ->
              concat (sorted <$> layers) !! q = Some k -> p < q) as Hedge.
    { intros k d p q He Hp Hq.
      assert (k <> d) as Hkd.
      { intros ->. apply (Hac d). by apply tc_once. }
      assert (exists i, in_layer layers i d) as [i Hi].
      { by eapply flat_elem, list_elem_of_lookup_2. }
      assert (exists j, in_layer layers j k) as [j Hj].
      { by eapply flat_elem, list_elem_of_lookup_2. }
      eapply (Hflat i j d k); try done.
      eapply Hord; [|done..]. by apply prepare_edge. }
    intros k d p q Hreach. revert p q.
    induction Hreach as [k d He|k r d He Hreach IH]; intros p q Hp Hq.
    + by eapply Hedge.
    + assert (r ∈ concat (sorted <$> layers)) as [pr Hpr]%list_elem_of_lookup.
      { apply flat_elem, Hdom, prepare_dom. right. exists k. split; [done|].
        intros ->. apply (Hac r). by apply tc_once. }
      specialize (IH p pr Hp Hpr).
      specialize (Hedge k r pr q He Hpr Hq). lia.
Qed.

(** *** order_by_refs *)

Lemma by_name_spec envs :
  let by_name : gmap str conf :=
    foldl (fun m env => <[conf_name env := env]> m) ∅ envs in
  dom by_name = dom (refs_by_name envs) /\
  (forall n e, by_name !! n = Some e -> conf_name e = n).
Proof.
  unfold refs_by_name.
  assert (forall (B : gmap str conf) (T : gmap str (gset str)),
    dom B = dom T -> (forall n e, B !! n = Some e -> conf_name e = n) ->
    dom (foldl (fun m env => <[conf_name env := env]> m) B envs) =
    dom (foldl (fun m env => <[conf_name env := conf_refs env]> m) T envs) /\
    (forall n e,
       foldl (fun m env => <[conf_name env := env]> m) B envs !! n = Some e ->
       conf_name e = n)) as H.
  { induction envs as [|env envs IH]; intros B T Hdom HB; [done|].
    simpl. apply IH.
    - by rewrite !dom_insert_L, Hdom.
    - intros n e. rewrite lookup_insert. case_decide; [|by apply HB].
      by intros [= <-]. }
  apply H; [by rewrite !dom_empty_L|done].
Qed.

Section Envs.

Variable envs : list conf.

Abbreviation G := (refs_by_name envs).

(** C3.  For an acyclic list of environments, [order_by_refs] returns a
    list whenever every reference names a listed environment; the list
    it returns holds every environment name once, and every environment
    comes strictly after each environment of its direct and transitive
    reference set. *)
Theorem order_by_refs_topological :
  acyclic G ->
  (closed G -> exists result, order_by_refs envs = Ok result) /\
  (forall result, order_by_refs envs = Ok result ->
     NoDup (conf_name <$> result) /\
     (forall name, name ∈ conf_name <$> result <-> name ∈ dom G) /\
     (forall i j r e,
        result !! i = Some r -> result !! j = Some e ->
        reachable G (conf_name e) (conf_name r) -> i < j)).
Proof.
  intros Hac. unfold order_by_refs.
  destruct (by_name_spec envs) as [Hdom Hname]. simpl in Hdom, Hname.
  split.
  - intros Hc.
    assert (exists names, toposort_flatten G = Ok names) as [names Hnames].
    { unfold toposort_flatten, toposort.
      destruct (decide (G = ∅)); [by eexists|].
      destruct (toposort_loop_terminates (size (toposort_prepare G))
                  (toposort_prepare G)) as [layers ->];
        [by apply prepare_acyclic|apply prepare_closed|done|by eexists]. }
    rewrite Hnames. simpl.
    destruct (toposort_flatten_order G names Hac Hnames) as (_ & Hin & _).
    match goal with
    | |- exists result, mapM ?f ?l = Ok result =>
        destruct (mapM_Ok f (fun _ _ => True) l) as (result & Hresult & _);
          [|by exists result]
    end.
    intros name Hn. apply Hin, prepare_dom in Hn.
    assert (name ∈ dom G) as Hd.
    { destruct Hn as [?|(a & He & _)]; [done|]. by eapply closed_edge. }
    rewrite <- Hdom in Hd. apply elem_of_dom in Hd as [env ->]. eauto.
  - intros result.
    destruct (toposort_flatten G) as [names|e] eqn:Hnames; [|done]. simpl.
    intros Hresult%mapM_Ok_inv.
    destruct (toposort_flatten_order G names Hac Hnames)
      as (Hnodup & Hin & Hord).
    assert (conf_name <$> result = names) as Hmap.
    { clear -Hresult Hname. induction Hresult as [|n e ns es Hne _ IH]; [done|].
      simpl. f_equal; [|done]. apply Hname.
      by destruct (_ !! n) as [e'|]; simplify_eq. }
    rewrite Hmap. split; [done|]. split.
    + intros name. rewrite Hin, prepare_dom. split; [|tauto].
      intros [?|(a & He & _)]; [done|].
      assert (name ∈ names) as [p Hp]%list_elem_of_lookup.
      { apply Hin, prepare_dom. right. exists a. split; [done|].
        intros ->. apply (Hac name). by apply tc_once. }
      destruct (Forall2_lookup_l _ _ _ _ _ Hresult Hp) as (env & _ & Henv).
      rewrite <- Hdom. apply elem_of_dom.
      destruct (_ !! name) as [e'|]; [eauto|done].
    + intros i j r e Hi Hj Hreach.
      apply (Hord (conf_name e) (conf_name r)); [done|..];
        rewrite <- Hmap, list_lookup_fmap; [by rewrite Hi|by rewrite Hj].
Qed.

End Envs.

Lemma order_by_refs_topological_witness :
  (closed (refs_by_name instance.chain) ->
   exists result, order_by_refs instance.chain = Ok result) /\
  (forall result, order_by_refs instance.chain = Ok result ->
     NoDup (conf_name <$> result) /\
     (forall name, name ∈ conf_name <$> result <->
                   name ∈ dom (refs_by_name instance.chain)) /\
     (forall i j r e,
        result !! i = Some r -> result !! j = Some e ->
        reachable (refs_by_name instance.chain) (conf_name e) (conf_name r) ->
        i < j)).
Proof.
  apply (order_by_refs_topological instance.chain).
  exact recursive_refs_facts.chain_acyclic.
Defined.

(** The doctest of [discover]: base, test, local in this order, also
    when the files are found in another order. *)
Example order_by_refs_chain :
  order_by_refs (rev instance.chain) = Ok instance.chain.
Proof. vm_compute. reflexivity. Qed.

End order_by_refs_facts.

(** ** verify *)

Module verify_facts.

Import pipcompilemulti.

Section Program.

Variable sha1_hexdigest : str -> str.
Variable sys_version_major : nat.
Variable OPTIONS : Options.

Abbreviation verify_step := (verify_step sha1_hexdigest sys_version_major OPTIONS).
Abbreviation verify_loop := (verify_loop sha1_hexdigest sys_version_major OPTIONS).
Abbreviation verify := (verify sha1_hexdigest sys_version_major OPTIONS).
Abbreviation up_to_date := (up_to_date sha1_hexdigest sys_version_major OPTIONS).
Abbreviation verifying := (verifying sys_version_major OPTIONS).
Abbreviation generate_hash_comment := (generate_hash_comment sha1_hexdigest).

Abbreviation checkable := (checkable sha1_hexdigest sys_version_major OPTIONS).

Lemma verify_step_checkable fs c success :
  checkable fs c ->
  exists log, verify_step fs c success =
                (verifying c :: log, Ok (success && up_to_date fs c)).
Proof.
  intros (current & existing & Hcur & Hex).
  unfold verify_step, pipcompilemulti.verify_step, up_to_date,
    pipcompilemulti.up_to_date, verifying, pipcompilemulti.verifying.
  rewrite Hcur, Hex. case_decide as Heq.
  - simplify_eq. rewrite bool_decide_eq_true_2 by done.
    rewrite andb_true_r. by eexists.
  - rewrite bool_decide_eq_false_2 by congruence.
    rewrite andb_false_r. by eexists.
Qed.

Lemma verify_loop_checkable fs env_confs success :
  Forall (checkable fs) env_confs ->
  exists log,
    verify_loop fs env_confs success =
      (log, Ok (success && forallb (up_to_date fs) env_confs)) /\
    Forall (fun c => verifying c ∈ log) env_confs.
Proof.
  intros H. revert success.
  induction H as [|c env_confs Hc _ IH]; intros success; simpl.
  - exists []. by rewrite andb_true_r.
  - destruct (verify_step_checkable fs c success Hc) as [log Hstep].
    fold verify_step. rewrite Hstep.
    destruct (IH (success && up_to_date fs c)) as (log' & Hloop & Hlog).
    fold verify_loop. rewrite Hloop. rewrite <- andb_assoc.
    eexists. split; [done|]. constructor.
    + set_solver.
    + eapply Forall_impl; [done|]. set_solver.
Qed.

(** When every output file carries a fingerprint line, every
    environment is checked and the command fails exactly when some
    fingerprint is out of date. *)
Lemma verify_checks_all fs env_confs :
  Forall (checkable fs) env_confs ->
  exists log,
    verify fs env_confs =
      (log, if forallb (up_to_date fs) env_confs then Returned else Exit 1) /\
    Forall (fun c => verifying c ∈ log) env_confs.
Proof.
  intros H. destruct (verify_loop_checkable fs env_confs true H)
    as (log & Hloop & Hlog).
  exists log. split; [|done].
  unfold verify, pipcompilemulti.verify. fold verify_loop. by rewrite Hloop.
Qed.

End Program.

(** C9, where the code departs from it.  The output file of [base] has
    no fingerprint line: [verify] fails with an [AttributeError] while
    reporting [base], and [test] is never looked at. *)
Theorem verify_stops_without_hash_comment sha1_hexdigest :
  verify sha1_hexdigest 3 OPTIONS_initial instance.unmarked
         instance.base_and_test =
  ([ Log INFO "Verifying that %s was generated from %s."
         [lit "requirements/base.txt"; lit "requirements/base.in"];
     Log ERROR "FAILURE!" [];
     Log ERROR "Expecting: %s"
         [strip (lit "# SHA1:" ++ sha1_hexdigest (lit "flask") ++ [newline])] ],
   Raised (AttributeError "'NoneType' object has no attribute 'strip'")).
Proof. vm_compute. reflexivity. Qed.

End verify_facts.

(** ** More on dependency lines *)

Module dependency_more.

Import Str_facts Re_facts dependency_facts pipcompilemulti.

(** What follows a successful repetition was given a split of the input
    whose first part is in the class. *)
Lemma star_Some {A} p s (k : str -> str -> option A) r :
  star p s k = Some r ->
  exists m t, s = m ++ t /\ forallb p m = true /\ k m t = Some r.
Proof.
  revert k. induction s as [|c s IH]; intros k; simpl.
  - intros H. by exists [], [].
  - destruct (p c) eqn:Hc; [|intros H; by exists [], (c :: s)].
    destruct (star p s _) as [x|] eqn:E.
    + intros [= ->]. apply IH in E as (m & t & -> & Hm & Hk).
      exists (c :: m), t. simpl. by rewrite Hc.
    + intros H. by exists [], (c :: s).
Qed.

Lemma forallb_space_repeat s :
  forallb space s = true -> s = repeat " " (length s).
Proof.
  induction s as [|c s IH]; [done|]. simpl.
  intros [Hc Hs]%andb_true_iff. apply eqb_eq in Hc as ->. by rewrite <- IH.
Qed.

Lemma star_all {A} p m (k : str -> str -> option A) r :
  forallb p m = true -> k m [] = Some r -> star p m k = Some r.
Proof.
  intros Hm Hk. rewrite <- (app_nil_r m) at 1. by apply star_stop.
Qed.

Lemma find_app_tail c tail :
  find c (lit "==") = None -> tail = [] \/ tail = [newline] ->
  find (c ++ tail) (lit "==") = None.
Proof.
  intros Hc [->| ->]; [by rewrite app_nil_r|].
  induction c as [|x c IH]; [done|].
  cbn [find] in Hc.
  destruct (startswith (x :: c) (lit "==")) eqn:Hx; [done|].
  destruct (find c (lit "==")) eqn:E; [done|].
  apply find_None_cons; [|by apply IH].
  simpl in *. destruct (eqb "=" x); [|done]. simpl in *.
  destruct c as [|y c]; [done|]. simpl in *.
  by destruct (eqb "=" y).
Qed.

Lemma strip_newline v :
  v <> [] -> forallb (fun c => negb (isspace c)) v = true ->
  strip (v ++ [newline]) = v.
Proof.
  intros Hne Hv. unfold strip.
  assert (lstrip (v ++ [newline]) = v ++ [newline]) as ->.
  { destruct v as [|x v]; [done|]. simpl in *.
    apply andb_true_iff in Hv as [Hx _]. apply negb_true_iff in Hx.
    by rewrite Hx. }
  unfold rstrip. rewrite rev_app_distr. simpl.
  change (rev (lstrip (rev v))) with (rstrip v).
  rewrite <- (app_nil_l v). by apply rstrip_app_no_space.
Qed.

Lemma Dependency_init_plain p v pad c tail :
  p <> [] -> forallb dot p = true ->
  v <> [] -> forallb (fun c => negb (isspace c) && negb (eqb c "=")) v = true ->
  c = [] \/
    (startswith c ["#"] = true /\ forallb dot c = true /\
     find c (lit "==") = None /\ 0 < pad) ->
  tail = [] \/ tail = [newline] ->
  Dependency_init (p ++ lit "==" ++ v ++ repeat " " pad ++ c ++ tail) =
    Some {| package := p; version := v; comment := strip c |}.
Proof.
  intros Hp Hdot Hv Hver Hc Htail.
  destruct p as [|c0 p]; [done|]. simpl in Hdot.
  apply andb_true_iff in Hdot as [Hc0 Hdot].
  destruct v as [|v0 v]; [done|].
  assert (Hvs : forallb (fun c => negb (isspace c)) (v0 :: v) = true).
  { apply forallb_forall. intros x Hx.
    eapply forallb_forall in Hver; [|done].
    by apply andb_true_iff in Hver as [? _]. }
  simpl in Hver.
  apply andb_true_iff in Hver as [Hv0 Hver].
  apply andb_true_iff in Hv0 as [Hv0s Hv0e].
  assert (Hnoeq : forallb (fun c => negb (eqb c "=")) (v ++ repeat " " pad)
                  = true).
  { rewrite forallb_app. apply andb_true_iff. split.
    - apply forallb_forall. intros x Hx.
      eapply forallb_forall in Hver; [|done].
      by apply andb_true_iff in Hver as [_ ?].
    - apply forallb_forall. by intros x ->%repeat_spec. }
  assert (Hnosp : forallb not_space v = true).
  { apply forallb_forall. intros x Hx.
    eapply forallb_forall in Hver; [|done].
    apply andb_true_iff in Hver as [Hs _]. unfold not_space.
    destruct (eqb x " ") eqn:E; [|done]. by apply eqb_eq in E as ->. }
  assert (Hfind : find (c ++ tail) (lit "==") = None).
  { apply find_app_tail; [|done].
    destruct Hc as [->|(_ & _ & ? & _)]; done. }
  assert (Hv0n : not_space v0 = true).
  { unfold not_space. destruct (eqb v0 " ") eqn:E; [|done].
    by apply eqb_eq in E as ->. }
  assert (exists V,
    match_ RE_DEPENDENCY
      ((c0 :: p) ++ lit "==" ++ (v0 :: v) ++ repeat " " pad ++ c ++ tail) =
    Some ((if bool_decide (c = []) then [] else [("comment"%string, c)]) ++
          [("version"%string, V); ("package"%string, c0 :: p)]) /\
    strip V = v0 :: v) as (V & Hmatch & HV).
  { destruct (decide (pad = 0 /\ tail = [newline])) as [[-> ->]|Hcase].
    - (* the version runs up to the end of the line *)
      destruct Hc as [->|(_ & _ & _ & ?)]; [|lia].
      exists ((v0 :: v) ++ [newline]). split; [|by apply strip_newline].
      unfold match_, RE_DEPENDENCY. cbn [run app repeat]. rewrite Hc0.
      apply star_split; [done| |].
      + cbn [startswith lit list_ascii_of_string length drop app].
        rewrite !eqb_refl. cbn [andb]. rewrite Hv0n.
        apply star_all; [by rewrite forallb_app, Hnosp|].
        by rewrite bool_decide_eq_true_2 by done.
      + (* no later split *)
        intros t1 t2 Ht Hne Hp1.
        destruct t1 as [|x t1]; [done|].
        change (lit "==" ++ (v0 :: v) ++ [newline])
          with ("=" :: "=" :: v0 :: v ++ [newline]) in Ht.
        injection Ht as <- Ht.
        rewrite (find_None_suffix ("=" :: v0 :: v ++ [newline])
                   (lit "==") t1 t2); [done| |done].
        apply find_None_cons.
        * simpl. apply negb_true_iff in Hv0e. rewrite eqb_neq in Hv0e.
          rewrite (proj2 (eqb_neq "=" v0)); [done|congruence].
        * change (v0 :: v ++ [newline]) with ((v0 :: v) ++ [newline]).
          apply find_eqeq_skip; [|done].
          simpl. rewrite Hv0e. simpl. rewrite forallb_app in Hnoeq.
          by apply andb_true_iff in Hnoeq as [? _].
    - exists (v0 :: v). split; [|by apply strip_no_space].
      unfold match_, RE_DEPENDENCY. cbn [run app]. rewrite Hc0.
      apply star_split; [done| |].
      + cbn [startswith lit list_ascii_of_string length drop app].
        rewrite !eqb_refl. cbn [andb]. rewrite Hv0n.
        apply star_stop; [done| |].
        { destruct pad; simpl; [|done].
          destruct Hc as [->|(_ & _ & _ & ?)]; [|lia].
          destruct Htail as [->| ->]; [done|]. by destruct Hcase. }
        apply star_stop.
        { apply forallb_forall. by intros x ->%repeat_spec. }
        { destruct Hc as [->|(Hs & _)].
          - by destruct Htail as [->| ->].
          - destruct c as [|x c]; [done|]. simpl in Hs.
            apply andb_true_iff in Hs as [<-%eqb_eq _]. done. }
        destruct Hc as [->|(Hs & Hcdot & _)].
        * rewrite bool_decide_eq_true_2 by done.
          by destruct Htail as [->| ->].
        * destruct c as [|x c]; [done|]. simpl in Hs, Hcdot.
          apply andb_true_iff in Hs as [<-%eqb_eq _].
          apply andb_true_iff in Hcdot as [_ Hcdot].
          rewrite bool_decide_eq_false_2 by done.
          cbn [startswith lit list_ascii_of_string length drop app].
          rewrite !eqb_refl. cbn [andb]. rewrite drop_0.
          erewrite star_stop; [done|done| |].
          -- by destruct Htail as [->| ->].
          -- by destruct Htail as [->| ->].
      + (* no later split *)
        intros t1 t2 Ht Hne Hp1.
        destruct t1 as [|x t1]; [done|].
        change (lit "==" ++ (v0 :: v) ++ repeat " " pad ++ c ++ tail)
          with ("=" :: "=" :: v0 :: v ++ repeat " " pad ++ c ++ tail) in Ht.
        injection Ht as <- Ht.
        rewrite (find_None_suffix
                   ("=" :: v0 :: v ++ repeat " " pad ++ c ++ tail)
                   (lit "==") t1 t2); [done| |done].
        apply find_None_cons.
        * simpl. apply negb_true_iff in Hv0e. rewrite eqb_neq in Hv0e.
          rewrite (proj2 (eqb_neq "=" v0)); [done|congruence].
        * change (v0 :: v ++ repeat " " pad ++ c ++ tail)
            with ((v0 :: v) ++ repeat " " pad ++ c ++ tail).
          rewrite (assoc_L (++)). apply find_eqeq_skip; [|done].
          simpl. by rewrite Hv0e. }
  unfold Dependency_init. rewrite Hmatch.
  destruct Hc as [->|(Hs & _)].
  - simpl. by rewrite HV.
  - destruct c as [|x c]; [done|]. simpl. by rewrite HV.
Qed.
(** X1.  What [Dependency] accepts.  A line it accepts is the package,
    [==], the raw version, spaces, the raw comment and at most a final
    newline: the package is not empty and holds no newline, the raw
    version is not empty and holds no space, the comment is empty or
    starts with the comment marker, and the version and comment of the
    object are the raw ones trimmed.  And it accepts every line made of
    a package on one line, [==], a version without whitespace or equals
    sign, then spaces only or at least one space and a one-line comment
    that starts with the comment marker and holds no [==], and at most
    a final newline: the object has that package, that version and the
    trimmed comment. *)
Theorem Dependency_init_shape :
  (forall line dep,
     Dependency_init line = Some dep ->
     exists V pad craw tail,
       line = package dep ++ lit "==" ++ V ++ repeat " " pad ++ craw ++ tail /\
       package dep <> [] /\ forallb dot (package dep) = true /\
       V <> [] /\ forallb not_space V = true /\ version dep = strip V /\
       (craw = [] \/ startswith craw ["#"] = true) /\
       forallb dot craw = true /\ comment dep = strip craw /\
       (tail = [] \/ tail = [newline])) /\
  (forall p v pad c tail,
     p <> [] -> forallb dot p = true ->
     v <> [] ->
     forallb (fun c => negb (isspace c) && negb (eqb c "=")) v = true ->
     c = [] \/
       (startswith c ["#"] = true /\ forallb dot c = true /\
        find c (lit "==") = None /\ 0 < pad) ->
     tail = [] \/ tail = [newline] ->
     Dependency_init (p ++ lit "==" ++ v ++ repeat " " pad ++ c ++ tail) =
       Some {| package := p; version := v; comment := strip c |}).
Proof.
  split; [|apply Dependency_init_plain].
  intros line dep.
  unfold Dependency_init, match_, RE_DEPENDENCY. cbn [run].
  destruct line as [|c0 line]; [done|].
  destruct (dot c0) eqn:Hc0; [|done].
  destruct (star dot line _) as [g|] eqn:E; [|done]. intros [= <-].
  apply star_Some in E as (m & t & -> & Hm & E).
  destruct (startswith t (lit "==")) eqn:Ht; [|done].
  apply startswith_prefix in Ht as [t' ->].
  change (drop (length (lit "==")) (lit "==" ++ t')) with t' in E.
  destruct t' as [|c1 s1]; [done|].
  destruct (not_space c1) eqn:Hc1; [|done].
  apply star_Some in E as (m2 & t2 & -> & Hm2 & E).
  apply star_Some in E as (m3 & t3 & -> & Hm3 & E).
  rewrite (forallb_space_repeat m3 Hm3).
  destruct (startswith t3 (lit "#")) eqn:Hhash.
  - apply startswith_prefix in Hhash as [t4 ->].
    change (drop (length (lit "#")) (lit "#" ++ t4)) with t4 in E.
    destruct (star dot t4 _) as [g'|] eqn:E4.
    + injection E as <-.
      apply star_Some in E4 as (m4 & t5 & -> & Hm4 & E4).
      assert (g' = [("comment"%string, "#" :: m4);
                    ("version"%string, c1 :: m2);
                    ("package"%string, c0 :: m)] /\
              (t5 = [] \/ t5 = [newline])) as [-> Htail].
      { destruct t5 as [|c5 [|? ?]]; [|destruct (eqb c5 newline) eqn:E5|done].
        - injection E4 as <-. eauto.
        - apply eqb_eq in E5 as ->. injection E4 as <-. eauto.
        - done. }
      exists (c1 :: m2), (length m3), ("#" :: m4), t5. simpl.
      rewrite Hc0, Hm, Hc1, Hm2, Hm4. simpl.
      repeat split; try done. by right.
    + (* the comment does not reach the end of the line *)
      exfalso. simpl in E. by destruct t4 as [|? [|? ?]].
  - assert (g = [("version"%string, c1 :: m2); ("package"%string, c0 :: m)] /\
            (t3 = [] \/ t3 = [newline])) as [-> Htail].
    { destruct t3 as [|c5 [|? ?]]; [|destruct (eqb c5 newline) eqn:E5|done].
      - injection E as <-. eauto.
      - apply eqb_eq in E5 as ->. injection E as <-. eauto.
      - done. }
    exists (c1 :: m2), (length m3), [], t3. simpl.
    rewrite Hc0, Hm, Hc1, Hm2. simpl.
    repeat split; try done. by left.
Qed.

Lemma Dependency_init_shape_witness :
  Dependency_init (lit "unidecode==0.4.21         # via myapp" ++ [newline]) =
    Some {| package := lit "unidecode"; version := lit "0.4.21";
            comment := lit "# via myapp" |} /\
  exists V pad craw tail,
    lit "unidecode==0.4.21         # via myapp" ++ [newline] =
      lit "unidecode" ++ lit "==" ++ V ++ repeat " " pad ++ craw ++ tail /\
    lit "unidecode" <> [] /\ forallb dot (lit "unidecode") = true /\
    V <> [] /\ forallb not_space V = true /\ lit "0.4.21" = strip V /\
    (craw = [] \/ startswith craw ["#"] = true) /\
    forallb dot craw = true /\ lit "# via myapp" = strip craw /\
    (tail = [] \/ tail = [newline]).
Proof.
  assert (Dependency_init
            (lit "unidecode==0.4.21         # via myapp" ++ [newline]) =
          Some {| package := lit "unidecode"; version := lit "0.4.21";
                  comment := lit "# via myapp" |}) as Haccepted.
  { refine (proj2 Dependency_init_shape (lit "unidecode") (lit "0.4.21") 9
              (lit "# via myapp") [newline] _ _ _ _ _ _).
    - discriminate.
    - vm_compute. reflexivity.
    - discriminate.
    - vm_compute. reflexivity.
    - right. repeat split; try (vm_compute; reflexivity). lia.
    - by right. }
  split; [exact Haccepted|].
  exact (proj1 Dependency_init_shape _ _ Haccepted).
Defined.

(** *** drop_post *)

Lemma startswith_take n s sub :
  startswith (take n s) sub = true -> startswith s sub = true.
Proof.
  rewrite !startswith_prefix. intros [t Ht].
  exists (t ++ drop n s). by rewrite (assoc_L (++)), <- Ht, take_drop.
Qed.

(** Before the first occurrence there is none. *)
Lemma find_take s sub i :
  sub <> [] -> find s sub = Some i -> find (take i s) sub = None.
Proof.
  intros Hsub. revert i. induction s as [|x s IH]; intros i.
  - simpl. destruct sub; [done|]. simpl. done.
  - cbn [find]. destruct (startswith (x :: s) sub) eqn:Hx.
    + intros [= <-]. simpl. by destruct sub.
    + destruct (find s sub) as [i'|] eqn:E; [|done]. intros [= <-].
      cbn [take find].
      destruct (startswith (x :: take i' s) sub) eqn:Hx'.
      { change (x :: take i' s) with (take (S i') (x :: s)) in Hx'.
        apply startswith_take in Hx'. congruence. }
      by rewrite (IH i').
Qed.

(** The first occurrence, by what comes before it. *)
Lemma find_first s sub before after :
  s = before ++ sub ++ after ->
  (forall a b, s = a ++ sub ++ b -> length before <= length a) ->
  find s sub = Some (length before).
Proof.
  revert s. induction before as [|x before IH]; intros s -> Hfirst.
  - simpl. destruct (sub ++ after) eqn:E; simpl.
    + destruct sub; [done|]. done.
    + by rewrite <- E, startswith_app.
  - cbn [app find].
    destruct (startswith (x :: before ++ sub ++ after) sub) eqn:Hx.
    + apply startswith_prefix in Hx as [t Ht].
      specialize (Hfirst [] t Ht). simpl in Hfirst. lia.
    + rewrite (IH (before ++ sub ++ after)); [done|done|].
      intros a b Hab. specialize (Hfirst (x :: a) b).
      simpl in Hfirst. rewrite Hab in Hfirst.
      specialize (Hfirst eq_refl). lia.
Qed.

Lemma find_absent s sub :
  (forall a b, s <> a ++ sub ++ b) -> find s sub = None.
Proof.
  induction s as [|x s IH]; intros Habsent.
  - simpl. destruct (startswith [] sub) eqn:E; [|done].
    apply startswith_prefix in E as [t Ht]. by destruct (Habsent [] t).
  - cbn [find]. destruct (startswith (x :: s) sub) eqn:E.
    + apply startswith_prefix in E as [t Ht]. by destruct (Habsent [] t).
    + rewrite IH; [done|]. intros a b ->. by apply (Habsent (x :: a) b).
Qed.

(** X2.  [drop_post] cuts the version where its first [.post] starts
    and changes nothing else; a version without [.post] is kept, and
    with it the whole object; dropping twice is dropping once. *)
Theorem drop_post_first dep :
  (forall before after,
     version dep = before ++ lit ".post" ++ after ->
     (forall a b, version dep = a ++ lit ".post" ++ b ->
                  length before <= length a) ->
     drop_post dep = {| package := package dep; version := before;
                        comment := comment dep |}) /\
  ((forall a b, version dep <> a ++ lit ".post" ++ b) ->
   drop_post dep = dep) /\
  drop_post (drop_post dep) = drop_post dep.
Proof.
  split; [|split].
  - intros before after Hversion Hfirst. unfold drop_post.
    rewrite (find_first _ _ before after Hversion Hfirst).
    by rewrite Hversion, take_app_length.
  - intros Habsent. unfold drop_post. by rewrite find_absent.
  - assert (Hnone : find (version (drop_post dep)) (lit ".post") = None).
    { unfold drop_post.
      destruct (find (version dep) _) as [i|] eqn:E; [|done].
      simpl. by apply find_take. }
    unfold drop_post at 1. by rewrite Hnone.
Qed.

Lemma drop_post_first_witness :
  drop_post {| package := lit "myapp"; version := lit "1.2.post7.post8";
               comment := [] |} =
    {| package := lit "myapp"; version := lit "1.2"; comment := [] |}.
Proof.
  refine (proj1 (drop_post_first
                   {| package := lit "myapp";
                      version := lit "1.2.post7.post8"; comment := [] |})
                (lit "1.2") (lit "7.post8") _ _).
  - reflexivity.
  - intros a b Hab. simpl in Hab.
    do 3 (destruct a as [|? a]; [discriminate|]). simpl. lia.
Defined.

(** *** serialize *)

Lemma lstrip_idempotent s : lstrip (lstrip s) = lstrip s.
Proof.
  induction s as [|c s IH]; [done|]. simpl.
  destruct (isspace c) eqn:Hc; [done|]. simpl. by rewrite Hc.
Qed.

Lemma rstrip_idempotent s : rstrip (rstrip s) = rstrip s.
Proof. unfold rstrip. by rewrite rev_involutive, lstrip_idempotent. Qed.

Section Program.

Variable fnmatch : str -> str -> bool.
Variable OPTIONS : Options.

Abbreviation is_compatible := (is_compatible fnmatch OPTIONS).
Abbreviation serialize := (serialize fnmatch OPTIONS).
Abbreviation fix_pin := (fix_pin fnmatch OPTIONS).
Abbreviation fix_pins := (fix_pins fnmatch OPTIONS).

(** X3.  [serialize] puts a trimmed comment at column 26, or two spaces
    after the pin when the pin is longer than 24 characters; without a
    comment the line is the pin with its trailing whitespace removed.
    The pin is the package without editable flag, [~=] or [==], and the
    version. *)
Theorem serialize_comment_column dep :
  let pin := without_editable (package dep) ++
             (if is_compatible dep then lit "~=" else lit "==") ++
             version dep in
  (comment dep = [] -> serialize dep = rstrip pin) /\
  (comment dep <> [] -> rstrip (comment dep) = comment dep ->
   serialize dep =
     pin ++ repeat " " (max 2 (COMMENT_JUSTIFICATION - length pin)) ++
     comment dep).
Proof.
  intros pin. unfold serialize, pipcompilemulti.serialize, ljust.
  fold is_compatible.
  set (equal := if is_compatible dep then lit "~=" else lit "==") in *.
  assert (forall k,
             (without_editable (package dep) ++ equal ++ version dep ++ lit "  ")
               ++ repeat " " k = pin ++ repeat " " (2 + k)) as Hpin.
  { intros k. unfold pin. by rewrite <- !app_assoc. }
  split.
  - intros ->. by rewrite app_nil_r, Hpin, rstrip_spaces.
  - intros Hne Hc. rewrite Hpin.
    assert (2 + (COMMENT_JUSTIFICATION -
                 length (without_editable (package dep) ++ equal ++
                         version dep ++ lit "  ")) =
            max 2 (COMMENT_JUSTIFICATION - length pin)) as ->.
    { unfold pin, COMMENT_JUSTIFICATION. rewrite !length_app. simpl. lia. }
    rewrite <- (assoc_L (++)), (assoc_L (++) pin).
    by apply dependency_facts.rstrip_app_trimmed.
Qed.

(** X4.  No line that [fix_pin] returns ends with whitespace, whatever
    the input lines are: neither a rewritten pin nor a line passed
    through. *)
Theorem fix_pins_no_trailing_whitespace self lines :
  Forall (fun fixed => rstrip <$> fixed = fixed) (fix_pins self lines).1.
Proof.
  revert self. induction lines as [|line lines IH]; intros self; simpl.
  - constructor.
  - destruct (pipcompilemulti.fix_pin _ _ self line) as [fixed self1] eqn:E.
    specialize (IH self1).
    destruct (pipcompilemulti.fix_pins _ _ self1 lines) as [fixeds self2].
    simpl in *. constructor; [|done].
    unfold pipcompilemulti.fix_pin in E.
    destruct (Dependency_init line) as [dep|].
    + destruct (decide _); injection E as <- <-; [done|]. simpl.
      unfold pipcompilemulti.serialize. by rewrite rstrip_idempotent.
    + injection E as <- <-. simpl. unfold strip.
      by rewrite rstrip_idempotent.
Qed.

End Program.

Lemma serialize_comment_column_witness :
  serialize instance.fnmatch instance.OPTIONS_internal
    {| package := lit "myapp-core"; version := lit "2.1";
       comment := lit "# via myapp" |} =
  lit "myapp-core~=2.1" ++ repeat " " 11 ++ lit "# via myapp".
Proof.
  refine (proj2 (serialize_comment_column instance.fnmatch
                   instance.OPTIONS_internal
                   {| package := lit "myapp-core"; version := lit "2.1";
                      comment := lit "# via myapp" |}) _ _).
  - vm_compute. discriminate.
  - vm_compute. reflexivity.
Defined.

End dependency_more.

(** ** More on rewriting the lockfile *)

Module lockfile_more.

Import Str_facts pipcompilemulti.

Lemma os_path_join_suffix a b : exists pre, os_path_join a b = pre ++ b.
Proof.
  unfold os_path_join. destruct (startswith b _); [by exists []|].
  destruct (_ || _); [by exists a|].
  exists (a ++ lit "/"). by rewrite <- app_assoc.
Qed.

Section Program.

Variable fnmatch : str -> str -> bool.
Variable OPTIONS : Options.

Abbreviation fix_pin := (fix_pin fnmatch OPTIONS).
Abbreviation fix_pins := (fix_pins fnmatch OPTIONS).
Abbreviation fix_lockfile := (fix_lockfile fnmatch OPTIONS).
Abbreviation infile := (infile OPTIONS).
Abbreviation outfile := (outfile OPTIONS).

(** X5.  After any run of [fix_pin] over lines, the package set holds
    what it held before and exactly the packages of the dependency lines
    that are not in the ignore set. *)
Theorem fix_pins_tracks self lines pkg :
  pkg ∈ packages (fix_pins self lines).2 <->
  pkg ∈ packages self \/
  ((pkg ∉ ignore self) /\
   exists line dep, line ∈ lines /\ Dependency_init line = Some dep /\
                    package dep = pkg).
Proof.
  revert self. induction lines as [|line lines IH]; intros self.
  - simpl. split; [by left|]. intros [?|(_ & l & d & ?%elem_of_nil & _)]; done.
  - simpl. pose proof (lockfile_facts.fix_pin_keeps_ignore fnmatch OPTIONS
                         self line) as Hi.
    assert (forall p, p ∈ packages (fix_pin self line).2 <->
              p ∈ packages self \/
              ((p ∉ ignore self) /\ exists dep,
                 Dependency_init line = Some dep /\ package dep = p)) as Hstep.
    { intros p. unfold fix_pin, pipcompilemulti.fix_pin.
      destruct (Dependency_init line) as [dep|].
      - destruct (decide (package dep ∈ ignore self)) as [Hin|Hn]; simpl.
        + split; [by left|]. intros [?|(Hp & d & [= <-] & <-)]; done.
        + rewrite elem_of_union, elem_of_singleton. split.
          * intros [->|?]; [right|by left]. eauto.
          * intros [?|(_ & d & [= <-] & <-)]; eauto.
      - simpl. split; [by left|]. by intros [?|(_ & d & ? & _)]. }
    destruct (pipcompilemulti.fix_pin _ _ self line) as [fixed self1].
    specialize (IH self1).
    destruct (pipcompilemulti.fix_pins _ _ self1 lines) as [fixeds self2].
    simpl in *. rewrite IH, Hstep, Hi. split.
    + intros [[?|(Hn & d & Hd & <-)]|(Hn & l & d & Hl & Hd & <-)].
      * by left.
      * right. split; [done|]. exists line, d. split; [by left|done].
      * right. split; [done|]. exists l, d. split; [by right|done].
    + intros [?|(Hn & l & d & Hl & Hd & <-)]; [by left; left|].
      apply elem_of_cons in Hl as [->|Hl].
      * left. right. eauto.
      * right. eauto 10.
Qed.

Lemma infile_outfile self : infile self <> outfile self.
Proof.
  unfold infile, outfile, pipcompilemulti.infile, pipcompilemulti.outfile.
  destruct (os_path_join_suffix (base_dir OPTIONS) (name self ++ IN_EXT))
    as [pre1 ->].
  destruct (os_path_join_suffix (base_dir OPTIONS) (name self ++ OUT_EXT))
    as [pre2 ->].
  intros H. apply (f_equal (@last _)) in H.
  change IN_EXT with (lit ".i" ++ ["n"]) in H.
  change OUT_EXT with (lit ".tx" ++ ["t"]) in H.
  rewrite !(assoc_L (++)) in H. rewrite !last_snoc in H. done.
Qed.

(** X6.  The input file and the output file of an environment are
    different paths.  When the output file is missing, [fix_lockfile]
    and [replace_header] raise [IOError] for it, and so does
    [add_references] when there are names; without names
    [add_references] returns the files as they are.  When the output
    file is there, each of the three returns the files with the output
    file rewritten and every other file as it was. *)
Theorem only_the_lockfile_changes self header_text other_names fs :
  infile self <> outfile self /\
  add_references OPTIONS self ∅ fs = Ok fs /\
  (fs !! outfile self = None ->
   fix_lockfile self fs = Raise (IOError (outfile self)) /\
   replace_header OPTIONS self header_text fs =
     Raise (IOError (outfile self)) /\
   (other_names <> ∅ ->
    add_references OPTIONS self other_names fs =
      Raise (IOError (outfile self)))) /\
  (is_Some (fs !! outfile self) ->
   exists fixed self' replaced extended,
     fix_lockfile self fs = Ok (<[outfile self := fixed]> fs, self') /\
     replace_header OPTIONS self header_text fs =
       Ok (<[outfile self := replaced]> fs) /\
     (other_names <> ∅ ->
      add_references OPTIONS self other_names fs =
        Ok (<[outfile self := extended]> fs))).
Proof.
  split; [apply infile_outfile|].
  unfold fix_lockfile, pipcompilemulti.fix_lockfile, replace_header,
    add_references, open_rt, open_rb.
  fold (outfile self).
  split; [by rewrite decide_True|]. split.
  - intros ->. split; [done|]. split; [done|].
    intros Hne. by rewrite decide_False.
  - intros [content ->]. unfold mbind, result_bind.
    destruct (pipcompilemulti.fix_pins _ _ _ _) as [lines self'].
    destruct (split_header _) as [header body].
    eexists _, _, _, _. split; [done|]. split; [done|].
    intros Hne. by rewrite decide_False.
Qed.

End Program.

End lockfile_more.

(** ** More on header and body *)

Module header_more.

Import Str_facts header_facts pipcompilemulti.

Lemma universal_newlines_app a b :
  cr ∉ a -> universal_newlines (a ++ b) = a ++ universal_newlines b.
Proof.
  induction a as [|c a IH]; intros Hcr; [done|].
  apply not_elem_of_cons in Hcr as [Hc Ha]. simpl.
  destruct (eqb c cr) eqn:E; [by apply eqb_eq in E|].
  by rewrite IH.
Qed.

Lemma lines_ok_elem ls l : lines_ok ls -> l ∈ ls -> lines_ok [l].
Proof.
  induction ls as [|l' ls IH]; intros Hok Hl; [by apply elem_of_nil in Hl|].
  apply elem_of_cons in Hl as [->|Hl].
  - destruct ls; [done|]. destruct Hok as [Ht _]. by left.
  - apply IH; [by eapply lines_ok_tail|done].
Qed.

Lemma lines_ok_non_empty ls l : lines_ok ls -> l ∈ ls -> l <> [].
Proof.
  intros Hok Hl. destruct (lines_ok_elem _ _ Hok Hl) as [(b & -> & _)|[? _]];
    [by destruct b|done].
Qed.

(** Only the last line of a text can lack its newline. *)
Lemma lines_ok_init ls1 ls2 :
  lines_ok (ls1 ++ ls2) -> ls2 <> [] -> Forall terminated ls1.
Proof.
  induction ls1 as [|l ls1 IH]; intros Hok Hne; [done|].
  simpl in Hok. destruct (ls1 ++ ls2) eqn:E.
  - by apply app_eq_nil in E as [_ ?].
  - destruct Hok as [Ht Hok]. constructor; [done|]. by apply IH.
Qed.

Lemma terminated_lines_ok ls : Forall terminated ls -> lines_ok ls.
Proof.
  induction 1 as [|l ls Hl _ IH]; [done|].
  simpl. destruct ls; [by left|done].
Qed.

Lemma lines_ok_header header body :
  lines_ok (header ++ body) -> lines_ok header.
Proof.
  intros Hok. destruct body as [|l body].
  - by rewrite app_nil_r in Hok.
  - apply terminated_lines_ok. by eapply lines_ok_init.
Qed.

Lemma concat_terminated ls :
  Forall terminated ls -> ls = [] \/ endswith (concat ls) [newline] = true.
Proof.
  induction 1 as [|l ls (b & -> & _) _ [->|IH]]; [by left|right..].
  - simpl. rewrite app_nil_r. apply endswith_suffix. by eexists.
  - apply endswith_suffix in IH as [t Ht]. apply endswith_suffix.
    exists ((b ++ [newline]) ++ t). simpl. rewrite Ht. by rewrite !app_assoc.
Qed.

(** X7.  [split_header] cuts the lines where the first line that does
    not start with [#] stands: the header is the longest run of comment
    lines at the start, nothing is lost or reordered, and splitting
    either part again gives that part back whole. *)
Theorem split_header_partition fp :
  let '(header, body) := split_header fp in
  fp = header ++ body /\
  Forall (fun line => startswith line (lit "#") = true) header /\
  match body with
  | [] => True
  | line :: _ => startswith line (lit "#") = false
  end /\
  split_header header = (header, []) /\
  split_header body = ([], body).
Proof.
  destruct (header_body fp) as (header & body & -> & Hh & Hb).
  rewrite split_header_app by done.
  split; [done|]. split; [done|]. split; [done|]. split.
  - rewrite <- (app_nil_r header) at 1. by apply split_header_app.
  - by apply (split_header_app []).
Qed.

Section Program.

Variable OPTIONS : Options.

Abbreviation outfile := (outfile OPTIONS).
Abbreviation replace_header := (replace_header OPTIONS).
Abbreviation add_references := (add_references OPTIONS).

(** X8.  Whatever the header text, [replace_header] writes it in front
    of the old text from its first line that is not a comment on; the
    old text is taken after newline translation, and the comment lines
    it started with are all that is dropped. *)
Theorem replace_header_keeps_body self header_text fs content :
  fs !! outfile self = Some content ->
  exists old_header rest,
    universal_newlines content = old_header ++ rest /\
    Forall (fun line => startswith line (lit "#") = true)
           (readlines old_header) /\
    startswith rest (lit "#") = false /\
    (rest = [] \/ old_header = [] \/
     endswith old_header [newline] = true) /\
    replace_header self header_text fs =
      Ok (<[outfile self := header_text ++ rest]> fs).
Proof.
  intros Hfs. unfold replace_header, pipcompilemulti.replace_header,
    open_rt, open_rb.
  fold (outfile self). rewrite Hfs. unfold mbind, result_bind.
  pose proof (readlines_ok (universal_newlines content)) as Hok.
  pose proof (concat_readlines (universal_newlines content)) as Hcat.
  destruct (header_body (readlines (universal_newlines content)))
    as (header & body & E & Hh & Hb).
  rewrite E in *. rewrite split_header_app by done.
  exists (concat header), (concat body).
  rewrite concat_app in Hcat.
  split; [done|]. split; [|split; [|split; [|done]]].
  - rewrite readlines_concat by by eapply lines_ok_header. done.
  - destruct body as [|l body]; [done|].
    assert (l <> []) as Hl.
    { eapply lines_ok_non_empty; [done|]. apply elem_of_app. right. by left. }
    simpl in Hb. unfold is_header_line in Hb.
    destruct l as [|c l]; [done|]. simpl in *.
    by destruct (eqb "#" c).
  - destruct body as [|l body]; [by left|]. right.
    destruct (concat_terminated header) as [->|?]; [|by left|by right].
    by eapply lines_ok_init.
Qed.

(** X9.  When the comment lines at the start of the lockfile all end
    with a newline and no name holds a line break, reading the file
    [add_references] wrote gives the old header lines, then one
    [-r name.txt] line for each name, in sorted order, then the old
    body. *)
Theorem add_references_lines self other_names fs fp :
  open_rt fs (outfile self) = Ok fp ->
  forallb (fun line => endswith line [newline]) (split_header fp).1 = true ->
  set_Forall (fun name => (newline ∉ name) /\ (cr ∉ name)) other_names ->
  exists fs',
    add_references self other_names fs = Ok fs' /\
    open_rt fs' (outfile self) =
      Ok ((split_header fp).1 ++ reference_lines other_names ++
          (split_header fp).2).
Proof.
  intros Hopen Hends Hnames.
  destruct (split_header_body fp) as [_ Hfp].
  unfold add_references, pipcompilemulti.add_references.
  destruct (decide (other_names = ∅)) as [->|Hne].
  - exists fs. split; [done|]. rewrite Hopen. f_equal.
    unfold reference_lines, sorted. rewrite elements_empty. simpl.
    done.
  - fold (outfile self). rewrite Hopen. unfold mbind, result_bind.
    destruct (split_header fp) as [header body]. simpl in *.
    eexists. split; [done|].
    unfold open_rt, open_rb in *. rewrite lookup_insert_eq.
    unfold mbind, result_bind in *.
    destruct (fs !! outfile self) as [content|]; [|done].
    injection Hopen as Hopen.
    assert (lines_ok fp) as Hok by (rewrite <- Hopen; apply readlines_ok).
    assert (cr ∉ concat fp) as Hcr.
    { rewrite <- Hopen, concat_readlines. apply universal_newlines_no_cr. }
    rewrite Hfp in Hok, Hcr. rewrite concat_app in Hcr.
    apply not_elem_of_app in Hcr as [Hcrh Hcrb].
    assert (Forall terminated header) as Hth.
    { apply Forall_forall. intros l Hl. apply terminated_endswith.
      - eapply lines_ok_elem; [done|]. apply elem_of_app. by left.
      - eapply forallb_forall in Hends; [done|]. by apply list_elem_of_In. }
    assert (Forall (fun l => terminated l /\ cr ∉ l)
                   (reference_lines other_names)) as Hrefs.
    { unfold reference_lines. apply Forall_fmap, Forall_forall.
      intros name Hn. cbv beta.
      assert (name ∈ other_names) as Hin.
      { apply elem_of_elements. unfold sorted in Hn.
        by rewrite merge_sort_Permutation in Hn. }
      destruct (Hnames _ Hin) as [Hnl Hncr]. split.
      - exists (lit "-r " ++ name ++ OUT_EXT). split.
        + by rewrite <- !app_assoc.
        + rewrite !not_elem_of_app. split; [|split; [done|]].
          * apply (bool_decide_unpack _). vm_compute. exact I.
          * apply (bool_decide_unpack _). vm_compute. exact I.
      - rewrite !not_elem_of_app. split; [|split; [split; [done|]|]].
        + apply (bool_decide_unpack _). vm_compute. exact I.
        + apply (bool_decide_unpack _). vm_compute. exact I.
        + apply (bool_decide_unpack _). vm_compute. exact I. }
    assert (cr ∉ concat (reference_lines other_names)) as Hcrr.
    { intros (l & Hl & Hin)%list_elem_of_In%in_concat.
      apply list_elem_of_In in Hl, Hin.
      eapply Forall_forall in Hrefs; [|done]. by destruct Hrefs. }
    unfold writelines.
    rewrite universal_newlines_id
      by (rewrite !not_elem_of_app; by repeat split).
    rewrite readlines_concat_app by done.
    rewrite readlines_concat_app
      by (eapply Forall_impl; [done|]; by intros ? [? _]).
    rewrite readlines_concat; [done|].
    rewrite <- (drop_app_length header body). by apply lines_ok_drop.
Qed.

End Program.

Lemma add_references_lines_witness :
  let fs : filesystem :=
    {[ lit "requirements/test.txt" :=
         lit "# SHA1:0000" ++ [newline] ++ lit "pytest==3.0" ++ [newline] ]} in
  let test := Environment_init 3 (lit "test") None false in
  exists fs',
    add_references OPTIONS_initial test {[ lit "local"; lit "base" ]} fs
      = Ok fs' /\
    open_rt fs' (lit "requirements/test.txt") =
      Ok [ lit "# SHA1:0000" ++ [newline];
           lit "-r base.txt" ++ [newline];
           lit "-r local.txt" ++ [newline];
           lit "pytest==3.0" ++ [newline] ].
Proof.
  intros fs test.
  refine (add_references_lines OPTIONS_initial test
            {[ lit "local"; lit "base" ]} fs
            [ lit "# SHA1:0000" ++ [newline];
              lit "pytest==3.0" ++ [newline] ] _ _ _).
  - vm_compute. reflexivity.
  - vm_compute. reflexivity.
  - apply (bool_decide_unpack _). vm_compute. exact I.
Defined.

Lemma replace_header_keeps_body_witness :
  let fs : filesystem :=
    {[ lit "requirements/base.txt" :=
         lit "# by pip-compile" ++ [cr; newline] ++
         lit "flask==1.0" ++ [cr; newline] ++
         lit "# via flask" ++ [cr; newline] ]} in
  exists old_header rest,
    lit "# by pip-compile" ++ [newline] ++ lit "flask==1.0" ++ [newline] ++
      lit "# via flask" ++ [newline] = old_header ++ rest /\
    Forall (fun line => startswith line (lit "#") = true)
           (readlines old_header) /\
    startswith rest (lit "#") = false /\
    (rest = [] \/ old_header = [] \/
     endswith old_header [newline] = true) /\
    replace_header OPTIONS_initial instance.base (lit "no comment") fs =
      Ok (<[lit "requirements/base.txt" := lit "no comment" ++ rest]> fs).
Proof.
  intros fs.
  refine (replace_header_keeps_body OPTIONS_initial instance.base
            (lit "no comment") fs
            (lit "# by pip-compile" ++ [cr; newline] ++
             lit "flask==1.0" ++ [cr; newline] ++
             lit "# via flask" ++ [cr; newline]) _).
  vm_compute. reflexivity.
Defined.

End header_more.

(** ** Environments in reference order *)

Module refs_first_facts.

Import graph_facts pipcompilemulti.

Lemma refs_by_name_skip (m : gmap str (gset str)) (post : list conf) n :
  n ∉ conf_name <$> post ->
  foldl (fun m env => <[conf_name env := conf_refs env]> m) m post !! n =
    m !! n.
Proof.
  revert m. induction post as [|c post IH]; intros m Hn; [done|].
  rewrite fmap_cons in Hn. apply not_elem_of_cons in Hn as [Hc Hn].
  simpl. rewrite IH by done. by rewrite lookup_insert_ne.
Qed.

(** The entry of an environment that is not listed again. *)
Lemma refs_by_name_lookup (pre : list conf) c post :
  conf_name c ∉ conf_name <$> post ->
  refs_by_name (pre ++ c :: post) !! conf_name c = Some (conf_refs c).
Proof.
  intros Hc. unfold refs_by_name. rewrite foldl_app. simpl.
  rewrite refs_by_name_skip by done. apply lookup_insert_eq.
Qed.

Lemma refs_first_fresh seen env_confs n :
  refs_first seen env_confs = true -> n ∈ seen ->
  n ∉ conf_name <$> env_confs.
Proof.
  revert seen. induction env_confs as [|c rest IH]; intros seen; simpl.
  - intros _ _ H. by apply elem_of_nil in H.
  - intros [[Hc _]%andb_true_iff Hrest]%andb_true_iff Hn.
    apply bool_decide_eq_true in Hc.
    apply not_elem_of_cons. split; [by intros ->|].
    apply (IH _ Hrest). set_solver.
Qed.

Lemma refs_first_split seen pre c post :
  refs_first seen (pre ++ c :: post) = true ->
  (conf_name c ∉ conf_name <$> post) /\
  conf_refs c ⊆ seen ∪ list_to_set (conf_name <$> pre).
Proof.
  revert seen. induction pre as [|c' pre IH]; intros seen; simpl.
  - intros [[_ Hrefs]%andb_true_iff Hrest]%andb_true_iff.
    apply bool_decide_eq_true in Hrefs. split.
    + apply (refs_first_fresh _ _ _ Hrest). set_solver.
    + set_solver.
  - intros [_ Hrest]%andb_true_iff.
    destruct (IH _ Hrest) as [? ?]. split; [done|]. set_solver.
Qed.

(** In reference order the recursion of [recursive_refs] for an
    environment goes no deeper than its position, and what it returns
    are names of earlier environments. *)
Lemma recursive_refs_ordered env_confs :
  refs_first ∅ env_confs = true ->
  forall (limit : nat) pre c post,
    env_confs = pre ++ c :: post -> length pre < limit ->
    exists rrefs,
      recursive_refs limit env_confs (conf_name c) = Ok rrefs /\
      rrefs ⊆ list_to_set (conf_name <$> pre).
Proof.
  intros Hfirst limit.
  induction limit as [|limit IH]; intros pre c post Henvs Hlen; [lia|].
  pose proof Hfirst as Hsplit. rewrite Henvs in Hsplit.
  apply refs_first_split in Hsplit as [Hc Hrefs].
  assert (refs_by_name env_confs !! conf_name c = Some (conf_refs c))
    as Hlookup by (rewrite Henvs; by apply refs_by_name_lookup).
  simpl. rewrite Hlookup.
  destruct (decide (conf_refs c = ∅)) as [Hempty|Hne].
  - eexists. split; [done|]. set_solver.
  - destruct (mapM_Ok (recursive_refs limit env_confs)
                (fun _ S => S ⊆ list_to_set (conf_name <$> pre))
                (elements (conf_refs c))) as (sets & -> & Hsets).
    + intros r Hr%elem_of_elements. apply Hrefs in Hr.
      rewrite elem_of_union, elem_of_list_to_set in Hr.
      destruct Hr as [Hr|Hr]; [set_solver|].
      apply list_elem_of_fmap in Hr as (c' & -> & Hc').
      apply list_elem_of_split in Hc' as (pre' & post' & ->).
      destruct (IH pre' c' (post' ++ c :: post)) as (S & HS & Hsub).
      * by rewrite Henvs, <- app_assoc.
      * rewrite length_app in Hlen. simpl in Hlen. lia.
      * exists S. split; [done|]. rewrite fmap_app, fmap_cons. set_solver.
    + eexists. split; [done|].
      apply union_subseteq. split; [set_solver|].
      intros b (S & HS & Hb)%elem_of_union_list.
      apply list_elem_of_lookup in HS as [i Hi].
      destruct (Forall2_lookup_r _ _ _ _ _ Hsets Hi) as (r & _ & Hsub).
      by apply Hsub.
Qed.

Lemma merged_packages_Ok (env_packages : gmap str (gset str)) names :
  (forall name, name ∈ names -> name ∈ dom env_packages) ->
  exists ignored, merged_packages env_packages names = Ok ignored.
Proof.
  intros Hnames. unfold merged_packages.
  match goal with
  | |- context [mapM ?f names] =>
      destruct (mapM_Ok f (fun _ _ => True) names) as (sets & -> & _)
  end.
  - intros name [s Hs]%Hnames%elem_of_dom. rewrite Hs. by eexists.
  - by eexists.
Qed.

End refs_first_facts.

(** ** recompile *)

Module recompile_facts.

Import Str_facts header_facts header_more graph_facts pipcompilemulti.

Lemma split_header_cons line fp :
  is_header_line line = true ->
  split_header (line :: fp) =
    (line :: (split_header fp).1, (split_header fp).2).
Proof.
  intros Hline. destruct (header_body fp) as (header & body & -> & Hh & Hb).
  rewrite (split_header_app header body) by done.
  by apply (split_header_app (line :: header) body); [constructor|].
Qed.

(** A first line without carriage return is read as it was written. *)
Lemma first_line (l : str) (t : str) :
  newline ∉ l -> cr ∉ l ->
  readlines (universal_newlines (l ++ newline :: t)) =
    (l ++ [newline]) :: readlines (universal_newlines t).
Proof.
  intros Hnl Hcr.
  replace (l ++ newline :: t) with ((l ++ [newline]) ++ t)
    by by rewrite <- app_assoc.
  rewrite universal_newlines_app.
  - rewrite <- app_assoc. by apply readlines_terminated.
  - apply not_elem_of_app. split; [done|].
    apply (bool_decide_unpack _). vm_compute. exact I.
Qed.

Lemma parse_hash_comment_first fs path hex t :
  newline ∉ hex -> cr ∉ hex ->
  fs !! path = Some (lit "# SHA1:" ++ hex ++ newline :: t) ->
  parse_hash_comment fs path = Ok (Some (lit "# SHA1:" ++ hex ++ [newline])).
Proof.
  intros Hnl Hcr Hfs. unfold parse_hash_comment, open_rt, open_rb.
  rewrite Hfs. unfold mbind, result_bind.
  rewrite (assoc_L (++)), first_line.
  - cbn [List.find]. rewrite <- (assoc_L (++)).
    by rewrite startswith_app.
  - apply not_elem_of_app. split; [|done].
    apply (bool_decide_unpack _). vm_compute. exact I.
  - apply not_elem_of_app. split; [|done].
    apply (bool_decide_unpack _). vm_compute. exact I.
Qed.

Section Program.

Variable fnmatch : str -> str -> bool.
Variable sha1_hexdigest : str -> str.
Variable sys_version_major : nat.
Variable OPTIONS : Options.
Variable pip_compile : list str -> filesystem -> Z * str * str * filesystem.

Abbreviation infile := (infile OPTIONS).
Abbreviation outfile := (outfile OPTIONS).
Abbreviation fix_pins := (fix_pins fnmatch OPTIONS).
Abbreviation fix_lockfile := (fix_lockfile fnmatch OPTIONS).
Abbreviation replace_header := (replace_header OPTIONS).
Abbreviation add_references := (add_references OPTIONS).
Abbreviation generate_hash_comment := (generate_hash_comment sha1_hexdigest).
Abbreviation Environment_init := (Environment_init sys_version_major).
Abbreviation pin_command := (pin_command OPTIONS).
Abbreviation create_lockfile := (create_lockfile fnmatch OPTIONS pip_compile).
Abbreviation recompile_step :=
  (recompile_step fnmatch sha1_hexdigest sys_version_major OPTIONS pip_compile).
Abbreviation recompile_loop :=
  (recompile_loop fnmatch sha1_hexdigest sys_version_major OPTIONS pip_compile).
Abbreviation recompile :=
  (recompile fnmatch sha1_hexdigest sys_version_major OPTIONS pip_compile).
Abbreviation verify := (verify sha1_hexdigest sys_version_major OPTIONS).
Abbreviation up_to_date :=
  (up_to_date sha1_hexdigest sys_version_major OPTIONS).
Abbreviation checkable := (checkable sha1_hexdigest sys_version_major OPTIONS).

(** The environment [verify] builds for a configuration. *)
Abbreviation env_of c := (Environment_init (conf_name c) None false).

(** *** Paths *)

Lemma infile_by_name self self' :
  name self = name self' -> infile self = infile self'.
Proof. unfold infile, pipcompilemulti.infile. by intros ->. Qed.

Lemma outfile_by_name self self' :
  name self = name self' -> outfile self = outfile self'.
Proof. unfold outfile, pipcompilemulti.outfile. by intros ->. Qed.

Lemma infile_not_outfile self self' : infile self <> outfile self'.
Proof.
  unfold infile, outfile, pipcompilemulti.infile, pipcompilemulti.outfile.
  destruct (lockfile_more.os_path_join_suffix (base_dir OPTIONS)
              (name self ++ IN_EXT)) as [pre1 ->].
  destruct (lockfile_more.os_path_join_suffix (base_dir OPTIONS)
              (name self' ++ OUT_EXT)) as [pre2 ->].
  intros H. apply (f_equal (@last _)) in H.
  change IN_EXT with (lit ".i" ++ ["n"]) in H.
  change OUT_EXT with (lit ".tx" ++ ["t"]) in H.
  rewrite !(assoc_L (++)) in H. rewrite !last_snoc in H. done.
Qed.

Lemma outfile_inj self self' :
  "/" ∉ name self -> "/" ∉ name self' ->
  outfile self = outfile self' -> name self = name self'.
Proof.
  intros Hs Hs'.
  assert (forall n, "/" ∉ n -> startswith (n ++ OUT_EXT) (lit "/") = false)
    as Hstart.
  { intros [|c n] Hn; [done|]. apply not_elem_of_cons in Hn as [Hc _].
    simpl. destruct (eqb "/" c) eqn:E; [|done].
    by apply eqb_eq in E. }
  unfold outfile, pipcompilemulti.outfile, os_path_join.
  rewrite !Hstart by done.
  destruct (_ || _).
  - intros H%app_inv_head. by apply app_inv_tail in H.
  - intros H%app_inv_head%app_inv_head. by apply app_inv_tail in H.
Qed.

Lemma fix_pins_name self lines : name (fix_pins self lines).2 = name self.
Proof.
  revert self. induction lines as [|line lines IH]; intros self; [done|].
  simpl.
  assert (name (pipcompilemulti.fix_pin fnmatch OPTIONS self line).2 =
          name self) as Hstep.
  { unfold pipcompilemulti.fix_pin. destruct (Dependency_init line); [|done].
    by destruct (decide _). }
  destruct (pipcompilemulti.fix_pin _ _ self line) as [fixed self1].
  specialize (IH self1).
  destruct (pipcompilemulti.fix_pins _ _ self1 lines) as [fixeds self2].
  simpl in *. congruence.
Qed.

(** *** Stamping a lockfile *)

(** [replace_header] with a fingerprint line in front, then
    [add_references]: the fingerprint is the first line of the file. *)
Lemma stamp_lockfile self hex base_header_text refs fs :
  newline ∉ hex -> cr ∉ hex -> is_Some (fs !! outfile self) ->
  exists fs2 fs3,
    replace_header self
      ((lit "# SHA1:" ++ hex ++ [newline]) ++ base_header_text) fs = Ok fs2 /\
    add_references self refs fs2 = Ok fs3 /\
    parse_hash_comment fs3 (outfile self) =
      Ok (Some (lit "# SHA1:" ++ hex ++ [newline])) /\
    forall path, path <> outfile self -> fs3 !! path = fs !! path.
Proof.
  intros Hnl Hcr [content Hfs].
  unfold replace_header, pipcompilemulti.replace_header, open_rt, open_rb.
  fold (outfile self). rewrite Hfs. unfold mbind, result_bind.
  destruct (split_header _) as [old body].
  match goal with
  | |- exists fs2 fs3, Ok ?written = Ok fs2 /\ _ => exists written
  end.
  enough (exists fs3,
    add_references self refs
      (<[outfile self := ((lit "# SHA1:" ++ hex ++ [newline]) ++
                          base_header_text) ++ writelines body]> fs) = Ok fs3 /\
    parse_hash_comment fs3 (outfile self) =
      Ok (Some (lit "# SHA1:" ++ hex ++ [newline])) /\
    forall path, path <> outfile self -> fs3 !! path = fs !! path)
    as (fs3 & ? & ? & ?) by by exists fs3.
  unfold add_references, pipcompilemulti.add_references.
  destruct (decide (refs = ∅)) as [->|Hne].
  - eexists. split; [done|]. split.
    + eapply parse_hash_comment_first; [done..|].
      rewrite lookup_insert_eq. f_equal.
      by rewrite <- !(assoc_L (++)).
    + intros path Hp. by rewrite lookup_insert_ne.
  - fold (outfile self). unfold open_rt, open_rb. rewrite lookup_insert_eq.
    unfold mbind, result_bind.
    replace (((lit "# SHA1:" ++ hex ++ [newline]) ++ base_header_text) ++
             writelines body)
      with ((lit "# SHA1:" ++ hex) ++
            newline :: (base_header_text ++ writelines body))
      by by rewrite <- !(assoc_L (++)).
    rewrite first_line.
    2,3: apply not_elem_of_app; (split; [|done]);
         apply (bool_decide_unpack _); vm_compute; exact I.
    rewrite split_header_cons by done.
    destruct (split_header _) as [header body']. cbn [fst snd].
    eexists. split; [done|]. split.
    + eapply parse_hash_comment_first; [done..|].
      rewrite lookup_insert_eq. f_equal. unfold writelines.
      cbn [concat]. by rewrite <- !(assoc_L (++)).
    + intros path Hp. by rewrite !lookup_insert_ne.
Qed.

(** *** One round *)

Lemma generate_hash_comment_ext fs fs' path :
  fs' !! path = fs !! path ->
  generate_hash_comment fs' path = generate_hash_comment fs path.
Proof.
  intros H. unfold generate_hash_comment, pipcompilemulti.generate_hash_comment,
    open_rb. by rewrite H.
Qed.

Lemma parse_hash_comment_ext fs fs' path :
  fs' !! path = fs !! path ->
  parse_hash_comment fs' path = parse_hash_comment fs path.
Proof.
  intros H. unfold parse_hash_comment, open_rt, open_rb. by rewrite H.
Qed.

(** The fingerprint in the output file of [c] is that of its input
    file. *)
Abbreviation stamped fs c :=
  (exists hash_comment,
     generate_hash_comment fs (infile (env_of c)) = Ok hash_comment /\
     parse_hash_comment fs (outfile (env_of c)) = Ok (Some hash_comment)).

Lemma stamped_ext fs fs' c :
  fs' !! infile (env_of c) = fs !! infile (env_of c) ->
  fs' !! outfile (env_of c) = fs !! outfile (env_of c) ->
  stamped fs c -> stamped fs' c.
Proof.
  intros Hi Ho (h & Hg & Hp). exists h.
  by rewrite (generate_hash_comment_ext fs), (parse_hash_comment_ext fs).
Qed.

Lemma replace_header_frame self header_text fs fs2 :
  replace_header self header_text fs = Ok fs2 ->
  is_Some (fs2 !! outfile self) /\
  forall path, path <> outfile self -> fs2 !! path = fs !! path.
Proof.
  unfold replace_header, pipcompilemulti.replace_header.
  fold (outfile self).
  destruct (open_rt fs (outfile self)) as [fp|]; [|done].
  unfold mbind, result_bind. destruct (split_header fp) as [header body].
  intros [= <-]. split.
  - rewrite lookup_insert_eq. by eexists.
  - intros path Hp. by rewrite lookup_insert_ne.
Qed.

Lemma add_references_frame self refs fs fs3 :
  add_references self refs fs = Ok fs3 ->
  (is_Some (fs !! outfile self) -> is_Some (fs3 !! outfile self)) /\
  forall path, path <> outfile self -> fs3 !! path = fs !! path.
Proof.
  unfold add_references, pipcompilemulti.add_references.
  fold (outfile self).
  destruct (decide (refs = ∅)); [by intros [= <-]|].
  destruct (open_rt fs (outfile self)) as [fp|]; [|done].
  unfold mbind, result_bind. destruct (split_header fp) as [header body].
  intros [= <-]. split.
  - rewrite lookup_insert_eq. by eexists.
  - intros path Hp. by rewrite lookup_insert_ne.
Qed.

Lemma fix_lockfile_frame self fs fs1 self1 :
  fix_lockfile self fs = Ok (fs1, self1) ->
  name self1 = name self /\
  is_Some (fs1 !! outfile self) /\
  forall path, path <> outfile self -> fs1 !! path = fs !! path.
Proof.
  unfold fix_lockfile, pipcompilemulti.fix_lockfile. fold (outfile self).
  destruct (open_rt fs (outfile self)) as [fp|]; [|done].
  unfold mbind, result_bind.
  pose proof (fix_pins_name self fp) as Hname.
  destruct (pipcompilemulti.fix_pins _ _ self fp) as [lines self'].
  intros [= <- <-]. split; [done|]. split.
  - rewrite lookup_insert_eq. by eexists.
  - intros path Hp. by rewrite lookup_insert_ne.
Qed.

Lemma fix_lockfile_Ok self fs :
  is_Some (fs !! outfile self) ->
  exists fs1 self1, fix_lockfile self fs = Ok (fs1, self1).
Proof.
  intros [content Hfs].
  unfold fix_lockfile, pipcompilemulti.fix_lockfile, open_rt, open_rb.
  fold (outfile self). rewrite Hfs. unfold mbind, result_bind.
  destruct (pipcompilemulti.fix_pins _ _ _ _) as [lines self1].
  by eexists _, _.
Qed.

Lemma replace_header_Ok self header_text fs :
  is_Some (fs !! outfile self) ->
  exists fs2, replace_header self header_text fs = Ok fs2.
Proof.
  intros [content Hfs].
  unfold replace_header, pipcompilemulti.replace_header, open_rt, open_rb.
  fold (outfile self). rewrite Hfs. unfold mbind, result_bind.
  destruct (split_header _) as [header body]. by eexists.
Qed.

Lemma add_references_Ok self refs fs :
  is_Some (fs !! outfile self) ->
  exists fs3, add_references self refs fs = Ok fs3.
Proof.
  intros [content Hfs].
  unfold add_references, pipcompilemulti.add_references, open_rt, open_rb.
  destruct (decide (refs = ∅)); [by eexists|].
  fold (outfile self). rewrite Hfs. unfold mbind, result_bind.
  destruct (split_header _) as [header body]. by eexists.
Qed.

Section Tool.

(** [pip-compile] writes no file but its output file. *)
Hypothesis pip_compile_output : forall self fs path,
  path <> outfile self ->
  (pip_compile (pin_command self) fs).2 !! path = fs !! path.

Lemma create_lockfile_frame self fs log fs1 self1 :
  create_lockfile self fs = (log, Ok (fs1, self1)) ->
  name self1 = name self /\
  is_Some (fs1 !! outfile self) /\
  forall path, path <> outfile self -> fs1 !! path = fs !! path.
Proof.
  unfold create_lockfile, pipcompilemulti.create_lockfile.
  pose proof (pip_compile_output self fs) as Hpip.
  fold (pin_command self).
  destruct (pip_compile (pin_command self) fs) as [[[rc out] err] fsp].
  simpl in Hpip. destruct (rc =? 0)%Z; [|done].
  intros [= <- Hfix]. apply fix_lockfile_frame in Hfix as (? & ? & Hsame).
  split; [done|]. split; [done|].
  intros path Hp. by rewrite Hsame, Hpip.
Qed.

(** The parts of a round that ended well. *)
Lemma recompile_step_inv limit env_confs base_header_text c pinned fs
    log pinned' fs' :
  recompile_step limit env_confs base_header_text c pinned fs =
    (log, Ok (pinned', fs')) ->
  exists rrefs ignored log1 fs1 env1 hash_comment fs2,
    recursive_refs limit env_confs (conf_name c) = Ok rrefs /\
    merged_packages pinned (elements rrefs) = Ok ignored /\
    create_lockfile
      (Environment_init (conf_name c) (Some ignored)
         (bool_decide (conf_name c ∈ allow_post_envs OPTIONS))) fs =
      (log1, Ok (fs1, env1)) /\
    generate_hash_comment fs1 (infile env1) = Ok hash_comment /\
    replace_header env1 (hash_comment ++ base_header_text) fs1 = Ok fs2 /\
    add_references env1 (conf_refs c) fs2 = Ok fs' /\
    pinned' = <[conf_name c := packages env1]> pinned.
Proof.
  unfold recompile_step, pipcompilemulti.recompile_step.
  destruct (recursive_refs _ _ _) as [rrefs|] eqn:Erefs; [|done].
  destruct (merged_packages _ _) as [ignored|] eqn:Emerged; [|done].
  fold (create_lockfile
          (Environment_init (conf_name c) (Some ignored)
             (bool_decide (conf_name c ∈ allow_post_envs OPTIONS))) fs).
  destruct (create_lockfile _ fs) as [log1 [[fs1 env1]|]] eqn:Ecreate;
    [|done].
  fold (generate_hash_comment fs1 (infile env1)).
  destruct (generate_hash_comment fs1 (infile env1)) as [hash|] eqn:Ehash;
    [|done].
  unfold mbind at 1, result_bind at 1.
  fold (replace_header env1 (hash ++ base_header_text) fs1).
  destruct (replace_header env1 _ fs1) as [fs2|] eqn:Erep; [|done].
  unfold mbind at 1, result_bind at 1.
  fold (add_references env1 (conf_refs c) fs2).
  destruct (add_references env1 _ fs2) as [fs3|] eqn:Eadd; [|done].
  unfold mbind, result_bind.
  intros [= <- <- <-]. by exists rrefs, ignored, log1, fs1, env1, hash, fs2.
Qed.

Lemma recompile_step_frame limit env_confs base_header_text c pinned fs
    log pinned' fs' :
  recompile_step limit env_confs base_header_text c pinned fs =
    (log, Ok (pinned', fs')) ->
  forall path, path <> outfile (env_of c) -> fs' !! path = fs !! path.
Proof.
  intros (rrefs & ignored & log1 & fs1 & env1 & hash & fs2 & _ & _ &
          Hcreate & _ & Hrep & Hadd & _)%recompile_step_inv path Hp.
  apply create_lockfile_frame in Hcreate as (Hname & _ & Hsame1).
  apply replace_header_frame in Hrep as (_ & Hsame2).
  apply add_references_frame in Hadd as (_ & Hsame3).
  rewrite (outfile_by_name env1 (env_of c)) in Hsame2, Hsame3 by done.
  rewrite Hsame3, Hsame2 by done. by apply Hsame1.
Qed.

Lemma recompile_loop_frame limit env_confs base_header_text todo pinned fs
    log pinned' fs' :
  recompile_loop limit env_confs base_header_text todo pinned fs =
    (log, Ok (pinned', fs')) ->
  forall path,
    Forall (fun c => path <> outfile (env_of c)) todo ->
    fs' !! path = fs !! path.
Proof.
  revert pinned fs log.
  induction todo as [|c todo IH]; intros pinned fs log; simpl.
  - by intros [= _ _ <-].
  - fold (recompile_step limit env_confs base_header_text c pinned fs).
    destruct (recompile_step _ _ _ c pinned fs)
      as [log1 [[pinned1 fs1]|]] eqn:Estep; [|done].
    fold (recompile_loop limit env_confs base_header_text todo pinned1 fs1).
    destruct (recompile_loop _ _ _ todo pinned1 fs1) as [log2 r] eqn:Eloop.
    intros [= <- ->] path [Hc Htodo]%Forall_cons.
    rewrite (IH _ _ _ Eloop) by done.
    by eapply recompile_step_frame.
Qed.

(** *** Success *)

Lemma recompile_step_Ok (limit : nat) (env_confs : list conf)
    (base_header_text : str) (c : conf) (pinned : gmap str (gset str))
    (fs : filesystem) (rrefs : gset str) :
  (forall self fs,
     name self = conf_name c ->
     (pip_compile (pin_command self) fs).1.1.1 = 0%Z /\
     is_Some ((pip_compile (pin_command self) fs).2 !! outfile self)) ->
  recursive_refs limit env_confs (conf_name c) = Ok rrefs ->
  rrefs ⊆ dom pinned ->
  is_Some (fs !! infile (env_of c)) ->
  exists log pinned' fs',
    recompile_step limit env_confs base_header_text c pinned fs =
      (log, Ok (pinned', fs')) /\
    dom pinned' = {[ conf_name c ]} ∪ dom pinned.
Proof.
  intros Htool Hrefs Hsub Hin.
  unfold recompile_step, pipcompilemulti.recompile_step. rewrite Hrefs.
  destruct (refs_first_facts.merged_packages_Ok pinned (elements rrefs))
    as [ignored ->].
  { intros n Hn%elem_of_elements. by apply Hsub. }
  set (env := pipcompilemulti.Environment_init _ _ _ _).
  fold (create_lockfile env fs).
  assert (exists fs1 env1, create_lockfile env fs = ([], Ok (fs1, env1)))
    as (fs1 & env1 & Hcreate).
  { unfold create_lockfile, pipcompilemulti.create_lockfile.
    destruct (Htool env fs eq_refl) as [Hrc Hout].
    fold (pin_command env) in *.
    destruct (pip_compile (pin_command env) fs) as [[[rc out] err] fsp].
    simpl in Hrc, Hout. subst rc. simpl.
    destruct (fix_lockfile_Ok env fsp Hout) as (fs1 & env1 & Hfix).
    exists fs1, env1. by rewrite <- Hfix. }
  rewrite Hcreate.
  destruct (create_lockfile_frame _ _ _ _ _ Hcreate)
    as (Hname & Hout & Hsame).
  rewrite <- (outfile_by_name env1 env) in Hout by done.
  assert (exists hash_comment,
    generate_hash_comment fs1 (infile env1) = Ok hash_comment) as [hash Hhash].
  { unfold generate_hash_comment, pipcompilemulti.generate_hash_comment,
      open_rb.
    rewrite Hsame by apply infile_not_outfile.
    rewrite (infile_by_name env1 (env_of c)) by done.
    destruct Hin as [content ->]. by eexists. }
  rewrite Hhash. unfold mbind, result_bind. cbv beta iota.
  destruct (replace_header_Ok env1 (hash ++ base_header_text) fs1 Hout)
    as [fs2 Hrep].
  rewrite Hrep. apply replace_header_frame in Hrep as [Hout2 _].
  destruct (add_references_Ok env1 (conf_refs c) fs2 Hout2) as [fs3 ->].
  eexists _, _, _. split; [done|]. by rewrite dom_insert_L.
Qed.

Lemma recompile_loop_Ok (limit : nat) (base_header_text : str)
    (env_confs : list conf) :
  refs_first ∅ env_confs = true ->
  length env_confs <= limit ->
  (forall self fs,
     name self ∈ conf_name <$> env_confs ->
     (pip_compile (pin_command self) fs).1.1.1 = 0%Z /\
     is_Some ((pip_compile (pin_command self) fs).2 !! outfile self)) ->
  forall (todo pre : list conf) (pinned : gmap str (gset str))
         (fs : filesystem),
    env_confs = pre ++ todo ->
    dom pinned = list_to_set (conf_name <$> pre) ->
    Forall (fun c => is_Some (fs !! infile (env_of c))) todo ->
    exists log pinned' fs',
      recompile_loop limit env_confs base_header_text todo pinned fs =
        (log, Ok (pinned', fs')).
Proof.
  intros Hfirst Hlimit Htool.
  induction todo as [|c todo IH]; intros pre pinned fs Henvs Hdom Hin.
  - by eexists _, _, _.
  - apply Forall_cons in Hin as [Hc Hin].
    destruct (refs_first_facts.recursive_refs_ordered env_confs Hfirst
                limit pre c todo Henvs) as (rrefs & Hrefs & Hsub).
    { rewrite Henvs, length_app in Hlimit. simpl in Hlimit. lia. }
    destruct (recompile_step_Ok limit env_confs base_header_text c pinned fs
                rrefs) as (log1 & pinned1 & fs1 & Hstep & Hdom1);
      [|done|by rewrite Hdom|done|].
    { intros self fs0 Hname. apply Htool. rewrite Hname, Henvs.
      apply list_elem_of_fmap. exists c. split; [done|].
      apply elem_of_app. right. by left. }
    destruct (IH (pre ++ [c]) pinned1 fs1) as (log2 & pinned2 & fs2 & Hloop).
    + by rewrite <- app_assoc.
    + rewrite Hdom1, Hdom, fmap_app, list_to_set_app_L. simpl. set_solver.
    + eapply Forall_impl; [done|]. intros c' Hc'. simpl in Hc'.
      by rewrite (recompile_step_frame _ _ _ _ _ _ _ _ _ Hstep)
        by apply infile_not_outfile.
    + simpl.
      fold (recompile_step limit env_confs base_header_text c pinned fs).
      rewrite Hstep.
      fold (recompile_loop limit env_confs base_header_text todo pinned1 fs1).
      rewrite Hloop. by eexists _, _, _.
Qed.

(** X10.  Recompiling goes through.  Assume that [pip-compile] writes
    no file but its output file, and that for each listed environment
    it returns 0 and leaves its output file behind.  If the
    environments come in reference order (distinct names, each after
    the ones it refers to), the recursion limit is at least their
    number, every input file exists and so does the header file when
    one is set, then [recompile] raises nothing: no [KeyError] from
    [merged_packages] or [recursive_refs], no [RecursionError], no
    [IOError]; and it changes no file but the output files. *)
Theorem recompile_succeeds limit fs env_confs :
  (forall self fs,
     name self ∈ conf_name <$> env_confs ->
     (pip_compile (pin_command self) fs).1.1.1 = 0%Z /\
     is_Some ((pip_compile (pin_command self) fs).2 !! outfile self)) ->
  refs_first ∅ env_confs = true ->
  length env_confs <= limit ->
  Forall (fun c => is_Some (fs !! infile (env_of c))) env_confs ->
  match header_file OPTIONS with
  | Some (c :: path) => is_Some (fs !! (c :: path))
  | _ => True
  end ->
  exists log fs',
    recompile limit fs env_confs = (log, Ok fs') /\
    forall path,
      Forall (fun c => path <> outfile (env_of c)) env_confs ->
      fs' !! path = fs !! path.
Proof.
  intros Htool Hfirst Hlimit Hin Hheader.
  unfold recompile, pipcompilemulti.recompile.
  assert (exists base_header_text,
    match header_file OPTIONS with
    | Some (c :: path) =>
        content ← open_rb fs (c :: path); Ok (universal_newlines content)
    | _ => Ok DEFAULT_HEADER
    end = Ok base_header_text) as [base_header_text ->].
  { destruct (header_file OPTIONS) as [[|c path]|]; [by eexists| |by eexists].
    destruct Hheader as [content Hfs]. unfold open_rb. rewrite Hfs.
    by eexists. }
  destruct (recompile_loop_Ok limit base_header_text env_confs Hfirst Hlimit
              Htool env_confs [] ∅ fs) as (log & pinned & fs' & Hloop);
    [done|by rewrite dom_empty_L|done|].
  fold (recompile_loop limit env_confs base_header_text env_confs ∅ fs).
  rewrite Hloop. exists log, fs'. split; [done|].
  by eapply recompile_loop_frame.
Qed.

(** *** Fingerprints *)

(** A digest is one line. *)
Hypothesis hexdigest_line : forall data,
  (newline ∉ sha1_hexdigest data) /\ (cr ∉ sha1_hexdigest data).

Lemma recompile_step_stamps limit env_confs base_header_text c pinned fs
    log pinned' fs' :
  recompile_step limit env_confs base_header_text c pinned fs =
    (log, Ok (pinned', fs')) ->
  stamped fs' c.
Proof.
  intros (rrefs & ignored & log1 & fs1 & env1 & hash & fs2 & _ & _ &
          Hcreate & Hhash & Hrep & Hadd & _)%recompile_step_inv.
  apply create_lockfile_frame in Hcreate as (Hname & Hout & _).
  rewrite <- (outfile_by_name env1) in Hout by done.
  unfold generate_hash_comment, pipcompilemulti.generate_hash_comment,
    open_rb in Hhash.
  destruct (fs1 !! infile env1) as [content|] eqn:Ein; [|done].
  unfold mbind, result_bind in Hhash. injection Hhash as <-.
  destruct (hexdigest_line (strip_bytes content)) as [Hnl Hcr].
  destruct (stamp_lockfile env1 _ base_header_text (conf_refs c) fs1
              Hnl Hcr Hout) as (fs2' & fs3 & Hrep' & Hadd' & Hparse & Hsame).
  pose proof (eq_trans (eq_sym Hrep) Hrep') as [= <-].
  pose proof (eq_trans (eq_sym Hadd) Hadd') as [= <-].
  exists (lit "# SHA1:" ++ sha1_hexdigest (strip_bytes content) ++ [newline]).
  rewrite (infile_by_name (env_of c) env1),
    (outfile_by_name (env_of c) env1) by done.
  split; [|done].
  unfold generate_hash_comment, pipcompilemulti.generate_hash_comment,
    open_rb.
  rewrite Hsame by apply infile_not_outfile. by rewrite Ein.
Qed.

Lemma recompile_loop_stamps limit env_confs base_header_text todo pinned fs
    log pinned' fs' :
  NoDup (conf_name <$> todo) ->
  Forall (fun c => "/" ∉ conf_name c) todo ->
  recompile_loop limit env_confs base_header_text todo pinned fs =
    (log, Ok (pinned', fs')) ->
  Forall (fun c => stamped fs' c) todo.
Proof.
  revert pinned fs log.
  induction todo as [|c todo IH]; intros pinned fs log Hnodup Hplain;
    [done|].
  rewrite fmap_cons in Hnodup. apply NoDup_cons in Hnodup as [Hc Hnodup].
  apply Forall_cons in Hplain as [Hcplain Hplain]. simpl.
  fold (recompile_step limit env_confs base_header_text c pinned fs).
  destruct (recompile_step _ _ _ c pinned fs)
    as [log1 [[pinned1 fs1]|]] eqn:Estep; [|done].
  fold (recompile_loop limit env_confs base_header_text todo pinned1 fs1).
  destruct (recompile_loop _ _ _ todo pinned1 fs1) as [log2 r] eqn:Eloop.
  intros [= <- ->]. constructor; [|by eapply IH].
  apply (stamped_ext fs1); [..|by eapply recompile_step_stamps].
  - eapply recompile_loop_frame; [done|].
    apply Forall_forall. intros c' _. apply infile_not_outfile.
  - eapply recompile_loop_frame; [done|].
    apply Forall_forall. intros c' Hc' Heq.
    apply outfile_inj in Heq; [|done|].
    + apply Hc. simpl in Heq. rewrite Heq.
      apply list_elem_of_fmap. by exists c'.
    + exact (proj1 (Forall_forall _ _) Hplain c' Hc').
Qed.

(** X11.  Verifying right after recompiling succeeds.  Assume that
    [pip-compile] writes no file but its output file, that a digest
    holds no line break, and that the environment names are distinct
    and hold no slash.  If [recompile] ends without an exception, then
    [verify] on the files it leaves finds every fingerprint up to date
    and returns without an exit code. *)
Theorem recompile_then_verify limit fs env_confs log fs' :
  NoDup (conf_name <$> env_confs) ->
  Forall (fun c => "/" ∉ conf_name c) env_confs ->
  recompile limit fs env_confs = (log, Ok fs') ->
  exists log', verify fs' env_confs = (log', Returned).
Proof.
  intros Hnodup Hplain. unfold recompile, pipcompilemulti.recompile.
  destruct (match header_file OPTIONS with
            | Some (c :: path) => _
            | _ => _
            end) as [base_header_text|]; [|done].
  fold (recompile_loop limit env_confs base_header_text env_confs ∅ fs).
  destruct (recompile_loop _ _ _ env_confs ∅ fs)
    as [log0 [[pinned fs0]|]] eqn:Eloop; [|done].
  intros [= <- <-].
  pose proof (recompile_loop_stamps _ _ _ _ _ _ _ _ _ Hnodup Hplain Eloop)
    as Hstamped.
  destruct (verify_facts.verify_checks_all sha1_hexdigest sys_version_major
              OPTIONS fs0 env_confs) as (log' & Hverify & _).
  { eapply Forall_impl; [done|]. intros c (h & Hg & Hp). by exists h, h. }
  exists log'. rewrite Hverify. f_equal.
  assert (forallb (up_to_date fs0) env_confs = true) as ->; [|done].
  apply forallb_forall. intros c Hc%list_elem_of_In.
  eapply Forall_forall in Hstamped as (h & Hg & Hp); [|done].
  unfold up_to_date, pipcompilemulti.up_to_date.
  rewrite Hg, Hp. by apply bool_decide_eq_true.
Qed.

End Tool.

End Program.

(** The stand-ins of the examples meet the assumptions. *)

Lemma instance_pip_compile_output (OPTIONS : Options) (self : Environment)
    (fs : filesystem) (path : str) :
  path <> outfile OPTIONS self ->
  (instance.pip_compile (pin_command OPTIONS self) fs).2 !! path = fs !! path.
Proof.
  intros Hp. unfold instance.pip_compile, pin_command.
  cbn [lookup list_lookup].
  repeat case_bool_decide; cbn [snd]; by rewrite ?lookup_insert_ne.
Qed.

Lemma instance_hexdigest_line data :
  (newline ∉ instance.sha1_hexdigest data) /\
  (cr ∉ instance.sha1_hexdigest data).
Proof.
  assert (forall n, (n < 16)%nat ->
            nth n (lit "0123456789abcdef") "0" <> newline /\
            nth n (lit "0123456789abcdef") "0" <> cr) as Hdigit.
  { intros n Hn. do 16 (destruct n as [|n]; [by split|]). lia. }
  split; intros (c & Heq & _)%list_elem_of_fmap;
    destruct (Hdigit (nat_of_ascii c mod 16)%nat) as [? ?];
    try done; by apply Nat.mod_upper_bound.
Qed.

Lemma instance_pip_compile_succeeds (self : Environment) (fs : filesystem) :
  name self ∈ conf_name <$> instance.base_and_test ->
  (instance.pip_compile (pin_command OPTIONS_initial self) fs).1.1.1 = 0%Z /\
  is_Some ((instance.pip_compile (pin_command OPTIONS_initial self) fs).2
             !! outfile OPTIONS_initial self).
Proof.
  intros Hname. unfold instance.pip_compile, pin_command.
  cbn [lookup list_lookup].
  assert (infile OPTIONS_initial self = lit "requirements/base.in" \/
          infile OPTIONS_initial self = lit "requirements/test.in") as Hin.
  { unfold infile. simpl in Hname.
    apply elem_of_cons in Hname as [->|Hname]; [by left|].
    apply elem_of_cons in Hname as [->|Hname]; [by right|].
    by apply elem_of_nil in Hname. }
  repeat case_bool_decide; cbn [fst snd].
  - split; [done|]. rewrite lookup_insert_eq. by eexists.
  - split; [done|]. rewrite lookup_insert_eq. by eexists.
  - by destruct Hin.
Qed.

Lemma recompile_then_verify_witness :
  let r := recompile instance.fnmatch instance.sha1_hexdigest 3
             OPTIONS_initial instance.pip_compile 10 instance.inputs
             instance.base_and_test in
  exists fs' log',
    r.2 = Ok fs' /\
    verify instance.sha1_hexdigest 3 OPTIONS_initial fs'
           instance.base_and_test = (log', Returned).
Proof.
  intros r.
  exists (match r.2 with Ok fs' => fs' | Raise _ => ∅ end).
  destruct (recompile_then_verify instance.fnmatch instance.sha1_hexdigest 3
              OPTIONS_initial instance.pip_compile
              (instance_pip_compile_output OPTIONS_initial)
              instance_hexdigest_line
              10%nat instance.inputs instance.base_and_test r.1
              (match r.2 with Ok fs' => fs' | Raise _ => ∅ end))
    as [log' Hverify].
  - apply (bool_decide_unpack _). vm_compute. exact I.
  - apply (bool_decide_unpack _). vm_compute. exact I.
  - vm_compute. reflexivity.
  - exists log'. split; [vm_compute; reflexivity|exact Hverify].
Defined.

Lemma recompile_succeeds_witness :
  exists log fs',
    recompile instance.fnmatch instance.sha1_hexdigest 3 OPTIONS_initial
              instance.pip_compile 2 instance.inputs instance.base_and_test =
      (log, Ok fs') /\
    forall path,
      Forall (fun c => path <>
                outfile OPTIONS_initial (Environment_init 3 (conf_name c)
                                           None false))
             instance.base_and_test ->
      fs' !! path = instance.inputs !! path.
Proof.
  apply (recompile_succeeds instance.fnmatch instance.sha1_hexdigest 3
           OPTIONS_initial instance.pip_compile
           (instance_pip_compile_output OPTIONS_initial)
           2%nat instance.inputs instance.base_and_test).
  - apply instance_pip_compile_succeeds.
  - vm_compute. reflexivity.
  - simpl. lia.
  - apply (bool_decide_unpack _). vm_compute. exact I.
  - exact I.
Defined.

End recompile_facts.

(** ** More on merged_packages and recursive_refs *)

Module graph_more.

Import graph graph_facts pipcompilemulti.

(** X12.  When every name has an entry, [merged_packages] returns the
    union of the sets recorded for the names; otherwise it raises
    [KeyError] for the first name that has none. *)
Theorem merged_packages_spec (env_packages : gmap str (gset str))
    (names : list str) :
  ((forall name, name ∈ names -> is_Some (env_packages !! name)) ->
   exists merged,
     merged_packages env_packages names = Ok merged /\
     forall pkg, pkg ∈ merged <->
       exists name pkgs, name ∈ names /\
         env_packages !! name = Some pkgs /\ pkg ∈ pkgs) /\
  (forall found key rest,
     names = found ++ key :: rest ->
     (forall name, name ∈ found -> is_Some (env_packages !! name)) ->
     env_packages !! key = None ->
     merged_packages env_packages names = Raise (KeyError key)).
Proof.
  unfold merged_packages. split.
  - induction names as [|name names IH]; intros Hall; simpl.
    + exists ∅. split; [done|]. intros pkg. split; [set_solver|].
      by intros (? & ? & ?%elem_of_nil & _).
    + destruct (Hall name) as [pkgs Hname]; [by left|]. rewrite Hname.
      destruct IH as (merged & Hmerged & Hin).
      { intros n Hn. apply Hall. by right. }
      simpl. destruct (mapM _ names) as [sets|e]; simpl in *; [|done].
      injection Hmerged as <-.
      eexists. split; [done|]. intros pkg.
      rewrite elem_of_union, Hin. split.
      * intros [Hpkg|(n & s & Hn & Hs & Hpkg)].
        -- exists name, pkgs. split; [by left|done].
        -- exists n, s. split; [by right|done].
      * intros (n & s & [->|Hn]%elem_of_cons & Hs & Hpkg).
        -- left. congruence.
        -- right. eauto.
  - intros found key rest -> Hfound Hkey.
    induction found as [|name found IH]; simpl.
    + by rewrite Hkey.
    + destruct (Hfound name) as [pkgs ->]; [by left|]. simpl.
      destruct (mapM _ (found ++ key :: rest)) as [sets|e]; simpl in *.
      * discriminate IH. intros n Hn. apply Hfound. by right.
      * rewrite IH; [done|]. intros n Hn. apply Hfound. by right.
Qed.

Lemma mapM_agree {A B} (f g : A -> result B) (l : list A) r :
  (forall x r, x ∈ l -> f x = r -> r <> Raise RecursionError -> g x = r) ->
  mapM f l = r -> r <> Raise RecursionError -> mapM g l = r.
Proof.
  revert r. induction l as [|x l IH]; intros r Hfg; simpl; [done|].
  destruct (f x) as [y|e] eqn:Hfx; simpl.
  - rewrite (Hfg x (Ok y)); [|by left|done|done]. simpl.
    destruct (mapM f l) as [ys|e] eqn:Hl; simpl.
    + intros <- _. rewrite (IH (Ok ys)); [done| |done|done].
      intros x' r' Hx'. apply Hfg. by right.
    + intros <- He. rewrite (IH (Raise e)); [done| |done|done].
      intros x' r' Hx'. apply Hfg. by right.
  - intros <- He. rewrite (Hfg x (Raise e)); [done|by left|done|congruence].
Qed.

(** X13.  The recursion limit decides nothing but [RecursionError]:
    whatever else [recursive_refs] gives, a set or a [KeyError], it
    gives again under any larger limit. *)
Theorem recursive_refs_limit (limit limit' : nat) (envs : list conf)
    (name : str) :
  recursive_refs limit envs name <> Raise RecursionError ->
  limit <= limit' ->
  recursive_refs limit' envs name = recursive_refs limit envs name.
Proof.
  revert limit' name.
  induction limit as [|limit IH]; intros limit' name; [done|].
  intros Hr Hle. destruct limit' as [|limit']; [lia|].
  simpl in *. destruct (refs_by_name envs !! name) as [refs|]; [|done].
  destruct (decide (refs = ∅)); [done|].
  destruct (mapM (recursive_refs limit envs) (elements refs))
    as [sets|e] eqn:Hsets.
  - rewrite (mapM_agree (recursive_refs limit envs)
               (recursive_refs limit' envs) _ (Ok sets));
      [done| intros x r _ <- Hx; apply IH; [done|lia] |done|done].
  - simpl in Hr.
    rewrite (mapM_agree (recursive_refs limit envs)
               (recursive_refs limit' envs) _ (Raise e));
      [done| intros x r _ <- Hx; apply IH; [done|lia] |done|congruence].
Qed.

Lemma recursive_refs_limit_witness :
  recursive_refs 3 instance.chain (lit "local") <> Raise RecursionError /\
  recursive_refs 1000 instance.chain (lit "local") =
    Ok {[ lit "test"; lit "base" ]}.
Proof.
  assert (recursive_refs 3 instance.chain (lit "local") <>
          Raise RecursionError) as H by (vm_compute; discriminate).
  split; [exact H|].
  rewrite (recursive_refs_limit 3 1000 instance.chain (lit "local") H);
    [|lia].
  vm_compute. reflexivity.
Defined.

End graph_more.

(** ** References between input files *)

Module references_facts.

Import Str_facts Re_facts pipcompilemulti.

(** The part of [RE_REF] after the flag, on blanks, a path, a rest that
    starts with a blank, and the end of the line. *)
Lemma RE_REF_tail_run ws p t tail g
    (k : str -> str -> captures -> option captures) r :
  forallb isspace ws = true ->
  p <> [] -> forallb non_whitespace p = true ->
  match t with [] => True | c :: _ => isspace c = true end ->
  forallb dot t = true ->
  tail = [] \/ tail = [newline] ->
  k (ws ++ p ++ t ++ []) tail (("path"%string, p) :: g) = Some r ->
  run RE_REF_tail (ws ++ p ++ t ++ tail) g k = Some r.
Proof.
  intros Hws Hp Hnw Ht Hdot Htail Hk.
  destruct p as [|c p]; [done|]. simpl in Hnw.
  apply andb_true_iff in Hnw as [Hc Hnw].
  unfold RE_REF_tail. cbn [run].
  apply star_stop; [done| |].
  { simpl. unfold non_whitespace in Hc. by destruct (isspace c). }
  cbn [app]. rewrite Hc.
  apply star_stop; [done| |].
  { destruct t as [|c' t]; simpl.
    - by destruct Htail as [->| ->].
    - unfold non_whitespace. by rewrite Ht. }
  apply star_stop; [done| |].
  { by destruct Htail as [->| ->]. }
  destruct Htail as [->| ->]; simpl; done.
Qed.

(** X14.  What [parse_references] takes from one line.  A line that is
    [-r] or [--requirement], any blanks (none will do), a path without
    blanks, and then nothing or a rest that starts with a blank, up to
    the end of the line, adds that path without its extension.  A line
    that starts with neither flag, leading blanks included, adds
    nothing. *)
Theorem parse_reference_line flag ws p t tail :
  flag = lit "-r" \/ flag = lit "--requirement" ->
  forallb isspace ws = true ->
  p <> [] -> forallb non_whitespace p = true ->
  match t with [] => True | c :: _ => isspace c = true end ->
  forallb dot t = true ->
  tail = [] \/ tail = [newline] ->
  parse_reference (flag ++ ws ++ p ++ t ++ tail) =
    Some (os_path_splitext p).1 /\
  forall line,
    startswith line (lit "-r") = false ->
    startswith line (lit "--requirement") = false ->
    parse_reference line = None.
Proof.
  intros Hflag Hws Hp Hnw Ht Hdot Htail. split.
  - assert (forall g, run RE_REF_tail (ws ++ p ++ t ++ tail) g
                        (fun m2 s2 g2 => Some g2) =
                      Some (("path"%string, p) :: g)) as Hrun.
    { intros g. by apply RE_REF_tail_run. }
    unfold parse_reference, RE_REF_match, match_.
    destruct Hflag as [-> | ->].
    + cbn [run]. rewrite startswith_app.
      change (drop (length (lit "-r")) (lit "-r" ++ ?s)) with s.
      by rewrite Hrun.
    + cbn [run].
      change (startswith (lit "--requirement" ++ ?s) (lit "-r")) with false.
      cbn iota. rewrite startswith_app.
      change (drop (length (lit "--requirement"))
                (lit "--requirement" ++ ?s)) with s.
      by rewrite Hrun.
  - intros line H1 H2. unfold parse_reference, RE_REF_match, match_.
    cbn [run]. by rewrite H1, H2.
Qed.

Lemma parse_reference_line_witness :
  parse_reference (lit "--requirement   ../shared/base.in  # pins" ++
                   [newline]) = Some (lit "../shared/base") /\
  forall line,
    startswith line (lit "-r") = false ->
    startswith line (lit "--requirement") = false ->
    parse_reference line = None.
Proof.
  refine (parse_reference_line (lit "--requirement") (lit "   ")
            (lit "../shared/base.in") (lit "  # pins") [newline]
            _ _ _ _ _ _ _).
  - by right.
  - vm_compute. reflexivity.
  - discriminate.
  - vm_compute. reflexivity.
  - vm_compute. reflexivity.
  - vm_compute. reflexivity.
  - by right.
Defined.

Lemma parse_references_fold (fp : list str) (references : gset str) r :
  r ∈ foldl (fun references line =>
               match parse_reference line with
               | Some reference_base => {[ reference_base ]} ∪ references
               | None => references
               end) references fp <->
  r ∈ references \/ exists line, line ∈ fp /\ parse_reference line = Some r.
Proof.
  revert references. induction fp as [|line fp IH]; intros references; simpl.
  - split; [by left|]. by intros [?|(? & ?%elem_of_nil & _)].
  - rewrite IH. split.
    + intros [Hr|(l & Hl & Hp)].
      * destruct (parse_reference line) as [b|] eqn:E; [|by left].
        apply elem_of_union in Hr as [->%elem_of_singleton|?]; [|by left].
        right. exists line. split; [by left|done].
      * right. exists l. split; [by right|done].
    + intros [Hr|(l & [->|Hl]%elem_of_cons & Hp)].
      * left. destruct (parse_reference line); set_solver.
      * left. rewrite Hp. set_solver.
      * right. eauto.
Qed.

(** X15.  [parse_references] raises [IOError] when the file is
    missing; otherwise it returns exactly the references its lines add,
    one by one, a reference named twice counting once. *)
Theorem parse_references_spec (fs : filesystem) (filename : str) :
  (fs !! filename = None ->
   parse_references fs filename = Raise (IOError filename)) /\
  (forall content,
     fs !! filename = Some content ->
     exists references,
       parse_references fs filename = Ok references /\
       forall r, r ∈ references <->
         exists line, line ∈ readlines (universal_newlines content) /\
                      parse_reference line = Some r).
Proof.
  unfold parse_references, open_rt, open_rb. split.
  - by intros ->.
  - intros content ->. simpl. eexists. split; [done|]. intros r.
    rewrite parse_references_fold. set_solver.
Qed.

End references_facts.

(** ** Paths and environment names *)

Module paths_facts.

Import Str_facts pipcompilemulti.

Lemma rfind_None s c : rfind s c = None <-> c ∉ s.
Proof.
  induction s as [|x s IH]; simpl.
  - split; [|done]. by intros _ ?%elem_of_nil.
  - destruct (rfind s c) as [i|].
    + split; [done|]. intros Hc. apply not_elem_of_cons in Hc as [_ Hc].
      by apply IH in Hc.
    + destruct (eqb x c) eqn:E.
      * apply eqb_eq in E as ->. split; [done|]. intros Hc.
        exfalso. apply Hc. by left.
      * apply eqb_neq in E. split; [|done]. intros _.
        apply not_elem_of_cons. split; [done|]. by apply IH.
Qed.

(** After the last occurrence there is none. *)
Lemma rfind_Some s c i :
  rfind s c = Some i ->
  exists a b, s = a ++ c :: b /\ (c ∉ b) /\ i = length a.
Proof.
  revert i. induction s as [|x s IH]; intros i; simpl; [done|].
  destruct (rfind s c) as [j|] eqn:E.
  - intros [= <-]. destruct (IH j eq_refl) as (a & b & -> & Hc & ->).
    by exists (x :: a), b.
  - destruct (eqb x c) eqn:Ex; [|done]. intros [= <-].
    apply eqb_eq in Ex as ->. exists [], s.
    split; [done|]. split; [by apply rfind_None|done].
Qed.

Lemma rfind_last s c t : c ∉ t -> rfind (s ++ c :: t) c = Some (length s).
Proof.
  intros Hc. induction s as [|x s IH]; simpl.
  - apply rfind_None in Hc. by rewrite Hc, eqb_refl.
  - by rewrite IH.
Qed.

Lemma rfind_app s c t : c ∉ t -> rfind (s ++ t) c = rfind s c.
Proof.
  intros Hc. induction s as [|x s IH]; simpl.
  - by apply rfind_None.
  - by rewrite IH.
Qed.

Lemma drop_after a (c : ascii) b : drop (S (length a)) (a ++ c :: b) = b.
Proof.
  change (a ++ c :: b) with (a ++ [c] ++ b). rewrite (assoc_L (++)).
  apply drop_app_length'. rewrite length_app. simpl. lia.
Qed.

(** A path is a directory part, empty or ended by a slash, and its
    base name, which holds no slash. *)
Lemma os_path_basename_split p :
  ("/" ∉ os_path_basename p) /\
  exists dir, p = dir ++ os_path_basename p /\
              (dir = [] \/ endswith dir (lit "/") = true).
Proof.
  unfold os_path_basename. destruct (rfind p "/") as [i|] eqn:E.
  - apply rfind_Some in E as (a & b & -> & Hb & ->).
    rewrite drop_after. split; [done|].
    exists (a ++ lit "/"). split; [by rewrite <- (assoc_L (++))|].
    right. apply endswith_suffix. by exists a.
  - rewrite drop_0. split; [by apply rfind_None|].
    exists []. split; [done|by left].
Qed.

Lemma os_path_basename_join dir b :
  "/" ∉ b -> dir = [] \/ endswith dir (lit "/") = true ->
  os_path_basename (dir ++ b) = b.
Proof.
  intros Hb [->|Hdir]; unfold os_path_basename.
  - apply rfind_None in Hb. simpl. by rewrite Hb.
  - apply endswith_suffix in Hdir as [d ->].
    rewrite <- (assoc_L (++)). simpl.
    rewrite rfind_last by done. apply drop_after.
Qed.

Lemma os_path_splitext_app p :
  (os_path_splitext p).1 ++ (os_path_splitext p).2 = p.
Proof.
  unfold os_path_splitext. destruct (rfind p "."); [|by rewrite app_nil_r].
  destruct (_ && _); simpl; [apply take_drop|by rewrite app_nil_r].
Qed.

(** A stem with a character that is not a dot loses its extension. *)
Lemma os_path_splitext_stem stem ext :
  "/" ∉ stem -> "/" ∉ ext -> "." ∉ ext ->
  existsb (fun c => negb (eqb c ".")) stem = true ->
  os_path_splitext (stem ++ "." :: ext) = (stem, "." :: ext).
Proof.
  intros Hstem Hext Hdot Hsome. unfold os_path_splitext.
  rewrite rfind_last by done.
  assert (rfind (stem ++ "." :: ext) "/" = None) as ->.
  { apply rfind_None. rewrite not_elem_of_app, not_elem_of_cons.
    by repeat split. }
  simpl. rewrite drop_0, Nat.sub_0_r, take_app_length, drop_app_length.
  by rewrite Hsome.
Qed.

Lemma os_path_splitext_dots dots ext :
  "/" ∉ dots ++ ext ->
  forallb (fun c => eqb c ".") dots = true -> "." ∉ ext ->
  os_path_splitext (dots ++ "." :: ext) = (dots ++ "." :: ext, []).
Proof.
  intros Hplain Hdots Hext. unfold os_path_splitext.
  rewrite rfind_last by done.
  assert (rfind (dots ++ "." :: ext) "/" = None) as ->.
  { apply not_elem_of_app in Hplain as [? ?].
    apply rfind_None. rewrite not_elem_of_app, not_elem_of_cons.
    by repeat split. }
  simpl. rewrite drop_0, Nat.sub_0_r, take_app_length.
  assert (existsb (fun c => negb (eqb c ".")) dots = false) as ->; [|done].
  clear -Hdots. induction dots as [|c dots IH]; [done|]. simpl in *.
  apply andb_true_iff in Hdots as [-> Hdots]. simpl. by apply IH.
Qed.

(** X16.  The environment name of a path, in every case.  The path is
    a directory part, empty or ended by a slash, and a base name
    without slash.  When the base name is a stem with some character
    that is not a dot, a dot and an extension without dot, the name is
    the stem; when the base name holds no dot, or only dots before its
    last dot, the name is the whole base name.  So a name never holds a
    slash. *)
Theorem extract_env_name_spec :
  (forall dir stem ext,
     dir = [] \/ endswith dir (lit "/") = true ->
     "/" ∉ stem -> "/" ∉ ext -> "." ∉ ext ->
     existsb (fun c => negb (eqb c ".")) stem = true ->
     extract_env_name (dir ++ stem ++ "." :: ext) = stem) /\
  (forall dir base,
     dir = [] \/ endswith dir (lit "/") = true ->
     "/" ∉ base ->
     "." ∉ base \/
       (exists dots ext, base = dots ++ "." :: ext /\
          forallb (fun c => eqb c ".") dots = true /\ "." ∉ ext) ->
     extract_env_name (dir ++ base) = base) /\
  (forall file_path, "/" ∉ extract_env_name file_path).
Proof.
  split; [|split].
  - intros dir stem ext Hdir Hstem Hext Hdot Hsome. unfold extract_env_name.
    rewrite os_path_basename_join; [|by rewrite not_elem_of_app,
                                        not_elem_of_cons|done].
    by rewrite os_path_splitext_stem.
  - intros dir base Hdir Hbase Hcase. unfold extract_env_name.
    rewrite os_path_basename_join by done.
    destruct Hcase as [Hnodot|(dots & ext & -> & Hdots & Hext)].
    + unfold os_path_splitext. apply rfind_None in Hnodot.
      by rewrite Hnodot.
    + rewrite os_path_splitext_dots; [done| |done|done].
      rewrite not_elem_of_app, not_elem_of_cons in Hbase.
      rewrite not_elem_of_app. by destruct Hbase as (? & _ & ?).
  - intros file_path. unfold extract_env_name.
    destruct (os_path_basename_split file_path) as (Hplain & _).
    pose proof (os_path_splitext_app (os_path_basename file_path)) as Happ.
    rewrite <- Happ in Hplain.
    by apply not_elem_of_app in Hplain as [Hstem _].
Qed.

Section Program.

Variable OPTIONS : Options.

(** X17.  The name found in the input path of an environment is the
    name of the environment, when that name holds no slash and is not
    made of dots only. *)
Theorem extract_env_name_infile self :
  "/" ∉ name self ->
  existsb (fun c => negb (eqb c ".")) (name self) = true ->
  extract_env_name (infile OPTIONS self) = name self.
Proof.
  intros Hplain Hsome. unfold extract_env_name.
  assert (os_path_basename (infile OPTIONS self) = name self ++ IN_EXT)
    as ->.
  { unfold infile, os_path_join.
    assert (startswith (name self ++ IN_EXT) (lit "/") = false) as ->.
    { destruct (name self) as [|c n]; [done|].
      apply not_elem_of_cons in Hplain as [Hc _]. simpl.
      destruct (eqb "/" c) eqn:E; [|done]. by apply eqb_eq in E. }
    assert ("/" ∉ name self ++ IN_EXT) as Hb.
    { apply not_elem_of_app. split; [done|].
      apply (bool_decide_unpack _). vm_compute. exact I. }
    destruct (endswith (base_dir OPTIONS) (lit "/")) eqn:Eend;
      [rewrite orb_true_r; apply os_path_basename_join; [done|by right]|].
    rewrite orb_false_r.
    destruct (length (base_dir OPTIONS) =? 0)%nat eqn:Elen.
    - apply Nat.eqb_eq in Elen.
      destruct (base_dir OPTIONS); [|done].
      by apply (os_path_basename_join []); [|left].
    - rewrite (assoc_L (++)). apply os_path_basename_join; [done|].
      right. apply endswith_suffix. by eexists. }
  change IN_EXT with ("." :: lit "in").
  rewrite os_path_splitext_stem; [done|done|..|done].
  - apply (bool_decide_unpack _). vm_compute. exact I.
  - apply (bool_decide_unpack _). vm_compute. exact I.
Qed.

End Program.

Lemma extract_env_name_infile_witness :
  infile OPTIONS_initial instance.base = lit "requirements/base.in" /\
  extract_env_name (lit "requirements/base.in") = lit "base".
Proof.
  split; [vm_compute; reflexivity|].
  apply (extract_env_name_infile OPTIONS_initial instance.base).
  - apply (bool_decide_unpack _). vm_compute. exact I.
  - vm_compute. reflexivity.
Defined.

End paths_facts.

(** ** Continuation lines (package layout) *)

Module concatenated_facts.

Import Str_facts environment.

(** A line that goes on: stripped, it ends with a backslash. *)
Abbreviation continued line := (endswith (strip line) (lit "\")).

(** What is kept of a line that goes on. *)
Abbreviation kept line := (rstrip (removelast (strip line))).

Abbreviation ends_with_backslash :=
  (RuntimeError "Compiled file ends with backslash \").

Lemma concatenated_loop_block conts l rest line_parts :
  Forall (fun c => continued c = true) conts ->
  continued l = false ->
  concatenated_loop (conts ++ l :: rest) line_parts =
    (join (lit " ")
          (line_parts ++ ((fun c => kept c) <$> conts) ++ [strip l])
       :: (concatenated rest).1,
     (concatenated rest).2).
Proof.
  intros Hconts Hl. revert line_parts.
  induction Hconts as [|c conts Hc _ IH]; intros line_parts.
  - cbn [app fmap list_fmap concatenated_loop]. rewrite Hl.
    unfold concatenated. by destruct (concatenated_loop rest []).
  - cbn [app concatenated_loop]. rewrite Hc, IH.
    by rewrite <- (assoc_L (++)).
Qed.

Lemma concatenated_loop_end fp line_parts :
  (concatenated_loop fp line_parts).2 =
    match last fp with
    | Some l => if continued l then Some ends_with_backslash else None
    | None => match line_parts with
              | [] => None
              | _ => Some ends_with_backslash
              end
    end.
Proof.
  revert line_parts. induction fp as [|line fp IH]; intros line_parts;
    [done|].
  cbn [concatenated_loop].
  destruct (continued line) eqn:Hline.
  - rewrite IH. destruct fp as [|line' fp].
    + rewrite last_nil, last_singleton, Hline. by destruct line_parts.
    + rewrite last_cons_cons.
      destruct (last (line' :: fp)) eqn:E; [done|]. by apply last_None in E.
  - specialize (IH []). destruct (concatenated_loop fp []) as [yielded e].
    cbn [snd] in *. rewrite IH. destruct fp as [|line' fp].
    + by rewrite last_nil, last_singleton, Hline.
    + rewrite last_cons_cons.
      destruct (last (line' :: fp)) eqn:E; [done|]. by apply last_None in E.
Qed.

Lemma concatenated_loop_length fp line_parts :
  length (concatenated_loop fp line_parts).1 =
    length (filter (fun line => continued line = false) fp).
Proof.
  revert line_parts. induction fp as [|line fp IH]; intros line_parts;
    [done|].
  cbn [concatenated_loop]. rewrite filter_cons.
  destruct (continued line) eqn:Hline.
  - rewrite IH. by rewrite decide_False by done.
  - specialize (IH []). destruct (concatenated_loop fp []) as [yielded e].
    rewrite decide_True by done. simpl in *. by rewrite IH.
Qed.

(** X18.  [concatenated] joins a run of lines that go on with the line
    that ends the run: every line is stripped, a line that goes on
    loses its backslash and the blanks before it, and the pieces are
    joined by single spaces; what follows is read on its own. *)
Theorem concatenated_block conts l rest :
  Forall (fun c => continued c = true) conts ->
  continued l = false ->
  concatenated (conts ++ l :: rest) =
    (join (lit " ") (((fun c => kept c) <$> conts) ++ [strip l])
       :: (concatenated rest).1,
     (concatenated rest).2).
Proof. intros. by apply (concatenated_loop_block conts l rest []). Qed.

Lemma concatenated_block_witness :
  concatenated [ lit "flask==1.0 \" ++ [newline];
                 lit "    --hash=sha256:aa  \" ++ [newline];
                 lit "    --hash=sha256:bb" ++ [newline];
                 lit "six==1.12" ++ [newline] ] =
    ([ lit "flask==1.0 --hash=sha256:aa --hash=sha256:bb";
       lit "six==1.12" ], None).
Proof.
  apply (concatenated_block
           [ lit "flask==1.0 \" ++ [newline];
             lit "    --hash=sha256:aa  \" ++ [newline] ]
           (lit "    --hash=sha256:bb" ++ [newline])
           [ lit "six==1.12" ++ [newline] ]).
  - apply (bool_decide_unpack _). vm_compute. exact I.
  - vm_compute. reflexivity.
Defined.

(** X19.  [concatenated] yields one line for each line that does not
    go on, and it raises its [RuntimeError], after the last of them,
    exactly when the last line of the file goes on. *)
Theorem concatenated_end fp :
  length (concatenated fp).1 =
    length (filter (fun line => continued line = false) fp) /\
  (concatenated fp).2 =
    match last fp with
    | Some l => if continued l then Some ends_with_backslash else None
    | None => None
    end.
Proof.
  split; [apply concatenated_loop_length|].
  unfold concatenated. by rewrite concatenated_loop_end.
Qed.

End concatenated_facts.

(** ** More on verify *)

Module verify_more.

Import pipcompilemulti.

Section Program.

Variable sha1_hexdigest : str -> str.
Variable sys_version_major : nat.
Variable OPTIONS : Options.

Abbreviation verify_step :=
  (verify_step sha1_hexdigest sys_version_major OPTIONS).
Abbreviation verify_loop :=
  (verify_loop sha1_hexdigest sys_version_major OPTIONS).
Abbreviation verify := (verify sha1_hexdigest sys_version_major OPTIONS).
Abbreviation up_to_date :=
  (up_to_date sha1_hexdigest sys_version_major OPTIONS).
Abbreviation checkable := (checkable sha1_hexdigest sys_version_major OPTIONS).
Abbreviation generate_hash_comment := (generate_hash_comment sha1_hexdigest).
Abbreviation env_of c :=
  (Environment_init sys_version_major (conf_name c) None false).

(** Why the check of [c] raises [e]: a file is missing, or the output
    file has no fingerprint line. *)
Abbreviation fails fs c e :=
  ((e = IOError (infile OPTIONS (env_of c)) /\
    fs !! infile OPTIONS (env_of c) = None) \/
   (e = IOError (outfile OPTIONS (env_of c)) /\
    is_Some (fs !! infile OPTIONS (env_of c)) /\
    fs !! outfile OPTIONS (env_of c) = None) \/
   (e = AttributeError "'NoneType' object has no attribute 'strip'" /\
    is_Some (fs !! infile OPTIONS (env_of c)) /\
    parse_hash_comment fs (outfile OPTIONS (env_of c)) = Ok None)).

Lemma verify_step_fails fs c success e :
  fails fs c e -> (verify_step fs c success).2 = Raise e.
Proof.
  unfold verify_step, pipcompilemulti.verify_step. fold (env_of c).
  unfold pipcompilemulti.generate_hash_comment, open_rb.
  intros [[-> Hin]|[(-> & [content Hin] & Hout)|(-> & [content Hin] & Hp)]].
  - by rewrite Hin.
  - rewrite Hin. unfold parse_hash_comment, open_rt, open_rb.
    by rewrite Hout.
  - rewrite Hin. simpl. rewrite Hp. by rewrite decide_False.
Qed.

Lemma verify_loop_fails fs checked c rest success e :
  Forall (checkable fs) checked -> fails fs c e ->
  (verify_loop fs (checked ++ c :: rest) success).2 = Raise e.
Proof.
  intros Hchecked Hfails. revert success.
  induction Hchecked as [|c' checked Hc' _ IH]; intros success.
  - cbn [app pipcompilemulti.verify_loop].
    pose proof (verify_step_fails fs c success e Hfails) as Hstep.
    destruct (verify_step fs c success) as [log [success'|e']];
      simpl in Hstep; [done|]. by injection Hstep as ->.
  - cbn [app pipcompilemulti.verify_loop].
    destruct (verify_facts.verify_step_checkable sha1_hexdigest
                sys_version_major OPTIONS fs c' success Hc') as [log ->].
    specialize (IH (success && up_to_date fs c')).
    by destruct (verify_loop fs (checked ++ c :: rest) _) as [log' r].
Qed.

(** X20.  How [verify] ends, in every case.  It returns when every
    fingerprint is up to date; it exits with code 1 when every
    environment can be checked and some fingerprint is not up to date;
    and when an environment cannot be checked while all before it can,
    it raises there, the ones after it unseen: [IOError] for a missing
    input file or else a missing output file, [AttributeError] for an
    output file without a fingerprint line. *)
Theorem verify_outcome fs env_confs :
  (Forall (fun c => up_to_date fs c = true) env_confs ->
   (verify fs env_confs).2 = Returned) /\
  (Forall (checkable fs) env_confs ->
   Exists (fun c => up_to_date fs c = false) env_confs ->
   (verify fs env_confs).2 = Exit 1) /\
  (forall checked c rest e,
     env_confs = checked ++ c :: rest ->
     Forall (checkable fs) checked -> fails fs c e ->
     (verify fs env_confs).2 = Raised e).
Proof.
  assert (forall c, up_to_date fs c = true -> checkable fs c) as Hcheckable.
  { intros c. unfold up_to_date, pipcompilemulti.up_to_date, checkable,
      pipcompilemulti.checkable.
    destruct (pipcompilemulti.generate_hash_comment _ _ _) as [current|];
      [|done].
    destruct (parse_hash_comment _ _) as [[existing|]|]; [|done..].
    intros _. by exists current, existing. }
  assert (forall b,
    Forall (checkable fs) env_confs ->
    forallb (up_to_date fs) env_confs = b ->
    (verify fs env_confs).2 = if b then Returned else Exit 1) as Hall.
  { intros b Hc <-.
    destruct (verify_facts.verify_checks_all sha1_hexdigest
                sys_version_major OPTIONS fs env_confs Hc) as (log & -> & _).
    done. }
  split; [|split].
  - intros Hup. apply (Hall true).
    + eapply Forall_impl; [done|]. apply Hcheckable.
    + apply forallb_forall. intros c Hc%list_elem_of_In.
      by eapply Forall_forall in Hup.
  - intros Hc (c & Hin & Hout)%Exists_exists. apply (Hall false); [done|].
    apply not_true_iff_false. intros Hup.
    eapply forallb_forall in Hup; [|by apply list_elem_of_In].
    congruence.
  - intros checked c rest e -> Hchecked Hfails.
    unfold verify, pipcompilemulti.verify.
    pose proof (verify_loop_fails fs checked c rest true e Hchecked Hfails)
      as Hloop.
    destruct (verify_loop fs (checked ++ c :: rest) true) as [log r].
    simpl in Hloop. by subst r.
Qed.

End Program.

End verify_more.
